(** * dusk-blockchain: consensus reduction, event marshalling and chain manager

    A shallow embedding of the Go sources
      - pkg/core/consensus/reduction/setreduction.go
      - pkg/core/consensus/setgeneration.go
      - pkg/core/consensus/events/marshalling.go
      - pkg/core/chain/chain.go
    Go maps are stdpp [gmap]s, byte slices are lists of [byte], fixed-width
    integers are [Z] with their wrap-around written out, and the effects of a
    function (RPC calls, bus publications, channel sends) are appended to an
    explicit trace.

    Further packages are embedded in the same way: the committee selector
    ([Selector.PickBest]), the mempool, the connection manager, the map of
    duplicates, the connector of peers and the raw sessions of the SAM
    bridge. *)

From Stdlib Require Import ZArith Lia.
From Stdlib Require Import Strings.Byte Strings.Ascii.
From stdpp Require Import gmap strings list.
From stdpp Require pretty.

Local Open Scope Z_scope.

(** ** Go primitives *)

Module Go.

  (** [error]: the Go error value, identified by its message. *)
Definition error : Type := string.

#[global] Instance byte_eq_dec : EqDecision byte := Byte.byte_eq_dec.

  (** A Go [[]byte] whose nil-ness the code inspects ([x == nil]):
      [None] is the nil slice, [Some bs] a non-nil slice with contents [bs]. *)
Definition slice : Type := option (list byte).

  (** The contents of a slice; the nil slice has none. *)
Definition bytes_of (s : slice) : list byte := default [] s.

  (** [make([]byte, n)]: n zero bytes. *)
Definition make_bytes (n : nat) : list byte := replicate n x00.

  (** Conversion to [uint8], [uint64]: reduction modulo the width. *)
Definition uint8 (z : Z) : Z := z mod 256.
Definition uint64 (z : Z) : Z := z mod 2 ^ 64.

  (** [hex.EncodeToString]: two lowercase hexadecimal digits per byte. *)
Definition hexdigit (n : N) : ascii :=
    match n with
    | 0%N => "0" | 1%N => "1" | 2%N => "2" | 3%N => "3"
    | 4%N => "4" | 5%N => "5" | 6%N => "6" | 7%N => "7"
    | 8%N => "8" | 9%N => "9" | 10%N => "a" | 11%N => "b"
    | 12%N => "c" | 13%N => "d" | 14%N => "e" | _ => "f"
    end%char.

Definition unhexdigit (c : ascii) : N :=
    let n := Ascii.N_of_ascii c in
    if (n <? 58)%N then (n - 48)%N else (n - 87)%N.

Fixpoint EncodeToString (bs : list byte) : string :=
    match bs with
    | [] => EmptyString
    | b :: rest =>
        String (hexdigit (Byte.to_N b / 16))
          (String (hexdigit (Byte.to_N b mod 16)) (EncodeToString rest))
    end.

  (** The inverse on well-formed input, used to show the encoding injective. *)
Fixpoint DecodeString (s : string) : list byte :=
    match s with
    | String hi (String lo rest) =>
        match Byte.of_N (unhexdigit hi * 16 + unhexdigit lo) with
        | Some b => b :: DecodeString rest
        | None => []
        end
    | _ => []
    end.

  (** [bytes.Equal]: equality of contents. *)
Definition bytes_Equal (a b : list byte) : bool := bool_decide (a = b).

  (** Reading a Go map at a key: the zero value when the key is absent. *)
Definition map_get {V} (zero : V) (m : gmap string V) (k : string) : V :=
    default zero (m !! k).

  (** A Go map value whose nil-ness matters: [None] is the nil map, which
      reads as a map with no entry; a write to it panics. *)
Definition Map (V : Type) : Type := option (gmap string V).

Definition entries {V} (m : Map V) : gmap string V := default ∅ m.

End Go.

(** ** Types of the consensus packages used by the reduction phase *)

(** Modelled from the spec: [sortition.Verify] is not among the sources. The
    spec's contract: "votes(committee, pubkey) -> count returns the number of
    seats a given key holds". The caller adds the result to a [uint8] counter,
    so the count is a [uint8] incremented once per seat. *)
Module sortition.

Definition Verify (committee : list (list byte)) (pk : list byte) : Z :=
    fold_left
      (fun votes member =>
         if Go.bytes_Equal pk member then Go.uint8 (votes + 1) else votes)
      committee 0.

End sortition.

(** The payload of a signature set vote (package consensusmsg). *)
Module SigSetVote.
Record t : Type := mk {
    BlockHash : list byte;
    SigSetHash : Go.slice;
    SigBLS : list byte;
    PubKeyBLS : list byte
  }.
End SigSetVote.

(** The payload of a signature set candidate (package consensusmsg). *)
Module SigSetCandidate.
Record t (Vote : Type) : Type := mk {
    BlockHash : list byte;
    SignatureSet : list Vote;
    PubKeyBLS : list byte;
    Score : list byte
  }.
  Arguments mk {Vote}.
  Arguments BlockHash {Vote}.
  Arguments SignatureSet {Vote}.
  Arguments PubKeyBLS {Vote}.
  Arguments Score {Vote}.
End SigSetCandidate.

(** [payload.MsgConsensus]: the payload is an interface value, narrowed by a
    type assertion where it is used. *)
Module MsgConsensus.
Inductive Msg (Vote : Type) : Type :=
  | PlSigSetVote (pl : SigSetVote.t)
  | PlSigSetCandidate (pl : SigSetCandidate.t Vote)
  | PlOther.
  Arguments PlSigSetVote {Vote}.
  Arguments PlSigSetCandidate {Vote}.
  Arguments PlOther {Vote}.

Record t (Vote : Type) : Type := mk {
    Version : Z;
    Round : Z;
    PrevBlockHash : list byte;
    Step : Z;
    Signature : list byte;
    PubKey : list byte;
    Payload : Msg Vote
  }.
  Arguments mk {Vote}.
  Arguments Version {Vote}.
  Arguments Round {Vote}.
  Arguments PrevBlockHash {Vote}.
  Arguments Step {Vote}.
  Arguments Signature {Vote}.
  Arguments PubKey {Vote}.
  Arguments Payload {Vote}.
End MsgConsensus.

(** [user.Context]: the fields the two phases read and write. The map of the
    field [AllVotes] may be nil ([AllVotes_map]); the keys and the last header
    are records here, so the pointers the phases dereference are not nil. *)
Module user.
Record Keys : Type := mkKeys {
    EdPubKey : list byte;
    BLSPubKey : list byte;
    BLSSecretKey : list byte
  }.

Record Context (Vote : Type) : Type := mkContext {
    Version : Z;
    Magic : Z;
    Round : Z;
    Step : Z;
    W : Z;
    Weight : Z;
    Score : list byte;
    Multiplier : Z;
    keys : Keys;
    LastHeaderHash : list byte;
    BlockHash : list byte;
    Committee : list (list byte);
    NodeWeights : gmap string Z;
    CurrentCommittee : list (list byte);
    SigSetHash : Go.slice;
    SigSetVotes : list Vote;
    AllVotes_map : Go.Map (list Vote)
  }.
  Arguments mkContext {Vote}.
  Arguments Version {Vote}.
  Arguments Magic {Vote}.
  Arguments Round {Vote}.
  Arguments Step {Vote}.
  Arguments W {Vote}.
  Arguments Weight {Vote}.
  Arguments Score {Vote}.
  Arguments Multiplier {Vote}.
  Arguments keys {Vote}.
  Arguments LastHeaderHash {Vote}.
  Arguments BlockHash {Vote}.
  Arguments Committee {Vote}.
  Arguments NodeWeights {Vote}.
  Arguments CurrentCommittee {Vote}.
  Arguments SigSetHash {Vote}.
  Arguments SigSetVotes {Vote}.
  Arguments AllVotes_map {Vote}.

  Section Setters.
    Context {Vote : Type}.
    Implicit Type ctx : Context Vote.

  (** The field [AllVotes] as it reads. *)
Definition AllVotes ctx : gmap string (list Vote) := Go.entries (AllVotes_map ctx).

Definition set_Step (v : Z) ctx : Context Vote :=
      mkContext (Version ctx) (Magic ctx) (Round ctx) v (W ctx) (Weight ctx)
        (Score ctx) (Multiplier ctx) (keys ctx) (LastHeaderHash ctx)
        (BlockHash ctx) (Committee ctx) (NodeWeights ctx)
        (CurrentCommittee ctx) (SigSetHash ctx) (SigSetVotes ctx)
        (AllVotes_map ctx).

Definition set_CurrentCommittee (v : list (list byte)) ctx : Context Vote :=
      mkContext (Version ctx) (Magic ctx) (Round ctx) (Step ctx) (W ctx)
        (Weight ctx) (Score ctx) (Multiplier ctx) (keys ctx)
        (LastHeaderHash ctx) (BlockHash ctx) (Committee ctx) (NodeWeights ctx)
        v (SigSetHash ctx) (SigSetVotes ctx) (AllVotes_map ctx).

Definition set_SigSetHash (v : Go.slice) ctx : Context Vote :=
      mkContext (Version ctx) (Magic ctx) (Round ctx) (Step ctx) (W ctx)
        (Weight ctx) (Score ctx) (Multiplier ctx) (keys ctx)
        (LastHeaderHash ctx) (BlockHash ctx) (Committee ctx) (NodeWeights ctx)
        (CurrentCommittee ctx) v (SigSetVotes ctx) (AllVotes_map ctx).

Definition set_SigSetVotes (v : list Vote) ctx : Context Vote :=
      mkContext (Version ctx) (Magic ctx) (Round ctx) (Step ctx) (W ctx)
        (Weight ctx) (Score ctx) (Multiplier ctx) (keys ctx)
        (LastHeaderHash ctx) (BlockHash ctx) (Committee ctx) (NodeWeights ctx)
        (CurrentCommittee ctx) (SigSetHash ctx) v (AllVotes_map ctx).

  (** The field refers to the map [v]. *)
Definition set_AllVotes (v : gmap string (list Vote)) ctx : Context Vote :=
      mkContext (Version ctx) (Magic ctx) (Round ctx) (Step ctx) (W ctx)
        (Weight ctx) (Score ctx) (Multiplier ctx) (keys ctx)
        (LastHeaderHash ctx) (BlockHash ctx) (Committee ctx) (NodeWeights ctx)
        (CurrentCommittee ctx) (SigSetHash ctx) (SigSetVotes ctx) (Some v).
  End Setters.
End user.

(** ** The signature set phases (setreduction.go, setgeneration.go) *)

Module consensus.

(** [prerror.PrError]: an error with a priority. *)
Inductive Priority : Type := High | Low.

Record PrError : Type := mkPrError {
  priority : Priority;
  prErr : Go.error
}.

(** How a call ends: it returns ([Ok], or [Err] for a non-nil error), it is
    blocked (in a [select] when the inbox is exhausted, or in a send on a
    channel that has no room), or it panics (a type assertion, a write to a
    nil map, a send on a closed channel). *)
Inductive Result (A : Type) : Type :=
| Ok (a : A)
| Err (e : Go.error)
| Blocked
| Panic.
Arguments Ok {A}.
Arguments Err {A}.
Arguments Blocked {A}.
Arguments Panic {A}.

Section SignatureSetPhases.

Context {Vote : Type}.

#[local] Abbreviation Ctx := (user.Context Vote).
#[local] Abbreviation Message := (MsgConsensus.t Vote).

(** What the code calls outside this file: sortition, the context's function
    fields ([HashVotes], [BLSSign], [CreateSignature], [SendMessage]), the
    message constructors and the agreement phase. *)
Record Externals : Type := mkExternals {
  CommitteeSize : Z;
  CreateCommittee :
    Z -> Z -> Z -> Z -> list (list byte) -> gmap string Z ->
    Go.error + list (list byte);
  HashVotes : list Vote -> Go.error + Go.slice;
  BLSSign : list byte -> list byte -> Go.slice -> Go.error + list byte;
  BLSPubKey_Marshal : list byte -> list byte;
  NewSigSetVote :
    list byte -> Go.slice -> list byte -> list byte -> Go.error + SigSetVote.t;
  CreateSignature : Ctx -> MsgConsensus.Msg Vote -> Go.error + list byte;
  NewMsgConsensus :
    Z -> Z -> list byte -> Z -> list byte -> list byte -> MsgConsensus.Msg Vote ->
    Go.error + Message;
  SendMessage : Z -> Message -> option Go.error;
  agreement_SendSet : Ctx -> list Vote -> Ctx * option Go.error;
  NewSigSetCandidate :
    list byte -> list Vote -> list byte -> list byte ->
    Go.error + SigSetCandidate.t Vote;
  ProcessMsg : Ctx -> Message -> Ctx * Z * option PrError;
  Vote_Encode : Vote -> Go.error + list byte;
  Sha3256 : list byte -> Go.error + list byte
}.

Variable ext : Externals.

(** One outcome of a [select]: the timer fired, or a message was received from
    the channel. *)
Inductive SelectEvent : Type :=
| TimerC
| Recv (m : Message).

(** What a function did to the outside, in order. *)
Inductive Effect : Type :=
| Gossip (magic : Z) (msg : Message)
| ChanSend (msg : Message)
| SendSet (votes : list Vote).

(** The context, the outcomes the coming [select]s will see, and the effects
    so far. *)
Record World : Type := mkWorld {
  ctx : Ctx;
  inbox : list SelectEvent;
  trace : list Effect
}.

(** What a send on [ctx.SigSetVoteChan] meets. The channel is made with the
    context, outside this package, and the goroutine that sends on it in
    [sigSetVote] is the one that receives from it in [countSigSetVotes]. The
    send completes when the buffer of the channel has room: the message is
    then received after the [ahead] events that come before it. On a nil
    channel, and on one whose buffer is full or that has no buffer, the send
    blocks, for good since no other goroutine receives. On a closed channel
    it panics. *)
Inductive ChanState : Type :=
| Room (ahead : nat)
| NoRoom
| Closed.

(** The state of [ctx.SigSetVoteChan] when the node sends on it. *)
Variable SigSetVoteChan : World -> ChanState.

Definition M (A : Type) : Type := World -> Result A * World.

Definition ret {A} (a : A) : M A := fun w => (Ok a, w).

Definition bind {A B} (c : M A) (k : A -> M B) : M B :=
  fun w =>
    match c w with
    | (Ok a, w') => k a w'
    | (Err e, w') => (Err e, w')
    | (Blocked, w') => (Blocked, w')
    | (Panic, w') => (Panic, w')
    end.

#[local] Instance M_ret : MRet M := @ret.
#[local] Instance M_bind : MBind M := fun A B k c => bind c k.

Definition getCtx : M Ctx := fun w => (Ok (ctx w), w).

Definition modifyCtx (f : Ctx -> Ctx) : M unit :=
  fun w => (Ok tt, mkWorld (f (ctx w)) (inbox w) (trace w)).

Definition emit (e : Effect) : M unit :=
  fun w => (Ok tt, mkWorld (ctx w) (inbox w) (trace w ++ [e])).

(** [v, err := f(...); if err != nil { return err }] *)
Definition try {A} (r : Go.error + A) : M A :=
  fun w => match r with inl e => (Err e, w) | inr a => (Ok a, w) end.

(** [if err := f(...); err != nil { return err }] *)
Definition check (r : option Go.error) : M unit :=
  fun w => match r with Some e => (Err e, w) | None => (Ok tt, w) end.

Definition panic {A} : M A := fun w => (Panic, w).

(** [ctx.AllVotes[k] = v]: a write to a nil map panics. *)
Definition writeAllVotes (k : string) (v : list Vote) : M unit :=
  c ← getCtx;
  match user.AllVotes_map c with
  | None => panic
  | Some allVotes => modifyCtx (user.set_AllVotes (<[k := v]> allVotes))
  end.

(** [ctx.SigSetVoteChan <- msg] *)
Definition sendSigSetVoteChan (msg : Message) : M unit :=
  fun w =>
    match SigSetVoteChan w with
    | Room ahead =>
        (Ok tt,
         mkWorld (ctx w)
           (take ahead (inbox w) ++ Recv msg :: drop ahead (inbox w))
           (trace w ++ [ChanSend msg]))
    | NoRoom => (Blocked, w)
    | Closed => (Panic, w)
    end.

(** *** sigSetVote *)

Definition sigSetVote : M unit :=
  c ← getCtx;
  let size :=
    if Z.of_nat (length (user.Committee c)) <? CommitteeSize ext
    then Go.uint8 (Z.of_nat (length (user.Committee c)))
    else CommitteeSize ext in
  currentCommittee ←
    try (CreateCommittee ext (user.Round c) (user.W c) (user.Step c) size
           (user.Committee c) (user.NodeWeights c));
  modifyCtx (user.set_CurrentCommittee currentCommittee) ;;
  c ← getCtx;
  if sortition.Verify (user.CurrentCommittee c) (user.EdPubKey (user.keys c)) =? 0
  then ret tt
  else
    sigSetHash ← try (HashVotes ext (user.SigSetVotes c));
    modifyCtx (user.set_SigSetHash sigSetHash) ;;
    let setStr := Go.EncodeToString (Go.bytes_of sigSetHash) in
    writeAllVotes setStr (user.SigSetVotes c) ;;
    c ← getCtx;
    sigBLS ←
      try (BLSSign ext (user.BLSSecretKey (user.keys c))
             (user.BLSPubKey (user.keys c)) (user.SigSetHash c));
    pl ←
      try (NewSigSetVote ext (user.BlockHash c) (user.SigSetHash c) sigBLS
             (BLSPubKey_Marshal ext (user.BLSPubKey (user.keys c))));
    sigEd ← try (CreateSignature ext c (MsgConsensus.PlSigSetVote pl));
    msg ←
      try (NewMsgConsensus ext (user.Version c) (user.Round c)
             (user.LastHeaderHash c) (user.Step c) sigEd
             (user.EdPubKey (user.keys c)) (MsgConsensus.PlSigSetVote pl));
    emit (Gossip (user.Magic c) msg) ;;
    check (SendMessage ext (user.Magic c) msg) ;;
    sendSigSetVoteChan msg.

(** *** countSigSetVotes *)

(** The two local maps of the loop. *)
Record Tally : Type := mkTally {
  counts : gmap string Z;
  voters : gmap string bool
}.

(** Why the loop returned: the ghost value [exit] records which [return] of
    the loop was taken. *)
Inductive Exit : Type :=
| ExitTimer
| ExitQuorum (pl : SigSetVote.t).

(** One pass through the [case m := <-ctx.SigSetVoteChan] branch. *)
Inductive Step : Type :=
| Continue (t : Tally)
| Return (c : Ctx) (pl : SigSetVote.t)
| Panicked.

Definition voteCase (voteLimit : Z) (c : Ctx) (t : Tally) (m : Message) : Step :=
  match MsgConsensus.Payload m with
  | MsgConsensus.PlSigSetVote pl =>
      let pkEd := Go.EncodeToString (MsgConsensus.PubKey m) in
      if Go.map_get false (voters t) pkEd then Continue t
      else
        let votes := sortition.Verify (user.CurrentCommittee c) (MsgConsensus.PubKey m) in
        let voters' := <[pkEd := true]> (voters t) in
        let setStr := Go.EncodeToString (Go.bytes_of (SigSetVote.SigSetHash pl)) in
        let counts' :=
          <[setStr := Go.uint8 (Go.map_get 0 (counts t) setStr + votes)]> (counts t) in
        if Go.map_get 0 counts' setStr <? voteLimit
        then Continue (mkTally counts' voters')
        else
          Return
            (user.set_SigSetVotes (Go.map_get [] (user.AllVotes c) setStr)
               (user.set_SigSetHash (SigSetVote.SigSetHash pl) c))
            pl
  | _ => Panicked
  end.

(** The outcome of the [for { select { ... } }] loop on the coming events. *)
Inductive LoopResult : Type :=
| Returned (c : Ctx) (exit : Exit) (rest : list SelectEvent)
| Waiting (t : Tally)
| LoopPanic (rest : list SelectEvent).

Fixpoint countLoop (voteLimit : Z) (c : Ctx) (t : Tally)
    (evs : list SelectEvent) : LoopResult :=
  match evs with
  | [] => Waiting t
  | TimerC :: rest => Returned (user.set_SigSetHash None c) ExitTimer rest
  | Recv m :: rest =>
      match voteCase voteLimit c t m with
      | Continue t' => countLoop voteLimit c t' rest
      | Return c' pl => Returned c' (ExitQuorum pl) rest
      | Panicked => LoopPanic rest
      end
  end.

Definition voteLimit (c : Ctx) : Z :=
  Go.uint8 (Z.of_nat (length (user.CurrentCommittee c))).

Definition emptyTally : Tally := mkTally ∅ ∅.

(** [countSigSetVotes] together with the reason of its return. *)
Definition countSigSetVotes' : M Exit :=
  fun w =>
    match countLoop (voteLimit (ctx w)) (ctx w) emptyTally (inbox w) with
    | Returned c' exit rest => (Ok exit, mkWorld c' rest (trace w))
    | Waiting _ => (Blocked, mkWorld (ctx w) [] (trace w))
    | LoopPanic rest => (Panic, mkWorld (ctx w) rest (trace w))
    end.

Definition countSigSetVotes : M unit :=
  countSigSetVotes' ;; ret tt.

(** *** SignatureSet *)

Definition fallback : list byte := Go.make_bytes 32.

(** Lines 20-38: the first vote, the first count, and the fallback value. *)
Definition SignatureSet_step1 : M unit :=
  sigSetVote ;;
  countSigSetVotes ;;
  modifyCtx (fun c => user.set_Step (Go.uint8 (user.Step c + 1)) c) ;;
  c ← getCtx;
  match user.SigSetHash c with
  | None => modifyCtx (user.set_SigSetHash (Some fallback))
  | Some _ => ret tt
  end.

(** [agreement.SendSet(ctx, votes)]: the callee receives the context by
    pointer and may update it. The call is recorded in the trace with the
    votes it is given. *)
Definition callSendSet (votes : list Vote) : M unit :=
  fun w =>
    let (c', err) := agreement_SendSet ext (ctx w) votes in
    check err (mkWorld c' (inbox w) (trace w ++ [SendSet votes])).

(** Lines 52-70: what follows the second count. *)
Definition SignatureSet_conclude : M unit :=
  modifyCtx (fun c => user.set_Step (Go.uint8 (user.Step c + 1)) c) ;;
  c ← getCtx;
  match user.SigSetHash c with
  | None => ret tt
  | Some h =>
      if Go.bytes_Equal h fallback
      then modifyCtx (user.set_SigSetHash None)
      else callSendSet (user.SigSetVotes c)
  end.

(** Lines 40-70: the second vote, the second count, and the conclusion. *)
Definition SignatureSet_step2 : M unit :=
  sigSetVote ;;
  countSigSetVotes ;;
  SignatureSet_conclude.

Definition SignatureSet : M unit :=
  SignatureSet_step1 ;;
  SignatureSet_step2.

(** *** SignatureSetGeneration (setgeneration.go) *)

(** [hashSigSetVotes]: every vote is encoded into one buffer, which is then
    hashed. *)
Fixpoint encodeVotes (buf : list byte) (votes : list Vote) : Go.error + list byte :=
  match votes with
  | [] => inr buf
  | vote :: rest =>
      match Vote_Encode ext vote with
      | inl e => inl e
      | inr bs => encodeVotes (buf ++ bs) rest
      end
  end.

Definition hashSigSetVotes (votes : list Vote) : Go.error + list byte :=
  match encodeVotes [] votes with
  | inl e => inl e
  | inr buf => Sha3256 ext buf
  end.

(** One pass through the [case m := <-ctx.SigSetCandidateChan] branch; the
    loop's state is the context, the [voters] map and [highest]. *)
Inductive GenStep : Type :=
| GenContinue (c : Ctx) (voters : gmap string bool) (highest : Z)
| GenReturn (c : Ctx) (err : option Go.error)
| GenPanicked.

Definition candidateCase (c : Ctx) (voters : gmap string bool) (highest : Z)
    (m : Message) : GenStep :=
  match MsgConsensus.Payload m with
  | MsgConsensus.PlSigSetCandidate pl =>
      let pkEd := Go.EncodeToString (MsgConsensus.PubKey m) in
      if Go.map_get false voters pkEd then GenContinue c voters highest
      else
        let '(c1, stake, perr) := ProcessMsg ext c m in
        match perr with
        | Some pe =>
            match priority pe with
            | High => GenReturn c1 (Some (prErr pe))
            | Low => GenContinue c1 voters highest
            end
        | None =>
            let voters' := <[pkEd := true]> voters in
            match hashSigSetVotes (SigSetCandidate.SignatureSet pl) with
            | inl e => GenReturn c1 (Some e)
            | inr setHash =>
                match user.AllVotes_map c1 with
                | None => GenPanicked
                | Some allVotes =>
                    let c2 :=
                      user.set_AllVotes
                        (<[Go.EncodeToString setHash := SigSetCandidate.SignatureSet pl]>
                           allVotes) c1 in
                    if highest <? stake
                    then GenContinue
                           (user.set_SigSetVotes (SigSetCandidate.SignatureSet pl) c2)
                           voters' stake
                    else GenContinue c2 voters' highest
                end
            end
        end
  | _ => GenPanicked
  end.

Inductive GenResult : Type :=
| GenReturned (c : Ctx) (err : option Go.error) (rest : list SelectEvent)
| GenWaiting (c : Ctx) (voters : gmap string bool) (highest : Z)
| GenPanic (rest : list SelectEvent).

Fixpoint generationLoop (c : Ctx) (voters : gmap string bool) (highest : Z)
    (evs : list SelectEvent) : GenResult :=
  match evs with
  | [] => GenWaiting c voters highest
  | TimerC :: rest => GenReturned c None rest
  | Recv m :: rest =>
      match candidateCase c voters highest m with
      | GenContinue c' voters' highest' => generationLoop c' voters' highest' rest
      | GenReturn c' err => GenReturned c' err rest
      | GenPanicked => GenPanic rest
      end
  end.

Definition runGenerationLoop (voters : gmap string bool) (highest : Z) : M unit :=
  fun w =>
    match generationLoop (ctx w) voters highest (inbox w) with
    | GenReturned c' err rest => check err (mkWorld c' rest (trace w))
    | GenWaiting c' _ _ => (Blocked, mkWorld c' [] (trace w))
    | GenPanic rest => (Panic, mkWorld (ctx w) rest (trace w))
    end.

Definition SignatureSetGeneration : M unit :=
  c ← getCtx;
  pl ←
    try (NewSigSetCandidate ext (user.BlockHash c) (user.SigSetVotes c)
           (BLSPubKey_Marshal ext (user.BLSPubKey (user.keys c))) (user.Score c));
  sigEd ← try (CreateSignature ext c (MsgConsensus.PlSigSetCandidate pl));
  msg ←
    try (NewMsgConsensus ext (user.Version c) (user.Round c)
           (user.LastHeaderHash c) (user.Step c) sigEd
           (user.EdPubKey (user.keys c)) (MsgConsensus.PlSigSetCandidate pl));
  emit (Gossip (user.Magic c) msg) ;;
  check (SendMessage ext (user.Magic c) msg) ;;
  let pk := Go.EncodeToString (user.EdPubKey (user.keys c)) in
  let voters : gmap string bool := <[pk := true]> ∅ in
  modifyCtx (user.set_AllVotes ∅) ;;
  sigSetHash ← try (hashSigSetVotes (user.SigSetVotes c));
  writeAllVotes (Go.EncodeToString sigSetHash) (user.SigSetVotes c) ;;
  let highest := user.Weight c in
  runGenerationLoop voters highest.

End SignatureSetPhases.
End consensus.

(** ** Marshalling of consensus events (events/marshalling.go) *)

Module events.

(** [binary.ByteOrder]. *)
Inductive ByteOrder : Type := LittleEndian | BigEndian.

(** A [bytes.Buffer]: writes append at the end, reads consume the front. *)
Definition Buffer : Type := list byte.

(** The functions of the [encoding] package the marshallers call. A write
    returns the bytes it appends to the buffer (or an error), a read returns
    the value and the rest of the buffer (or an error). *)
Record Encoding : Type := mkEncoding {
  WriteVarBytes : list byte -> Go.error + list byte;
  ReadVarBytes : Buffer -> Go.error + (list byte * Buffer);
  WriteUint64 : ByteOrder -> Z -> Go.error + list byte;
  ReadUint64 : ByteOrder -> Buffer -> Go.error + (Z * Buffer);
  WriteUint8 : Z -> Go.error + list byte;
  ReadUint8 : Buffer -> Go.error + (Z * Buffer);
  Write256 : list byte -> Go.error + list byte;
  Read256 : Buffer -> Go.error + (list byte * Buffer);
  WriteBLS : list byte -> Go.error + list byte;
  ReadBLS : Buffer -> Go.error + (list byte * Buffer);
  WriteVarInt : Z -> Go.error + list byte;
  ReadVarInt : Buffer -> Go.error + (Z * Buffer)
}.

(** The consensus header. *)
Record Header : Type := mkHeader {
  PubKeyBLS : list byte;
  Round : Z;
  Step : Z
}.

Record Reduction : Type := mkReduction {
  rHeader : Header;
  VotedHash : list byte;
  SignedHash : list byte
}.

(** An agreement over events of type [E]; its vote set holds [wire.Event]s. *)
Record AgreementOf (E : Type) : Type := mkAgreement {
  aHeader : Header;
  SignedVoteSet : list byte;
  VoteSet : list E;
  AgreedHash : list byte
}.
Arguments mkAgreement {E}.
Arguments aHeader {E}.
Arguments SignedVoteSet {E}.
Arguments VoteSet {E}.
Arguments AgreedHash {E}.

(** [wire.Event]: the interface value, with the dynamic types of this file. *)
#[warnings="-register-all"]
Inductive Event : Type :=
| EvHeader (h : Header)
| EvReduction (r : Reduction)
| EvAgreement (a : AgreementOf Event).

Definition Agreement : Type := AgreementOf Event.

(** A marshaller returns a value, a non-nil error, or panics on a failed type
    assertion. *)
Inductive Result (A : Type) : Type :=
| Ok (a : A)
| Err (e : Go.error)
| Panic.
Arguments Ok {A}.
Arguments Err {A}.
Arguments Panic {A}.

Definition bind {A B} (r : Result A) (k : A -> Result B) : Result B :=
  match r with
  | Ok a => k a
  | Err e => Err e
  | Panic => Panic
  end.

#[local] Instance Result_bind : MBind Result := fun A B k r => bind r k.

Section Marshalling.

Variable enc : Encoding.

(** [if err := encoding.WriteX(r, v); err != nil { return err }] *)
Definition write (r : Buffer) (w : Go.error + list byte) : Result Buffer :=
  match w with
  | inl e => Err e
  | inr bs => Ok (r ++ bs)
  end.

(** [if err := encoding.ReadX(r, &v); err != nil { return err }] *)
Definition read {A} (rd : Go.error + (A * Buffer)) : Result (A * Buffer) :=
  match rd with
  | inl e => Err e
  | inr vr => Ok vr
  end.

(** [HeaderMarshaller.Marshal] *)
Definition Header_Marshal (r : Buffer) (ev : Event) : Result Buffer :=
  match ev with
  | EvHeader consensusEv =>
      r ← write r (WriteVarBytes enc (PubKeyBLS consensusEv));
      r ← write r (WriteUint64 enc LittleEndian (Round consensusEv));
      r ← write r (WriteUint8 enc (Step consensusEv));
      Ok r
  | _ => Panic
  end.

(** [HeaderUnmarshaller.Unmarshal]: fills the header [ev] points to. *)
Definition Header_Unmarshal (r : Buffer) (ev : Event) : Result (Buffer * Event) :=
  match ev with
  | EvHeader consensusEv =>
      '(pk, r) ← read (ReadVarBytes enc r);
      '(round, r) ← read (ReadUint64 enc LittleEndian r);
      '(step, r) ← read (ReadUint8 enc r);
      Ok (r, EvHeader (mkHeader pk round step))
  | _ => Panic
  end.

(** The header field of a reduction or agreement is a [*Header]: narrowing the
    result of the header unmarshaller back to it cannot fail. *)
Definition unmarshalHeader (r : Buffer) (h : Header) : Result (Buffer * Header) :=
  '(r, ev) ← Header_Unmarshal r (EvHeader h);
  match ev with
  | EvHeader h' => Ok (r, h')
  | _ => Panic
  end.

(** [ReductionUnMarshaller.Unmarshal] *)
Definition Reduction_Unmarshal (r : Buffer) (ev : Event) : Result (Buffer * Event) :=
  match ev with
  | EvReduction bev =>
      '(r, h) ← unmarshalHeader r (rHeader bev);
      '(voted, r) ← read (Read256 enc r);
      '(signed, r) ← read (ReadBLS enc r);
      Ok (r, EvReduction (mkReduction h voted signed))
  | _ => Panic
  end.

(** [ReductionUnMarshaller.Marshal] *)
Definition Reduction_Marshal (r : Buffer) (ev : Event) : Result Buffer :=
  match ev with
  | EvReduction bev =>
      r ← Header_Marshal r (EvHeader (rHeader bev));
      r ← write r (Write256 enc (VotedHash bev));
      r ← write r (WriteBLS enc (SignedHash bev));
      Ok r
  | _ => Panic
  end.

(** The blank event [&Reduction{Header: &Header{}}]. *)
Definition blankReduction : Event :=
  EvReduction (mkReduction (mkHeader [] 0 0) [] []).

(** The loop of [UnmarshalVoteSet], [n] iterations remaining. *)
Fixpoint unmarshalVotes (n : nat) (r : Buffer) : Result (Buffer * list Event) :=
  match n with
  | O => Ok (r, [])
  | S n' =>
      '(r, rev) ← Reduction_Unmarshal r blankReduction;
      '(r, evs) ← unmarshalVotes n' r;
      Ok (r, rev :: evs)
  end.

(** [ReductionUnMarshaller.UnmarshalVoteSet] *)
Definition UnmarshalVoteSet (r : Buffer) : Result (Buffer * list Event) :=
  '(length, r) ← read (ReadVarInt enc r);
  unmarshalVotes (Z.to_nat length) r.

(** The loop of [MarshalVoteSet]. *)
Fixpoint marshalVotes (r : Buffer) (evs : list Event) : Result Buffer :=
  match evs with
  | [] => Ok r
  | event :: rest =>
      r ← Reduction_Marshal r event;
      marshalVotes r rest
  end.

(** [ReductionUnMarshaller.MarshalVoteSet] *)
Definition MarshalVoteSet (r : Buffer) (evs : list Event) : Result Buffer :=
  r ← write r (WriteVarInt enc (Go.uint64 (Z.of_nat (length evs))));
  marshalVotes r evs.

(** [AgreementUnMarshaller.Unmarshal] *)
Definition Agreement_Unmarshal (r : Buffer) (ev : Event) : Result (Buffer * Event) :=
  match ev with
  | EvAgreement cev =>
      '(r, h) ← unmarshalHeader r (aHeader cev);
      '(signedVoteSet, r) ← read (ReadBLS enc r);
      '(r, voteSet) ← UnmarshalVoteSet r;
      '(agreedHash, r) ← read (Read256 enc r);
      Ok (r, EvAgreement (mkAgreement h signedVoteSet voteSet agreedHash))
  | _ => Panic
  end.

(** [AgreementUnMarshaller.Marshal]: an event that is not an agreement is
    skipped, nothing is written and nil is returned. *)
Definition Agreement_Marshal (r : Buffer) (ev : Event) : Result Buffer :=
  match ev with
  | EvAgreement cev =>
      r ← Header_Marshal r (EvHeader (aHeader cev));
      r ← write r (WriteBLS enc (SignedVoteSet cev));
      r ← MarshalVoteSet r (VoteSet cev);
      r ← write r (Write256 enc (AgreedHash cev));
      Ok r
  | _ => Ok r
  end.

End Marshalling.
End events.

(** ** Blocks, provisioners and round updates *)

(** Modelled from the spec: package [block] is not among the sources. The
    fields are those of the spec's data model, under the names the chain and
    the genesis generator use. *)
Module block.
Record Certificate : Type := mkCertificate {
  AggregateSig : list byte;
  Bitmap : Z;
  Step : Z
}.

Record Header : Type := mkHeader {
  Version : Z;
  Height : Z;
  Timestamp : Z;
  PrevBlockHash : list byte;
  Seed : list byte;
  TxRoot : list byte;
  Cert : Certificate;
  StateHash : list byte;
  Hash : list byte
}.

Record Block (ContractCall : Type) : Type := mkBlock {
  header : Header;
  Txs : list ContractCall
}.
Arguments mkBlock {ContractCall}.
Arguments header {ContractCall}.
Arguments Txs {ContractCall}.
End block.

(** Modelled from the spec: [user.Provisioners] is not among the sources. A
    provisioner is a BLS public key with its stake windows; the set is ordered
    by key, the members are looked up by key. [Copy] gives each consumer a
    snapshot of its own, with the contents of the original. *)
Module Provisioners.
Record Stake : Type := mkStake {
  Amount : Z;
  StartHeight : Z;
  EndHeight : Z
}.

Record Member : Type := mkMember {
  PublicKeyBLS : list byte;
  Stakes : list Stake
}.

Record t : Type := mk {
  Set_ : list (list byte);
  Members : gmap string Member
}.

Definition copyStake (s : Stake) : Stake :=
  mkStake (Amount s) (StartHeight s) (EndHeight s).

Definition copyMember (m : Member) : Member :=
  mkMember (PublicKeyBLS m) (copyStake <$> Stakes m).

Definition Copy (p : t) : t :=
  mk (Set_ p) (copyMember <$> Members p).
End Provisioners.

(** [consensus.RoundUpdate] *)
Module RoundUpdate.
Record t : Type := mk {
  Round : Z;
  P : Provisioners.t;
  Seed : list byte;
  Hash : list byte;
  LastCertificate : block.Certificate
}.
End RoundUpdate.

(** ** The chain manager (chain.go) *)

Module chain.

Definition errInvalidStateHash : Go.error := "invalid state hash".

Definition ErrBlockAlreadyAccepted : Go.error := "discarded block from the past".

(** The two states of the synchronizer embedded in the chain. *)
Inductive SyncState : Type := inSync | outSync.

(** A method ends by returning (a value, or a non-nil error) or by a panic. *)
Inductive Result (A : Type) : Type :=
| Ok (a : A)
| Err (e : Go.error)
| Panic.
Arguments Ok {A}.
Arguments Err {A}.
Arguments Panic {A}.

Section Chain.

Context {ContractCall : Type}.

#[local] Abbreviation Block := (block.Block ContractCall).

(** The topics the chain publishes on. *)
Inductive Topic : Type := AcceptedBlock | Gossip | Kadcast.

(** What the chain does to its collaborators, in order: calls to the
    executor, the loader, the database, the event bus and the consensus
    loop. *)
Inductive Effect : Type :=
| CallGetStateRoot
| CallFinalize (txs : list ContractCall) (stateHash : list byte) (height gasLimit : Z)
| CallAccept (txs : list ContractCall) (stateHash : list byte) (height gasLimit : Z)
| CallRevert (stateHash : list byte)
| CallAppend (blk : Block)
| CallDeleteTip (blk : Block)
| PublishBlock (topic : Topic) (blk : Block)
| PublishBuffer (topic : Topic) (buf : list byte) (hdr : list byte)
| CallClearCandidateMessages
| GoStoreStakesInStormDB (height : Z)
| CallRestartConsensus
| CallStopConsensus
| CallRequestBlocks (peer : string) (fromHeight toHeight : Z).

(** The collaborators. Each answer may depend on what was done before, so
    every call receives the effects so far. *)
Record Environment : Type := mkEnvironment {
  BlockGasLimit : Z;
  API_Enabled : bool;
  Kadcast_Enabled : bool;
  SanityCheckBlock : Block -> Block -> option Go.error;
  CheckBlockCertificate : Provisioners.t -> Block -> list byte -> option Go.error;
  Executor_GetStateRoot : list Effect -> Go.error + list byte;
  Executor_Finalize :
    list Effect -> list ContractCall -> list byte -> Z -> Z ->
    Go.error + (Provisioners.t * list byte);
  Executor_Accept :
    list Effect -> list ContractCall -> list byte -> Z -> Z ->
    Go.error + (Provisioners.t * list byte);
  Loader_Append : list Effect -> Block -> option Go.error;
  Loader_BlockAt : list Effect -> Z -> Go.error + Block;
  Executor_Revert : list Effect -> list byte -> option Go.error;
  DB_ClearCandidateMessages : list Effect -> option Go.error;
  Loop_RestartConsensus : list Effect -> option Go.error;
  Inv_Encode : list byte -> Go.error + list byte;
  Topics_Prepend : list byte -> Go.error + list byte;
  MarshalBlock : Block -> Go.error + list byte
}.

(** [Chain]: the fields that the functions below read and write, and the
    effects so far. [state] is the field of the embedded synchronizer that
    [ProcessSyncTimerExpired] assigns; [syncTarget] and [sequencer] stand for
    the rest of the synchronizer (the height it is catching up to and the
    successors it has accumulated), whose declaration is in another file. *)
Record Chain : Type := mkChain {
  tip : Block;
  p : Provisioners.t;
  highestSeen : Z;
  state : SyncState;
  syncTarget : Z;
  sequencer : list Block;
  trace : list Effect
}.

Definition set_tip (b : Block) (c : Chain) : Chain :=
  mkChain b (p c) (highestSeen c) (state c) (syncTarget c) (sequencer c) (trace c).

Definition set_p (v : Provisioners.t) (c : Chain) : Chain :=
  mkChain (tip c) v (highestSeen c) (state c) (syncTarget c) (sequencer c) (trace c).

Definition set_highestSeen (v : Z) (c : Chain) : Chain :=
  mkChain (tip c) (p c) v (state c) (syncTarget c) (sequencer c) (trace c).

Definition set_state (v : SyncState) (c : Chain) : Chain :=
  mkChain (tip c) (p c) (highestSeen c) v (syncTarget c) (sequencer c) (trace c).

Definition set_syncTarget (v : Z) (c : Chain) : Chain :=
  mkChain (tip c) (p c) (highestSeen c) (state c) v (sequencer c) (trace c).

Definition set_sequencer (v : list Block) (c : Chain) : Chain :=
  mkChain (tip c) (p c) (highestSeen c) (state c) (syncTarget c) v (trace c).

Definition add_effect (e : Effect) (c : Chain) : Chain :=
  mkChain (tip c) (p c) (highestSeen c) (state c) (syncTarget c) (sequencer c)
    (trace c ++ [e]).

Definition M (A : Type) : Type := Chain -> Result A * Chain.

Definition ret {A} (a : A) : M A := fun c => (Ok a, c).

Definition bind {A B} (m : M A) (k : A -> M B) : M B :=
  fun c =>
    match m c with
    | (Ok a, c') => k a c'
    | (Err e, c') => (Err e, c')
    | (Panic, c') => (Panic, c')
    end.

#[local] Instance M_ret : MRet M := @ret.
#[local] Instance M_bind : MBind M := fun A B k m => bind m k.

Definition get : M Chain := fun c => (Ok c, c).

Definition modify (f : Chain -> Chain) : M unit := fun c => (Ok tt, f c).

Definition emit (e : Effect) : M unit :=
  fun c => (Ok tt, add_effect e c).

Definition fail {A} (e : Go.error) : M A := fun c => (Err e, c).

Definition panic {A} : M A := fun c => (Panic, c).

(** [v, err := f(...); if err != nil { return err }] *)
Definition try {A} (r : Go.error + A) : M A :=
  match r with
  | inl e => fail e
  | inr a => ret a
  end.

(** [if err := f(...); err != nil { return err }] *)
Definition check (r : option Go.error) : M unit :=
  match r with
  | Some e => fail e
  | None => ret tt
  end.

(** [if err := f(...); err != nil { log }]: the error is logged and dropped. *)
Definition logged (m : M unit) : M unit :=
  fun c =>
    match m c with
    | (Err _, c') => (Ok tt, c')
    | r => r
    end.

Variable env : Environment.

(** *** sanityCheckStateHash *)
Definition sanityCheckStateHash : M unit :=
  c ← get;
  emit CallGetStateRoot ;;
  ruskStateHash ← try (Executor_GetStateRoot env (trace c));
  c ← get;
  let nodeStateHash := block.StateHash (block.header (tip c)) in
  if negb (Go.bytes_Equal nodeStateHash ruskStateHash)
     || (length nodeStateHash =? 0)%nat
  then fail errInvalidStateHash
  else ret tt.

(** *** runStateTransition *)
Definition runStateTransition (tipBlk blk : Block) : M unit :=
  sanityCheckStateHash ;;
  '(provisionersUpdated, respStateHash) ←
    (match block.Step (block.Cert (block.header blk)) with
     | 3 =>
         c ← get;
         emit (CallFinalize (block.Txs blk) (block.StateHash (block.header tipBlk))
                 (block.Height (block.header blk)) (BlockGasLimit env)) ;;
         try (Executor_Finalize env (trace c) (block.Txs blk)
                (block.StateHash (block.header tipBlk))
                (block.Height (block.header blk)) (BlockGasLimit env))
     | _ =>
         c ← get;
         emit (CallAccept (block.Txs blk) (block.StateHash (block.header tipBlk))
                 (block.Height (block.header blk)) (BlockGasLimit env)) ;;
         try (Executor_Accept env (trace c) (block.Txs blk)
                (block.StateHash (block.header tipBlk))
                (block.Height (block.header blk)) (BlockGasLimit env))
     end);
  if negb (Go.bytes_Equal respStateHash (block.StateHash (block.header blk)))
  then fail errInvalidStateHash
  else modify (set_p provisionersUpdated).

(** *** isValidBlock *)
Definition isValidBlock (blk : Block) : M unit :=
  c ← get;
  check (SanityCheckBlock env (tip c) blk) ;;
  c ← get;
  check (CheckBlockCertificate env (p c) blk (block.Seed (block.header (tip c)))).

(** *** postAcceptBlock *)
Definition postAcceptBlock (blk : Block) : M unit :=
  emit (PublishBlock AcceptedBlock blk) ;;
  c ← get;
  emit CallClearCandidateMessages ;;
  logged (check (DB_ClearCandidateMessages env (trace c))) ;;
  if API_Enabled env
  then emit (GoStoreStakesInStormDB (block.Height (block.header blk)))
  else ret tt.

(** *** acceptBlock *)
Definition acceptBlock (blk : Block) : M unit :=
  isValidBlock blk ;;
  c ← get;
  runStateTransition (tip c) blk ;;
  c ← get;
  emit (CallAppend blk) ;;
  check (Loader_Append env (trace c) blk) ;;
  modify (set_tip blk) ;;
  postAcceptBlock blk.

(** *** kadcastBlock *)
Definition kadcastBlock (blk : Block) (kadcastHeight : Z) : M unit :=
  buf ← try (MarshalBlock env blk);
  buf ← try (Topics_Prepend env buf);
  emit (PublishBuffer Kadcast buf [default x00 (Byte.of_N (Z.to_N kadcastHeight))]).

(** *** propagateBlock *)
Definition propagateBlock (b : Block) (kadcastHeight : Z) : M unit :=
  if Kadcast_Enabled env then kadcastBlock b kadcastHeight
  else
    match Inv_Encode env (block.Hash (block.header b)) with
    | inl _ => panic
    | inr buf =>
        match Topics_Prepend env buf with
        | inl _ => panic
        | inr buf => emit (PublishBuffer Gossip buf [])
        end
    end.

(** *** acceptSuccessiveBlock *)
Definition acceptSuccessiveBlock (blk : Block) (kadcastHeight : Z) : M unit :=
  acceptBlock blk ;;
  c ← get;
  (if highestSeen c <? block.Height (block.header blk)
   then modify (set_highestSeen (block.Height (block.header blk)))
   else ret tt) ;;
  propagateBlock blk kadcastHeight.

(** [c.RestartConsensus()]: the consensus loop is outside this file. *)
Definition RestartConsensus : M unit :=
  c ← get;
  emit CallRestartConsensus ;;
  check (Loop_RestartConsensus env (trace c)).

(** *** TryNextConsecutiveBlockOutSync *)
Definition TryNextConsecutiveBlockOutSync (blk : Block) (kadcastHeight : Z) : M unit :=
  acceptBlock blk.

(** *** TryNextConsecutiveBlockInSync *)
Definition TryNextConsecutiveBlockInSync (blk : Block) (kadcastHeight : Z) : M unit :=
  acceptSuccessiveBlock blk kadcastHeight ;;
  logged RestartConsensus.

(** *** TryNextConsecutiveBlockIsValid *)
Definition TryNextConsecutiveBlockIsValid (blk : Block) : M unit :=
  isValidBlock blk.

(** *** ProcessSyncTimerExpired *)
Definition ProcessSyncTimerExpired (strPeerAddr : string) : M unit :=
  logged RestartConsensus ;;
  modify (set_state inSync).

(** *** getRoundUpdate *)
Definition getRoundUpdate (c : Chain) : RoundUpdate.t :=
  RoundUpdate.mk
    (Go.uint64 (block.Height (block.header (tip c)) + 1))
    (Provisioners.Copy (p c))
    (block.Seed (block.header (tip c)))
    (block.Hash (block.header (tip c)))
    (block.Cert (block.header (tip c))).

(** *** ProcessBlockFromNetwork *)

(** [message.Message]: the payload is an interface value. *)
Inductive Payload : Type :=
| PayloadBlock (blk : Block)
| PayloadOther.

Record Message : Type := mkMessage {
  payload : Payload;
  msgHeader : list byte
}.

(** The two methods the function hands over to, which live in other files of
    the package. *)
Variable tryFallback : Block -> M unit.
Variable synchronizer_processBlock :
  string -> Z -> Block -> Z -> M (list (list byte)).

Definition ProcessBlockFromNetwork (srcPeerID : string) (m : Message)
  : M (list (list byte)) :=
  match payload m with
  | PayloadBlock blk =>
      c ← get;
      let kh :=
        match msgHeader m with
        | [] => 255
        | b :: _ => Z.of_N (Byte.to_N b)
        end in
      if block.Height (block.header blk) =? block.Height (block.header (tip c))
      then
        if Go.bytes_Equal (block.Hash (block.header blk))
             (block.Hash (block.header (tip c)))
        then ret []
        else logged (tryFallback blk) ;; ret []
      else if block.Height (block.header blk) <? block.Height (block.header (tip c))
      then ret []
      else
        (if highestSeen c <? block.Height (block.header blk)
         then modify (set_highestSeen (block.Height (block.header blk)))
         else ret tt) ;;
        c ← get;
        synchronizer_processBlock srcPeerID (block.Height (block.header (tip c))) blk kh
  | PayloadOther => panic
  end.

End Chain.

(** *** The fallback procedure and the synchronizer *)

Section Synchronizer.

Context {ContractCall : Type}.

#[local] Abbreviation Block := (block.Block ContractCall).
#[local] Abbreviation M := (@M ContractCall).

#[local] Existing Instance M_ret.
#[local] Existing Instance M_bind.

Variable env : @Environment ContractCall.

(** Modelled from the spec: the steps of [Chain.tryFallback], which is not
    among the sources. The previous block comes from the loader and the
    certificate of the incoming block is checked against its seed; then "the
    chain rolls back the tip, invokes executor.Revert(prevStateHash), and
    re-runs acceptance with the new block", which [acceptBlock] checks against
    the block the chain holds as its tip. *)
Definition rollbackAndAccept (blk : Block) : M unit :=
  c ← get;
  prevBlk ←
    try (Loader_BlockAt env (trace c) (block.Height (block.header (tip c)) - 1));
  check (CheckBlockCertificate env (p c) blk (block.Seed (block.header prevBlk))) ;;
  emit (CallDeleteTip (tip c)) ;;
  modify (set_tip prevBlk) ;;
  c ← get;
  emit (CallRevert (block.StateHash (block.header prevBlk))) ;;
  check (Executor_Revert env (trace c) (block.StateHash (block.header prevBlk))) ;;
  acceptBlock env blk.

(** Modelled from the spec: [Chain.tryFallback] is not among the sources. The
    caller has established that the block is at the tip's height with a
    different hash; the spec continues: "and a valid certificate, the chain
    rolls back the tip, invokes executor.Revert(prevStateHash), and re-runs
    acceptance with the new block. Fallback is permitted only for the current
    tip, never deeper." The chain "switches tip atomically" and the "tip
    height is non-decreasing across any interleaving of processBlock calls":
    the tip the chain holds after the call is the new block when the steps
    have all succeeded, and the tip it held before the call otherwise. *)
Definition tryFallback (blk : Block) : M unit :=
  fun c =>
    match rollbackAndAccept blk c with
    | (Ok a, c') => (Ok a, c')
    | (r, c') => (r, set_tip (tip c) c')
    end.

(** The accumulated successor at a given height, if any, and the others. *)
Fixpoint takeHeight (h : Z) (blks : list Block) : option (Block * list Block) :=
  match blks with
  | [] => None
  | b :: rest =>
      if block.Height (block.header b) =? h then Some (b, rest)
      else
        match takeHeight h rest with
        | Some (b', rest') => Some (b', b :: rest')
        | None => None
        end
  end.

(** Accepting the accumulated successors that follow the tip, at most [n] of
    them. *)
Fixpoint acceptAccumulated (n : nat) (kh : Z) : M unit :=
  match n with
  | O => ret tt
  | S n' =>
      c ← get;
      match takeHeight (block.Height (block.header (tip c)) + 1) (sequencer c) with
      | None => ret tt
      | Some (b, rest) =>
          modify (set_sequencer rest) ;;
          TryNextConsecutiveBlockOutSync env b kh ;;
          acceptAccumulated n' kh
      end
  end.

(** Modelled from the spec: [synchronizer.processBlock] is not among the
    sources. "A two-state machine: InSync and OutOfSync. InSync: accepts
    successors directly and restarts consensus on success. Transition to
    OutOfSync when an incoming block's height exceeds tip+1; the sync
    component requests missing blocks from the source peer, sets a watchdog
    timer, and accumulates successors. OutOfSync -> InSync when caught up
    [...]. During OutOfSync the consensus loop is cancelled." The watchdog's
    expiry is [ProcessSyncTimerExpired]. The response is the request for the
    missing blocks; its bytes are not specified. *)
Definition synchronizer_processBlock (srcPeerID : string) (currentHeight : Z)
    (blk : Block) (kh : Z) : M (list (list byte)) :=
  c ← get;
  match state c with
  | inSync =>
      if currentHeight + 1 <? block.Height (block.header blk)
      then
        emit CallStopConsensus ;;
        modify (set_state outSync) ;;
        modify (set_syncTarget (block.Height (block.header blk))) ;;
        modify (fun c => set_sequencer (sequencer c ++ [blk]) c) ;;
        emit (CallRequestBlocks srcPeerID (currentHeight + 1)
                (block.Height (block.header blk))) ;;
        ret [[]]
      else
        TryNextConsecutiveBlockInSync env blk kh ;;
        ret []
  | outSync =>
      if currentHeight + 1 <? block.Height (block.header blk)
      then
        modify (fun c => set_sequencer (sequencer c ++ [blk]) c) ;;
        ret []
      else
        TryNextConsecutiveBlockOutSync env blk kh ;;
        c ← get;
        acceptAccumulated (length (sequencer c)) kh ;;
        c ← get;
        (if syncTarget c <=? block.Height (block.header (tip c))
         then
           modify (set_state inSync) ;;
           logged (RestartConsensus env)
         else ret tt) ;;
        ret []
  end.

(** [ProcessBlockFromNetwork] with the two methods above. *)
Definition processBlock (srcPeerID : string) (m : Message) : M (list (list byte)) :=
  ProcessBlockFromNetwork tryFallback synchronizer_processBlock srcPeerID m.

(** A sequence of calls, each on the chain the one before left; a panic ends
    the process. *)
Fixpoint processBlocks (calls : list (string * Message)) (c : Chain) : Chain :=
  match calls with
  | [] => c
  | (srcPeerID, m) :: rest =>
      match processBlock srcPeerID m c with
      | (Panic, c') => c'
      | (_, c') => processBlocks rest c'
      end
  end.

End Synchronizer.
End chain.

(** ** An encoding package *)

(** Modelled from the spec: package [encoding] is not among the sources, and
    the spec fixes "field order and types only". This instance is the usual
    wire format of the types named by the calls: fixed-width integers in the
    given byte order, a variable-length integer with a one-byte discriminant
    (0xfd, 0xfe, 0xff for 2, 4 and 8 bytes), variable bytes prefixed by their
    length, and 32-byte and 33-byte fields whose length is checked on
    writing. *)
Module encoding.
Import events.

Definition byteZ (b : byte) : Z := Z.of_N (Byte.to_N b).

Definition Zbyte (z : Z) : byte := default x00 (Byte.of_N (Z.to_N (z mod 256))).

Fixpoint putLE (n : nat) (v : Z) : list byte :=
  match n with
  | O => []
  | S n' => Zbyte v :: putLE n' (v / 256)
  end.

Fixpoint getLE (bs : list byte) : Z :=
  match bs with
  | [] => 0
  | b :: rest => byteZ b + 256 * getLE rest
  end.

Definition putInt (order : ByteOrder) (n : nat) (v : Z) : list byte :=
  match order with
  | LittleEndian => putLE n v
  | BigEndian => rev (putLE n v)
  end.

Definition getInt (order : ByteOrder) (bs : list byte) : Z :=
  match order with
  | LittleEndian => getLE bs
  | BigEndian => getLE (rev bs)
  end.

Definition readFixed (n : nat) (r : Buffer) : Go.error + (list byte * Buffer) :=
  if (length r <? n)%nat then inl "unexpected EOF"%string
  else inr (take n r, drop n r).

Definition readInt (order : ByteOrder) (n : nat) (r : Buffer) : Go.error + (Z * Buffer) :=
  match readFixed n r with
  | inl e => inl e
  | inr (bs, rest) => inr (getInt order bs, rest)
  end.

Definition writeChecked (n : nat) (b : list byte) : Go.error + list byte :=
  if (length b =? n)%nat then inr b else inl "b is not proper size"%string.

Definition WriteVarInt (v : Z) : Go.error + list byte :=
  if v <? 253 then inr [Zbyte v]
  else if v <=? 65535 then inr (xfd :: putLE 2 v)
  else if v <=? 4294967295 then inr (xfe :: putLE 4 v)
  else inr (xff :: putLE 8 v).

Definition ReadVarInt (r : Buffer) : Go.error + (Z * Buffer) :=
  match r with
  | [] => inl "unexpected EOF"%string
  | d :: rest =>
      match d with
      | xff => readInt LittleEndian 8 rest
      | xfe => readInt LittleEndian 4 rest
      | xfd => readInt LittleEndian 2 rest
      | _ => inr (byteZ d, rest)
      end
  end.

Definition WriteVarBytes (b : list byte) : Go.error + list byte :=
  match WriteVarInt (Z.of_nat (length b)) with
  | inl e => inl e
  | inr bs => inr (bs ++ b)
  end.

Definition ReadVarBytes (r : Buffer) : Go.error + (list byte * Buffer) :=
  match ReadVarInt r with
  | inl e => inl e
  | inr (c, rest) => readFixed (Z.to_nat c) rest
  end.

Definition wire : Encoding :=
  mkEncoding
    WriteVarBytes ReadVarBytes
    (fun order v => inr (putInt order 8 v)) (fun order r => readInt order 8 r)
    (fun v => inr [Zbyte v]) (fun r => readInt LittleEndian 1 r)
    (writeChecked 32) (readFixed 32)
    (writeChecked 33) (readFixed 33)
    WriteVarInt ReadVarInt.

End encoding.

(** * The vocabulary of the properties *)

(** ** Votes, seats and weights *)

Module consensus_props.
Import consensus.

(** The number of seats a key holds in a committee. *)
Definition seats (committee : list (list byte)) (pk : list byte) : Z :=
  Z.of_nat (length (filter (fun member => pk = member) committee)).

(** The quorum threshold of the spec: the ceiling of two thirds of the size. *)
Definition quorum (size : Z) : Z := (2 * size + 2) / 3.

Section Counting.

Context {Vote : Type}.

#[local] Abbreviation Message := (MsgConsensus.t Vote).

(** The payload of a vote message. *)
Definition votePayload (m : Message) : option SigSetVote.t :=
  match MsgConsensus.Payload m with
  | MsgConsensus.PlSigSetVote pl => Some pl
  | _ => None
  end.

(** The hash a vote message votes for. *)
Definition votedHash (m : Message) : list byte :=
  match votePayload m with
  | Some pl => Go.bytes_of (SigSetVote.SigSetHash pl)
  | None => []
  end.

(** Deduplication by sender: the first message of every public key, in
    arrival order. *)
Definition firstVotes (ms : list Message) : list Message :=
  fold_left
    (fun acc m =>
       if decide (MsgConsensus.PubKey m ∈ MsgConsensus.PubKey <$> acc)
       then acc else acc ++ [m])
    ms [].

(** The seats of the senders of [L] that voted for [h]. *)
Fixpoint weightOf (committee : list (list byte)) (L : list Message)
    (h : list byte) : Z :=
  match L with
  | [] => 0
  | m :: rest =>
      (if decide (votedHash m = h) then seats committee (MsgConsensus.PubKey m) else 0)
      + weightOf committee rest h
  end.

(** The aggregated committee weight on [h] after the messages [ms]: the seats
    of the deduplicated senders that voted for [h]. *)
Definition weight (committee : list (list byte)) (ms : list Message)
    (h : list byte) : Z :=
  weightOf committee (firstVotes ms) h.

(** The seats of all the senders of [L]. *)
Fixpoint seatsTotal (committee : list (list byte)) (L : list Message) : Z :=
  match L with
  | [] => 0
  | m :: rest => seats committee (MsgConsensus.PubKey m) + seatsTotal committee rest
  end.

(** What the two maps of the loop hold while it is still counting. *)
Record Counted (committee : list (list byte)) (ms : list Message) (t : Tally)
  : Prop := mkCounted {
  counted_voters : forall pk,
    Go.map_get false (voters t) (Go.EncodeToString pk) = true
    <-> pk ∈ MsgConsensus.PubKey <$> ms;
  counted_counts : forall h,
    Go.map_get 0 (counts t) (Go.EncodeToString h) = weight committee ms h;
  counted_below : ms = [] \/
    forall h, weight committee ms h < Z.of_nat (length committee)
}.

(** The context a quorum on the payload [pl] leaves. *)
Definition forwarded (c : user.Context Vote) (pl : SigSetVote.t) : user.Context Vote :=
  user.set_SigSetVotes
    (Go.map_get [] (user.AllVotes c)
       (Go.EncodeToString (Go.bytes_of (SigSetVote.SigSetHash pl))))
    (user.set_SigSetHash (SigSetVote.SigSetHash pl) c).

(** The hash of a quorum that leads to an agreement: a quorum was reached, on
    a hash that is neither nil nor the 32 zero bytes. *)
Definition quorumOnNonEmptyHash (exit : Exit) : option (list byte) :=
  match exit with
  | ExitQuorum pl =>
      match SigSetVote.SigSetHash pl with
      | Some h => if decide (h = replicate 32 x00) then None else Some h
      | None => None
      end
  | ExitTimer => None
  end.

(** The context with the step advanced. *)
Definition advanced (c : user.Context Vote) : user.Context Vote :=
  user.set_Step (Go.uint8 (user.Step c + 1)) c.

(** The weight on the hash of the vote at position [k], once that vote is
    counted. *)
Definition weightAt (committee : list (list byte)) (ms : list Message) (k : nat)
    (m : Message) : Z :=
  weight committee (take (S k) ms) (votedHash m).

(** What the count has done by the end of a sequence of votes, for a given
    threshold: it is still running and no vote has brought the weight on its
    hash to the threshold, or it returned at the first vote that did,
    forwarding that vote's hash. *)
Definition countedTo (threshold : Z) (c : user.Context Vote) (ms : list Message)
    (r : LoopResult) : Prop :=
  match r with
  | Waiting _ =>
      forall k m, ms !! k = Some m ->
        weightAt (user.CurrentCommittee c) ms k m < threshold
  | Returned c' exit rest =>
      exists k m pl,
        ms !! k = Some m
        /\ votePayload m = Some pl
        /\ exit = ExitQuorum pl
        /\ c' = forwarded c pl
        /\ rest = Recv <$> drop (S k) ms
        /\ threshold <= weightAt (user.CurrentCommittee c) ms k m
        /\ forall j x, (j < k)%nat -> ms !! j = Some x ->
             weightAt (user.CurrentCommittee c) ms j x < threshold
  | LoopPanic _ => False
  end.

(** The claim on the quorum threshold, as the spec states it: the count
    concludes exactly when the weight on a hash reaches two thirds of the
    committee. *)
Definition forwardsAtTwoThirds : Prop :=
  forall (c : user.Context Vote) (ms : list Message),
    Z.of_nat (length (user.CurrentCommittee c)) < 256 ->
    Forall (fun m => is_Some (votePayload m)) ms ->
    countedTo (quorum (Z.of_nat (length (user.CurrentCommittee c)))) c ms
      (countLoop (voteLimit c) c emptyTally (Recv <$> ms)).

End Counting.
End consensus_props.

(** ** Encodings and well-formed events *)

Module events_props.
Import events.

(** What the marshallers need of the encoding package: a read gives back
    what the matching write wrote, and leaves what follows it. Integers are
    within their Go types, and a slice is shorter than 2^64. *)
Record EncodingLaws (enc : Encoding) : Prop := mkEncodingLaws {
  law_VarBytes : forall b bs rest,
    Z.of_nat (length b) < 2 ^ 64 ->
    WriteVarBytes enc b = inr bs -> ReadVarBytes enc (bs ++ rest) = inr (b, rest);
  law_Uint64 : forall order v bs rest,
    0 <= v < 2 ^ 64 ->
    WriteUint64 enc order v = inr bs -> ReadUint64 enc order (bs ++ rest) = inr (v, rest);
  law_Uint8 : forall v bs rest,
    0 <= v < 256 ->
    WriteUint8 enc v = inr bs -> ReadUint8 enc (bs ++ rest) = inr (v, rest);
  law_256 : forall b bs rest,
    Write256 enc b = inr bs -> Read256 enc (bs ++ rest) = inr (b, rest);
  law_BLS : forall b bs rest,
    WriteBLS enc b = inr bs -> ReadBLS enc (bs ++ rest) = inr (b, rest);
  law_VarInt : forall v bs rest,
    0 <= v < 2 ^ 64 ->
    WriteVarInt enc v = inr bs -> ReadVarInt enc (bs ++ rest) = inr (v, rest)
}.

(** Events whose integers are within their Go types. *)
Definition wfHeader (h : Header) : Prop :=
  Z.of_nat (length (PubKeyBLS h)) < 2 ^ 64
  /\ 0 <= Round h < 2 ^ 64
  /\ 0 <= Step h < 256.

Definition wfReduction (r : Reduction) : Prop := wfHeader (rHeader r).

Definition wfVote (ev : Event) : Prop :=
  match ev with
  | EvReduction r => wfReduction r
  | _ => True
  end.

Definition wfAgreement (a : Agreement) : Prop :=
  wfHeader (aHeader a)
  /\ Z.of_nat (length (VoteSet a)) < 2 ^ 64
  /\ Forall wfVote (VoteSet a).

(** Events whose fixed-size fields have their size: 32 bytes for a hash, 33
    for a BLS signature. *)
Definition sizedReduction (r : Reduction) : Prop :=
  length (VotedHash r) = 32%nat /\ length (SignedHash r) = 33%nat.

Definition sizedVote (ev : Event) : Prop :=
  match ev with
  | EvReduction r => sizedReduction r
  | _ => False
  end.

Definition sizedAgreement (a : Agreement) : Prop :=
  length (SignedVoteSet a) = 33%nat
  /\ length (AgreedHash a) = 32%nat
  /\ Forall sizedVote (VoteSet a).

End events_props.

(** ** The accept path and the tip *)

Module chain_props.
Import chain.

Section Props.

Context {ContractCall : Type}.

#[local] Abbreviation Block := (block.Block ContractCall).
#[local] Abbreviation Chain := (@Chain ContractCall).
#[local] Abbreviation M := (@M ContractCall).
#[local] Abbreviation Message := (@Message ContractCall).

#[local] Existing Instance M_ret.
#[local] Existing Instance M_bind.

Definition tipHeight (c : Chain) : Z := block.Height (block.header (tip c)).

(** The postcondition [Q] holds of the result and the chain a method leaves
    when run on [c]. *)
Definition wp {A} (m : M A) (Q : Result A -> Chain -> Prop) (c : Chain) : Prop :=
  Q (fst (m c)) (snd (m c)).

(** The functions that leave the tip alone. *)
Definition keepsTip {A} (m : M A) : Prop :=
  forall c, wp m (fun _ c' => tip c' = tip c) c.

(** After a function that may accept blocks: the tip is where it was, or
    higher. *)
Definition advances {A} (m : M A) : Prop :=
  forall c, wp m (fun _ c' => tipHeight c <= tipHeight c') c.

(** An acceptance either succeeds and makes the block, which follows the tip,
    the new tip, or does not succeed and leaves the tip. *)
Definition acceptPost (c : Chain) (blk : Block) (r : Result unit) (c' : Chain) : Prop :=
  match r with
  | Ok _ => tip c' = blk /\ block.Height (block.header blk) = tipHeight c + 1
  | Err _ | Panic => tip c' = tip c
  end.

Definition isTransition (e : @Effect ContractCall) : bool :=
  match e with
  | CallFinalize _ _ _ _ | CallAccept _ _ _ _ => true
  | _ => false
  end.

Definition isAcceptedBlockEvent (e : @Effect ContractCall) : bool :=
  match e with
  | CallAppend _ | PublishBlock AcceptedBlock _ => true
  | _ => false
  end.

Variable env : @Environment ContractCall.

(** The block passes the verifier and the certificate check on this chain. *)
Definition certificateValid (c : Chain) (blk : Block) : Prop :=
  SanityCheckBlock env (tip c) blk = None
  /\ CheckBlockCertificate env (p c) blk (block.Seed (block.header (tip c))) = None.

(** The executor reports the state hash of the tip, which is not empty. *)
Definition stateHashInSync (c : Chain) : Prop :=
  Executor_GetStateRoot env (trace c) = inr (block.StateHash (block.header (tip c)))
  /\ block.StateHash (block.header (tip c)) <> [].

(** The state transition call made for a block: which RPC, with which
    arguments. *)
Definition transitionCall (step : Z) (c : Chain) (blk : Block) : Effect :=
  if step =? 3
  then CallFinalize (block.Txs blk) (block.StateHash (block.header (tip c)))
         (block.Height (block.header blk)) (BlockGasLimit env)
  else CallAccept (block.Txs blk) (block.StateHash (block.header (tip c)))
         (block.Height (block.header blk)) (BlockGasLimit env).

(** The executor's answer to that call. *)
Definition transitionAnswer (c : Chain) (blk : Block)
  : Go.error + (Provisioners.t * list byte) :=
  if block.Step (block.Cert (block.header blk)) =? 3
  then Executor_Finalize env (trace c ++ [CallGetStateRoot]) (block.Txs blk)
         (block.StateHash (block.header (tip c)))
         (block.Height (block.header blk)) (BlockGasLimit env)
  else Executor_Accept env (trace c ++ [CallGetStateRoot]) (block.Txs blk)
         (block.StateHash (block.header (tip c)))
         (block.Height (block.header blk)) (BlockGasLimit env).

(** What [acceptBlock] does once the state transition has been run. *)
Definition storeAndAnnounce (blk : Block) : M unit :=
  c ← get;
  emit (CallAppend blk) ;;
  check (Loader_Append env (trace c) blk) ;;
  modify (set_tip blk) ;;
  postAcceptBlock env blk.

(** The first step of the accept path, as the spec has it: the verifier
    validates the lineage, "height = tip.height+1". *)
Definition verifierChecksLineage : Prop :=
  forall prevBlock blk : Block,
    SanityCheckBlock env prevBlock blk = None ->
    block.Height (block.header blk) = block.Height (block.header prevBlock) + 1.

(** The loader's [BlockAt] "returns the block at a given height". *)
Definition loaderReturnsHeight : Prop :=
  forall tr h (blk : Block),
    Loader_BlockAt env tr h = inr blk -> block.Height (block.header blk) = h.

(** The previous block a fallback rolls back to, when the loader has it and
    the incoming block's certificate is valid. *)
Definition rollbackTarget (c : Chain) (blk : Block) : option Block :=
  match Loader_BlockAt env (trace c) (tipHeight c - 1) with
  | inr prevBlk =>
      match CheckBlockCertificate env (p c) blk (block.Seed (block.header prevBlk)) with
      | None => Some prevBlk
      | Some _ => None
      end
  | inl _ => None
  end.

(** A fallback that does not reach the rollback returns an error and leaves
    the tip; one that does replaces the tip by the block, at the same height,
    when the new acceptance succeeds, and otherwise leaves the tip as well. *)
Definition fallbackPost (c : Chain) (blk : Block) (r : Result unit) (c' : Chain) : Prop :=
  match r with
  | Ok _ =>
      tip c' = blk
      /\ block.Height (block.header blk) = tipHeight c
      /\ exists prevBlk, rollbackTarget c blk = Some prevBlk
  | Err _ | Panic =>
      tip c' = tip c
      /\ (rollbackTarget c blk = None -> exists e, r = Err e)
  end.

(** What a call leaves as the tip when its block is not above the tip: the
    tip it found, or the block itself in place of a tip of the same height. *)
Definition keptOrReplaced (c : Chain) (blk : Block) (c' : Chain) : Prop :=
  tip c' = tip c
  \/ (tip c' = blk
      /\ block.Height (block.header blk) = tipHeight c
      /\ block.Hash (block.header blk) <> block.Hash (block.header (tip c))).

(** What the synchronizer is handed. *)
Definition toSynchronizer (srcPeerID : string) (m : Message) (blk : Block)
  : M (list (list byte)) :=
  (fun c =>
     (if highestSeen c <? block.Height (block.header blk)
      then modify (set_highestSeen (block.Height (block.header blk)))
      else mret tt) c) ≫= fun _ =>
  c0 ← get;
  synchronizer_processBlock env srcPeerID
    (block.Height (block.header (tip c0))) blk
    match msgHeader m with
    | [] => 255
    | b :: _ => Z.of_N (Byte.to_N b)
    end.

End Props.
End chain_props.

(** ** The accept path, step by step *)

Module accept_props.
Import chain chain_props.

Section Props.

Context {ContractCall : Type}.

#[local] Abbreviation Block := (block.Block ContractCall).
#[local] Abbreviation Chain := (@Chain ContractCall).

Variable env : @Environment ContractCall.

(** The effects of the state transition of a block on a chain: the state
    root is fetched, then the transition RPC is made. *)
Definition transitionEffects (c : Chain) (blk : Block) : list (@Effect ContractCall) :=
  [CallGetStateRoot;
   transitionCall env (block.Step (block.Cert (block.header blk))) c blk].

(** The effects that follow the storing of an accepted block. *)
Definition announceEffects (blk : Block) : list (@Effect ContractCall) :=
  [PublishBlock AcceptedBlock blk; CallClearCandidateMessages]
  ++ (if API_Enabled env
      then [GoStoreStakesInStormDB (block.Height (block.header blk))]
      else []).

(** The chain with another trace. *)
Definition set_trace (tr : list (@Effect ContractCall)) (c : Chain) : Chain :=
  mkChain (tip c) (p c) (highestSeen c) (state c) (syncTarget c) (sequencer c) tr.

Definition isPublication (e : @Effect ContractCall) : bool :=
  match e with
  | PublishBlock _ _ | PublishBuffer _ _ _ => true
  | _ => false
  end.

End Props.
End accept_props.

(** ** Propagation *)

Module propagate_props.
Import chain.
Section Props.
Context {ContractCall : Type}.
#[local] Abbreviation Chain := (@Chain ContractCall).
Variable env : @Environment ContractCall.

(** The topic a block is propagated on, and the header of the message. *)
Definition propagationTopic : Topic :=
  if Kadcast_Enabled env then Kadcast else Gossip.

Definition propagationHeader (kadcastHeight : Z) : list byte :=
  if Kadcast_Enabled env
  then [default x00 (Byte.of_N (Z.to_N kadcastHeight))]
  else [].

(** The chain with one more effect, or as it was. *)
Definition published (c c' : Chain) (kadcastHeight : Z) : Prop :=
  exists buf,
    c' = add_effect (PublishBuffer propagationTopic buf (propagationHeader kadcastHeight)) c.

(** What the accept path leaves of the chain, apart from the tip, the
    provisioners and the trace. *)
Definition framed (c c' : Chain) : Prop :=
  highestSeen c' = highestSeen c
  /\ state c' = state c
  /\ syncTarget c' = syncTarget c
  /\ sequencer c' = sequencer c.

End Props.
End propagate_props.

(** ** Casting a vote *)

Module vote_props.
Import consensus consensus_props.

Section Props.

Context {Vote : Type}.

#[local] Abbreviation Message := (MsgConsensus.t Vote).

Variable ext : @Externals Vote.

Definition isChanSend (e : @Effect Vote) : bool :=
  match e with
  | ChanSend _ => true
  | _ => false
  end.

(** The committee size [sigSetVote] asks the sortition for. *)
Definition requestedSize (c : user.Context Vote) : Z :=
  if Z.of_nat (length (user.Committee c)) <? CommitteeSize ext
  then Go.uint8 (Z.of_nat (length (user.Committee c)))
  else CommitteeSize ext.

(** The node holds a seat of the committee the sortition returns. *)
Definition seated (c : user.Context Vote) (committee : list (list byte)) : Prop :=
  CreateCommittee ext (user.Round c) (user.W c) (user.Step c) (requestedSize c)
    (user.Committee c) (user.NodeWeights c) = inr committee
  /\ sortition.Verify committee (user.EdPubKey (user.keys c)) <> 0.

(** The message a vote cast by [sigSetVote] on the context [c] builds, and
    the context [c'] the vote leaves: the hash of the node's vote set is the
    context's hash, whatever the hash was, the vote set is registered under
    that hash in the map, which is not nil, and the message is built on the
    hash and signed. *)
Definition voteBuilt (c c' : user.Context Vote) (msg : Message) : Prop :=
  exists allVotes sigBLS pl sigEd,
    HashVotes ext (user.SigSetVotes c) = inr (user.SigSetHash c')
    /\ user.AllVotes_map c = Some allVotes
    /\ c' = user.set_AllVotes
              (<[Go.EncodeToString (Go.bytes_of (user.SigSetHash c')) := user.SigSetVotes c]>
                 allVotes)
              (user.set_SigSetHash (user.SigSetHash c')
                 (user.set_CurrentCommittee (user.CurrentCommittee c') c))
    /\ BLSSign ext (user.BLSSecretKey (user.keys c)) (user.BLSPubKey (user.keys c))
         (user.SigSetHash c') = inr sigBLS
    /\ NewSigSetVote ext (user.BlockHash c) (user.SigSetHash c') sigBLS
         (BLSPubKey_Marshal ext (user.BLSPubKey (user.keys c))) = inr pl
    /\ CreateSignature ext c' (MsgConsensus.PlSigSetVote pl) = inr sigEd
    /\ NewMsgConsensus ext (user.Version c) (user.Round c) (user.LastHeaderHash c)
         (user.Step c) sigEd (user.EdPubKey (user.keys c))
         (MsgConsensus.PlSigSetVote pl) = inr msg.

(** The world in which the node sends the message to its own channel: the
    message has been gossiped. *)
Definition atSend (w : @World Vote) (c' : user.Context Vote) (msg : Message)
  : @World Vote :=
  mkWorld c' (inbox w) (trace w ++ [Gossip (user.Magic (ctx w)) msg]).

(** The send has completed: the message is recorded as sent and waits in the
    inbox behind the [ahead] events that precede it. *)
Definition delivered (w : @World Vote) (ahead : nat) (msg : Message)
    (w' : @World Vote) : Prop :=
  ctx w' = ctx w
  /\ inbox w' = take ahead (inbox w) ++ Recv msg :: drop ahead (inbox w)
  /\ trace w' = trace w ++ [ChanSend msg].

End Props.
End vote_props.

Module hash_props.
Import consensus.

Section Props.

Context {Vote : Type}.

Variable ext : @Externals Vote.

(** The encodings of the votes of a set, in order, or the error of the first
    vote that does not encode. *)
Fixpoint encodings (votes : list Vote) : Go.error + list (list byte) :=
  match votes with
  | [] => inr []
  | vote :: rest =>
      match Vote_Encode ext vote with
      | inl e => inl e
      | inr bs =>
          match encodings rest with
          | inl e => inl e
          | inr encs => inr (bs :: encs)
          end
      end
  end.

End Props.
End hash_props.

(** ** The selector of the best event (package committee) *)

Module committee.

Section Selector.

(** The dynamic type of the events, with its [Sender] method. A [wire.Event]
    is an interface value: [None] is the nil interface, on which a method
    call panics. *)
Context {E : Type}.

Variable Sender : E -> list byte.

(** [Committee.Priority]: whether the second sender has priority over the
    first. *)
Variable Priority : list byte -> list byte -> bool.

(** One outcome of the [select] of [PickBest]. *)
Inductive SelectEvent : Type :=
| EventChan (ev : option E)
| TimerC
| StopChan.

(** How [PickBest] ends: it sends an event to [BestEventChan] and returns, it
    is blocked in its [select] when the schedule is exhausted, or it
    panics. *)
Inductive Outcome : Type :=
| Picked (ev : option E) (rest : list SelectEvent)
| Blocked
| Panic (rest : list SelectEvent).

(** [x.Sender()] on an interface value. *)
Definition callSender (x : option E) : option (list byte) :=
  match x with
  | Some e => Some (Sender e)
  | None => None
  end.

(** The loop of [PickBest], from the value [bestEvent] holds. *)
Fixpoint pickLoop (bestEvent : option E) (evs : list SelectEvent) : Outcome :=
  match evs with
  | [] => Blocked
  | EventChan ev :: rest =>
      match callSender bestEvent with
      | None => Panic rest
      | Some best =>
          match callSender ev with
          | None => Panic rest
          | Some sender =>
              if Priority best sender
              then pickLoop ev rest
              else pickLoop bestEvent rest
          end
      end
  | TimerC :: rest => Picked bestEvent rest
  | StopChan :: rest => Picked bestEvent rest
  end.

(** [PickBest]: [var bestEvent wire.Event] is the nil interface. *)
Definition PickBest (evs : list SelectEvent) : Outcome :=
  pickLoop None evs.

End Selector.

End committee.

(** ** The mempool (package mempool) *)

Module mempool.

Definition ErrCoinbaseTxNotAllowed : Go.error := "coinbase tx not allowed".
Definition ErrAlreadyExists : Go.error := "already exists".

(** [transactions.TxType]. *)
Inductive TxType : Type :=
| Tx | Distribute | Bid | Stake | WithdrawFees | WithdrawStake | WithdrawBid | Slash.

#[global] Instance TxType_eq_dec : EqDecision TxType.
Proof. solve_decision. Defined.

(** How a method ends: it returns, or [log.Panic] or a failed type assertion
    ends it. *)
Inductive Result (A : Type) : Type :=
| Ok (a : A)
| Panic.
Arguments Ok {A}.
Arguments Panic {A}.

(** Conversion to [uint32]. *)
Definition uint32 (z : Z) : Z := z mod 2 ^ 32.

Section Mempool.

(** [transactions.ContractCall], and the state of the pool behind the [Pool]
    interface. *)
Context {ContractCall PoolState : Type}.

(** [TxDesc]: the fields the functions of this file read and write. *)
Record TxDesc : Type := mkTxDesc {
  tx : ContractCall;
  received : Z;
  verified : Z;
  size : Z;
  kadHeight : Z
}.

Definition set_verified (v : Z) (t : TxDesc) : TxDesc :=
  mkTxDesc (tx t) (received t) v (size t) (kadHeight t).

(** What the mempool does to its collaborators, in order. *)
Inductive Effect : Type :=
| CallVerifyTransaction (c : ContractCall)
| CallPut (t : TxDesc)
| CallDelete (hash : list byte)
| GoQueuePropagation (t : TxDesc).

(** Modelled from the spec: the [Pool] interface is not among the sources.
    "Storage is pluggable [...]. Both implement: Put(TxDesc), Get(txhash),
    Delete(txhash), Contains(txhash), RangeSort(callback) (descending by
    fee), [...] Len (count)". [RangeSort] hands the entries to its callback in
    that order until the callback asks to stop; [sorted] is that order. *)
Record Pool : Type := mkPool {
  Contains : PoolState -> list byte -> bool;
  Get : PoolState -> list byte -> option ContractCall;
  Put : PoolState -> TxDesc -> PoolState * option Go.error;
  Delete : PoolState -> list byte -> PoolState * option Go.error;
  Len : PoolState -> Z;
  sorted : PoolState -> Go.error + list (list byte * TxDesc)
}.

(** The collaborators: the methods of a contract call, the verifier, the
    clock and the decoder of the request. Answers of the outside may
    depend on what was done before. *)
Record Environment : Type := mkEnvironment {
  pool : Pool;
  CalculateHash : ContractCall -> list byte * option Go.error;
  Type_ : ContractCall -> TxType;
  VerifyTransaction : list Effect -> ContractCall -> option Go.error;
  Now : list Effect -> Z;
  ReadUint32LE : list byte -> Go.error + Z
}.

(** [Mempool]: the pool of verified transactions, the timestamp of the latest
    block, and the effects so far. *)
Record Mempool : Type := mkMempool {
  verifiedPool : PoolState;
  latestBlockTimestamp : Z;
  trace : list Effect
}.

Definition set_verifiedPool (v : PoolState) (m : Mempool) : Mempool :=
  mkMempool v (latestBlockTimestamp m) (trace m).

Definition set_latestBlockTimestamp (v : Z) (m : Mempool) : Mempool :=
  mkMempool (verifiedPool m) v (trace m).

Definition add_effect (e : Effect) (m : Mempool) : Mempool :=
  mkMempool (verifiedPool m) (latestBlockTimestamp m) (trace m ++ [e]).

Variable env : Environment.

(** [fmt.Errorf] with one verb: the prefix followed by the error's text. *)
Definition Errorf (prefix : string) (e : Go.error) : Go.error :=
  (prefix +:+ e)%string.

(** *** checkTx *)
Definition checkTx (c : ContractCall) (m : Mempool) : option Go.error * Mempool :=
  (VerifyTransaction env (trace m) c, add_effect (CallVerifyTransaction c) m).

(** *** processTx: returns the transaction id and the error. *)
Definition processTx (t : TxDesc) (m : Mempool)
  : (list byte * option Go.error) * Mempool :=
  let '(txid, err) := CalculateHash env (tx t) in
  match err with
  | Some e => ((txid, Some (Errorf "hash err: " e)), m)
  | None =>
      if decide (Type_ env (tx t) = Distribute)
      then ((txid, Some ErrCoinbaseTxNotAllowed), m)
      else if Contains (pool env) (verifiedPool m) txid
      then ((txid, Some ErrAlreadyExists), m)
      else
        let '(verr, m1) := checkTx (tx t) m in
        match verr with
        | Some e => ((txid, Some (Errorf "verification err - " e)), m1)
        | None =>
            let t' := set_verified (Now env (trace m1)) t in
            let '(p', perr) := Put (pool env) (verifiedPool m1) t' in
            let m2 := add_effect (CallPut t') (set_verifiedPool p' m1) in
            match perr with
            | Some e => ((txid, Some (Errorf "store err - " e)), m2)
            | None => ((txid, None), add_effect (GoQueuePropagation t') m2)
            end
        end
  end.

(** *** removeAccepted: the loop over the transactions of the block. *)
Fixpoint removeLoop (txs : list ContractCall) (m : Mempool) : Result unit * Mempool :=
  match txs with
  | [] => (Ok tt, m)
  | c :: rest =>
      let '(hash, err) := CalculateHash env c in
      match err with
      | Some _ => (Panic, m)
      | None =>
          let '(p', _) := Delete (pool env) (verifiedPool m) hash in
          removeLoop rest (add_effect (CallDelete hash) (set_verifiedPool p' m))
      end
  end.

Definition removeAccepted (b : block.Block ContractCall) (m : Mempool)
  : Result unit * Mempool :=
  if Len (pool env) (verifiedPool m) =? 0 then (Ok tt, m)
  else removeLoop (block.Txs b) m.

(** *** onBlock *)
Definition onBlock (b : block.Block ContractCall) (m : Mempool) : Result unit * Mempool :=
  removeAccepted b (set_latestBlockTimestamp (block.Timestamp (block.header b)) m).

(** *** RangeSort *)

(** Modelled from the spec: [RangeSort] is a method of the [Pool] interface,
    which is not among the sources. The callback is run on the entries in
    descending order of fee, until it returns [done]; the variables it
    captures are its state [S]. *)
Fixpoint rangeSort {S : Type} (fn : S -> list byte -> TxDesc -> S * bool)
    (s : S) (entries : list (list byte * TxDesc)) : S :=
  match entries with
  | [] => s
  | (k, t) :: rest =>
      let '(s', done) := fn s k t in
      if done then s' else rangeSort fn s' rest
  end.

(** *** processGetMempoolTxsBySizeRequest *)

(** The callback: its captured variables are [txs] and [totalSize]. *)
Definition bySizeCallback (maxTxsSize : Z) (s : list ContractCall * Z)
    (k : list byte) (t : TxDesc) : (list ContractCall * Z) * bool :=
  let '(txs, totalSize) := s in
  let totalSize := uint32 (totalSize + uint32 (size t)) in
  if totalSize <=? maxTxsSize
  then ((txs ++ [tx t], totalSize), false)
  else ((txs, totalSize), true).

(** [r.Params] is an interface value: a buffer, or something else. *)
Inductive Params : Type :=
| ParamsBuffer (buf : list byte)
| ParamsOther.

Definition processGetMempoolTxsBySizeRequest (params : Params) (m : Mempool)
  : Result (Go.error + list ContractCall) :=
  match params with
  | ParamsBuffer buf =>
      match ReadUint32LE env buf with
      | inl e => Ok (inl e)
      | inr maxTxsSize =>
          match sorted (pool env) (verifiedPool m) with
          | inl e => Ok (inl e)
          | inr entries =>
              Ok (inr (fst (rangeSort (bySizeCallback maxTxsSize) ([], 0) entries)))
          end
      end
  | ParamsOther => Panic
  end.

(** *** processGetMempoolTxsRequest *)
Definition allCallback (txs : list ContractCall) (k : list byte) (t : TxDesc)
  : list ContractCall * bool :=
  (txs ++ [tx t], false).

Definition processGetMempoolTxsRequest (params : Params) (m : Mempool)
  : Result (Go.error + list ContractCall) :=
  match params with
  | ParamsBuffer filterTxID =>
      if (length filterTxID =? 32)%nat
      then
        match Get (pool env) (verifiedPool m) filterTxID with
        | None => Ok (inr [])
        | Some c => Ok (inr [c])
        end
      else
        match sorted (pool env) (verifiedPool m) with
        | inl e => Ok (inl e)
        | inr entries => Ok (inr (rangeSort allCallback [] entries))
        end
  | ParamsOther => Panic
  end.

End Mempool.

Arguments TxDesc : clear implicits.
Arguments Effect : clear implicits.
Arguments Pool : clear implicits.
Arguments Environment : clear implicits.
Arguments Mempool : clear implicits.
Arguments Params : clear implicits.

End mempool.

Module mempool_props.
Import mempool.

Section Props.

Context {ContractCall PoolState : Type}.

Variable env : Environment ContractCall PoolState.

(** What the mempool needs of a pool: a transaction that was put is
    contained under its hash, a deleted hash is no longer contained, a
    deletion makes no other hash appear, and a pool of length 0 contains
    nothing. *)
Record PoolLaws : Prop := mkPoolLaws {
  law_Put : forall p t p' h,
    Put (pool env) p t = (p', None) ->
    CalculateHash env (tx t) = (h, None) ->
    Contains (pool env) p' h = true;
  law_Delete : forall p h,
    Contains (pool env) (fst (Delete (pool env) p h)) h = false;
  law_Delete_absent : forall p h h',
    Contains (pool env) p h' = false ->
    Contains (pool env) (fst (Delete (pool env) p h)) h' = false;
  law_Len : forall p h,
    Len (pool env) p = 0 -> Contains (pool env) p h = false
}.

(** The summed size of entries of the pool. *)
Definition totalSize (entries : list (list byte * TxDesc ContractCall)) : Z :=
  foldr (fun e acc => size (snd e) + acc) 0 entries.

(** The transactions of entries of the pool. *)
Definition txsOf (entries : list (list byte * TxDesc ContractCall)) : list ContractCall :=
  (fun e => tx (snd e)) <$> entries.

(** The hash of a transaction. *)
Definition hashOf (c : ContractCall) : list byte := fst (CalculateHash env c).

Definition hashable (c : ContractCall) : Prop := snd (CalculateHash env c) = None.

End Props.
End mempool_props.

(** ** The connection manager (package connmgr) *)

Module connmgr.

Definition maxRetries : Z := 5.

(** A [net.Conn]. *)
Definition net_Conn : Type := Z.

(** [Request]: the fields the manager reads and writes. [Retries] is a
    [uint8], as it is compared with [maxRetries]; [Conn] is an interface
    value, [None] when nil. *)
Record Request : Type := mkRequest {
  Addr : string;
  Retries : Z;
  Conn : option net_Conn;
  Inbound : bool;
  Permanent : bool
}.

Definition set_Retries (v : Z) (r : Request) : Request :=
  mkRequest (Addr r) v (Conn r) (Inbound r) (Permanent r).

Definition set_Conn (v : option net_Conn) (r : Request) : Request :=
  mkRequest (Addr r) (Retries r) v (Inbound r) (Permanent r).

Definition set_Inbound (v : bool) (r : Request) : Request :=
  mkRequest (Addr r) (Retries r) (Conn r) v (Permanent r).

(** What the manager does to the outside, in order. *)
Inductive Effect : Type :=
| CallDial (addr : string)
| CallClose (conn : net_Conn)
| CallOnConnection (conn : option net_Conn) (addr : string)
| CallOnFail (addr : string)
| AfterFunc (seconds : Z) (r : positive)
| SendOutOfPeerAddr.

(** [Config] and the dialer. [OnConnection] and [OnFail] say whether the
    callback is set. *)
Record Config : Type := mkConfig {
  GetAddress : list Effect -> Go.error + string;
  OnConnection : bool;
  OnFail : bool;
  dial : list Effect -> string -> Go.error + net_Conn
}.

(** How a function ends: it returns, or it panics. *)
Inductive Result (A : Type) : Type :=
| Ok (a : A)
| Panic.
Arguments Ok {A}.
Arguments Panic {A}.

(** [Connmgr]. A [*Request] is an address of the heap of requests, [None]
    when nil: the lists and the closures share the requests they point to.
    [goroutines] are the calls [go c.Connect(r)] that have not run yet. A
    closure sent on [actionch] is run when it is sent: the loop is idle and
    nothing else uses the manager meanwhile. *)
Record Connmgr : Type := mkConnmgr {
  heap : gmap positive Request;
  PendingList : gmap string positive;
  ConnectedList : gmap string positive;
  goroutines : list positive;
  trace : list Effect
}.

Definition set_heap (v : gmap positive Request) (c : Connmgr) : Connmgr :=
  mkConnmgr v (PendingList c) (ConnectedList c) (goroutines c) (trace c).

Definition set_PendingList (v : gmap string positive) (c : Connmgr) : Connmgr :=
  mkConnmgr (heap c) v (ConnectedList c) (goroutines c) (trace c).

Definition set_ConnectedList (v : gmap string positive) (c : Connmgr) : Connmgr :=
  mkConnmgr (heap c) (PendingList c) v (goroutines c) (trace c).

Definition set_goroutines (v : list positive) (c : Connmgr) : Connmgr :=
  mkConnmgr (heap c) (PendingList c) (ConnectedList c) v (trace c).

Definition add_effect (e : Effect) (c : Connmgr) : Connmgr :=
  mkConnmgr (heap c) (PendingList c) (ConnectedList c) (goroutines c) (trace c ++ [e]).

(** Conversion to [uint8]. *)
Definition uint8 (z : Z) : Z := z mod 256.

Section Connmgr.

Variable cfg : Config.

(** The closure of [failed]. The request is not nil here; an address that
    holds no request does not occur. *)
Definition failed (p : positive) (c : Connmgr) : Result unit * Connmgr :=
  match heap c !! p with
  | None => (Panic, c)
  | Some r =>
      if Inbound r || Permanent r
      then (Ok tt, add_effect (AfterFunc (uint8 (Retries r * 10)) p) c)
      else if maxRetries <? Retries r
      then
        let c1 := set_PendingList (delete (Addr r) (PendingList c)) c in
        (Ok tt, if OnFail cfg then add_effect (CallOnFail (Addr r)) c1 else c1)
      else (Ok tt, set_goroutines (goroutines c ++ [p]) c)
  end.

(** The closure of [pending]; it returns [err]. *)
Definition pending (r : option positive) (c : Connmgr) : Result (option Go.error) * Connmgr :=
  match r with
  | None => (Panic, c)
  | Some p =>
      match heap c !! p with
      | None => (Panic, c)
      | Some req => (Ok None, set_PendingList (<[Addr req := p]> (PendingList c)) c)
      end
  end.

(** The closure of [connected]. *)
Definition connected (r : option positive) (c : Connmgr) : Result (option Go.error) * Connmgr :=
  match r with
  | None => (Panic, c)
  | Some p =>
      match heap c !! p with
      | None => (Panic, c)
      | Some req =>
          let req := set_Retries 0 req in
          let c := set_heap (<[p := req]> (heap c)) c in
          let c := set_ConnectedList (<[Addr req := p]> (ConnectedList c)) c in
          let c := set_PendingList (delete (Addr req) (PendingList c)) c in
          let c := if OnConnection cfg
                   then add_effect (CallOnConnection (Conn req) (Addr req)) c
                   else c in
          (Ok None, c)
      end
  end.

(** The closure of [disconnected]. [r2] is a copy of the request at a new
    address. *)
Definition disconnected (r : option positive) (c : Connmgr) : Result (option Go.error) * Connmgr :=
  match r with
  | None => (Panic, c)
  | Some p =>
      match heap c !! p with
      | None => (Panic, c)
      | Some req =>
          let p2 := fresh (dom (heap c)) in
          let c := set_heap (<[p2 := req]> (heap c)) c in
          match Conn req with
          | None => (Panic, c)
          | Some conn =>
              let c := add_effect (CallClose conn) c in
              let c := set_heap (<[p := set_Conn None req]> (heap c)) c in
              let c := set_PendingList (delete (Addr req) (PendingList c)) c in
              let c := set_ConnectedList (delete (Addr req) (ConnectedList c)) c in
              match failed p2 c with
              | (Panic, c) => (Panic, c)
              | (Ok _, c) => (Ok None, c)
              end
          end
      end
  end.

(** *** Connect *)
Definition Connect (p : positive) (c : Connmgr) : Result (option Go.error) * Connmgr :=
  match heap c !! p with
  | None => (Panic, c)
  | Some req =>
      let req := set_Retries (uint8 (Retries req + 1)) req in
      let c := set_heap (<[p := req]> (heap c)) c in
      let answer := dial cfg (trace c) (Addr req) in
      let c := add_effect (CallDial (Addr req)) c in
      match answer with
      | inl err =>
          match pending (Some p) c with
          | (Panic, c) => (Panic, c)
          | (Ok _, c) =>
              match failed p c with
              | (Panic, c) => (Panic, c)
              | (Ok _, c) => (Ok (Some err), c)
              end
          end
      | inr conn =>
          let req := set_Inbound true (set_Conn (Some conn) req) in
          let c := set_heap (<[p := req]> (heap c)) c in
          connected (Some p) c
      end
  end.

(** *** NewRequest *)
Definition NewRequest (c : Connmgr) : Result unit * Connmgr :=
  match GetAddress cfg (trace c) with
  | inl _ => (Ok tt, add_effect SendOutOfPeerAddr c)
  | inr addr =>
      let p := fresh (dom (heap c)) in
      let c := set_heap (<[p := mkRequest addr 0 None false false]> (heap c)) c in
      match Connect p c with
      | (Panic, c) => (Panic, c)
      | (Ok _, c) => (Ok tt, c)
      end
  end.

(** *** Disconnect *)
Definition Disconnect (addr : string) (c : Connmgr) : Result unit * Connmgr :=
  let r := match ConnectedList c !! addr with
           | Some p => Some p
           | None => PendingList c !! addr
           end in
  match disconnected r c with
  | (Panic, c) => (Panic, c)
  | (Ok _, c) => (Ok tt, c)
  end.

(** The goroutines started by [go c.Connect(r)], run one after the other. *)
Fixpoint runGoroutines (fuel : nat) (c : Connmgr) : Result unit * Connmgr :=
  match fuel with
  | O => (Ok tt, c)
  | S fuel =>
      match goroutines c with
      | [] => (Ok tt, c)
      | p :: rest =>
          match Connect p (set_goroutines rest c) with
          | (Panic, c) => (Panic, c)
          | (Ok _, c) => runGoroutines fuel c
          end
      end
  end.

End Connmgr.

End connmgr.

Module connmgr_props.
Import connmgr.

(** The request [Disconnect] finds for an address: the connected list is
    looked up first, then the pending list. *)
Definition listed (addr : string) (c : Connmgr) : option positive :=
  match ConnectedList c !! addr with
  | Some p => Some p
  | None => PendingList c !! addr
  end.

(** The dialer never reaches the address. *)
Definition unreachable (cfg : Config) (addr : string) : Prop :=
  forall tr, exists err, dial cfg tr addr = inl err.

End connmgr_props.

(** ** The map of duplicates (package dupemap) *)

Module dupemap.

(** Addition in [int64]. *)
Definition int64 (z : Z) : Z := (z + 2 ^ 63) mod 2 ^ 64 - 2 ^ 63.

Section TmpMap.

(** The state of a [cuckoo.Filter]. *)
Context {Filter : Type}.

(** The cuckoo filter package. *)
Record Cuckoo : Type := mkCuckoo {
  NewFilter : Z -> Filter;
  Lookup : Filter -> list byte -> bool;
  Insert : Filter -> list byte -> Filter * bool
}.

Variable cuckoo : Cuckoo.

Record cache : Type := mkCache {
  filter : Filter;
  TTL : Z
}.

Record TmpMap : Type := mkTmpMap {
  height : Z;
  expire : Z;
  expiryTimestamp : Z;
  msgFilter : gmap Z cache;
  capacity : Z
}.

Definition set_msgFilter (v : gmap Z cache) (t : TmpMap) : TmpMap :=
  mkTmpMap (height t) (expire t) (expiryTimestamp t) v (capacity t).

(** *** NewTmpMap *)
Definition NewTmpMap (capacity expire : Z) : TmpMap :=
  mkTmpMap 0 expire 0 ∅ capacity.

(** *** has *)
Definition has (t : TmpMap) (b : list byte) (heigth : Z) : bool :=
  match msgFilter t !! heigth with
  | None => false
  | Some f => Lookup cuckoo (filter f) b
  end.

Definition Has (t : TmpMap) (b : list byte) : bool := has t b (height t).

Definition HasAt (t : TmpMap) (b : list byte) (heigth : Z) : bool := has t b heigth.

(** *** add: [now] is what [time.Now().Unix()] returns; it is read only when
    the round has no cache yet. *)
Definition add (now : Z) (b : list byte) (round : Z) (t : TmpMap) : bool * TmpMap :=
  let c :=
    match msgFilter t !! round with
    | Some c => c
    | None => mkCache (NewFilter cuckoo (capacity t)) (int64 (now + expire t))
    end in
  let '(f, ok) := Insert cuckoo (filter c) b in
  (ok, set_msgFilter (<[round := mkCache f (TTL c)]> (msgFilter t)) t).

Definition Add (now : Z) (b : list byte) (t : TmpMap) : bool * TmpMap :=
  add now b (height t) t.

Definition AddAt (now : Z) (b : list byte) (height : Z) (t : TmpMap) : bool * TmpMap :=
  add now b height t.

(** *** IsExpired *)
Definition IsExpired (now : Z) (t : TmpMap) : bool := expiryTimestamp t <=? now.

(** *** CleanExpired. The loop ranges over the map in an order of Go's
    choosing and reads the clock at every height: [visits] are the heights in
    that order, each with the time read there. A cache that is reset is
    deleted from the map, the only place that holds it. *)
Definition cleanStep (t : TmpMap) (visit : Z * Z) : TmpMap :=
  let '(height, now) := visit in
  match msgFilter t !! height with
  | None => t
  | Some f =>
      if TTL f <=? now then set_msgFilter (delete height (msgFilter t)) t else t
  end.

Definition CleanExpired (visits : list (Z * Z)) (t : TmpMap) : TmpMap :=
  foldl cleanStep t visits.

End TmpMap.

Arguments cache : clear implicits.
Arguments TmpMap : clear implicits.
Arguments Cuckoo : clear implicits.

End dupemap.

Module dupemap_props.
Import dupemap.

Section Props.

Context {Filter : Type}.

Variable cuckoo : Cuckoo Filter.

(** Buffers added at one height, each with the time of the call. *)
Definition addAll (round : Z) (adds : list (list byte * Z)) (t : TmpMap Filter)
  : TmpMap Filter :=
  foldl (fun t a => snd (add cuckoo (snd a) (fst a) round t)) t adds.

(** The time at which a height is visited, if it is. *)
Definition visitedAt (visits : list (Z * Z)) (height : Z) : option Z :=
  snd <$> find (fun v => bool_decide (fst v = height)) visits.

End Props.
End dupemap_props.

(** ** The connector of peers (package peer) *)

Module peer.

Definition defaultDialTimeout : Z := 5.
Definition defaultMaxConnections : Z := 50.

(** A [net.Conn]. *)
Definition net_Conn : Type := Z.

(** The payload of a message: a [message.Addr], or something else. *)
Inductive Payload : Type :=
| PlAddr (NetAddr : string)
| PlOther.

(** What the connector does to the outside, in order. [GoConnectFunc] is the
    goroutine that runs [connectFunc] and then removes the peer. *)
Inductive Effect : Type :=
| CallDialTimeout (addr : string) (seconds : Z)
| CallWriterConnect (conn : net_Conn)
| CallReaderAccept (conn : net_Conn)
| GoConnectFunc (address : string).

(** The configuration and the collaborators. *)
Record Environment : Type := mkEnvironment {
  MaxConnections : Z;
  TimeoutDial : Z;
  net_DialTimeout : list Effect -> string -> Z -> Go.error + net_Conn;
  Writer_Connect : list Effect -> net_Conn -> option Go.error;
  Writer_Addr : net_Conn -> string;
  Reader_Accept : list Effect -> net_Conn -> option Go.error;
  Reader_Addr : net_Conn -> string
}.

(** How a function ends: it returns, or it panics. *)
Inductive Result (A : Type) : Type :=
| Ok (a : A)
| Panic.
Arguments Ok {A}.
Arguments Panic {A}.

(** [Connector]: the registry is a set of addresses. *)
Record Connector : Type := mkConnector {
  registry : gset string;
  trace : list Effect
}.

Definition set_registry (v : gset string) (c : Connector) : Connector :=
  mkConnector v (trace c).

Definition add_effect (e : Effect) (c : Connector) : Connector :=
  mkConnector (registry c) (trace c ++ [e]).

Section Connector.

Variable env : Environment.

(** *** GetConnectionsCount *)
Definition GetConnectionsCount (c : Connector) : Z := Z.of_nat (size (registry c)).

(** *** addPeer *)
Definition addPeer (address : string) (c : Connector) : Connector :=
  set_registry ({[address]} ∪ registry c) c.

(** *** Dial *)
Definition Dial (addr : string) (c : Connector) : (Go.error + net_Conn) * Connector :=
  let t := if TimeoutDial env =? 0 then defaultDialTimeout else TimeoutDial env in
  (net_DialTimeout env (trace c) addr t, add_effect (CallDialTimeout addr t) c).

(** *** proposeConnection *)
Definition proposeConnection (conn : net_Conn) (c : Connector) : Connector :=
  let answer := Writer_Connect env (trace c) conn in
  let c := add_effect (CallWriterConnect conn) c in
  match answer with
  | Some _ => c
  | None =>
      let c := addPeer (Writer_Addr env conn) c in
      add_effect (GoConnectFunc (Writer_Addr env conn)) c
  end.

(** *** acceptConnection *)
Definition acceptConnection (conn : net_Conn) (c : Connector) : Connector :=
  let answer := Reader_Accept env (trace c) conn in
  let c := add_effect (CallReaderAccept conn) c in
  match answer with
  | Some _ => c
  | None =>
      let c := addPeer (Reader_Addr env conn) c in
      add_effect (GoConnectFunc (Reader_Addr env conn)) c
  end.

(** *** Connect *)
Definition Connect (addr : string) (c : Connector) : option Go.error * Connector :=
  match Dial addr c with
  | (inl err, c) => (Some err, c)
  | (inr conn, c) => (None, proposeConnection conn c)
  end.

(** *** ProcessNewAddress *)
Definition ProcessNewAddress (srcPeerID : string) (m : Payload) (c : Connector)
  : Result (option Go.error) * Connector :=
  let maxConn :=
    if MaxConnections env =? 0 then defaultMaxConnections else MaxConnections env in
  if maxConn <? GetConnectionsCount c
  then (Ok (Some "max amount of connections reached"%string), c)
  else
    match m with
    | PlOther => (Panic, c)
    | PlAddr NetAddr =>
        let '(err, c) := Connect NetAddr c in (Ok err, c)
    end.

End Connector.

End peer.

Module peer_props.
Import peer.

(** The limit [ProcessNewAddress] compares the number of connections with. *)
Definition connectionLimit (env : Environment) : Z :=
  if MaxConnections env =? 0 then defaultMaxConnections else MaxConnections env.

End peer_props.

(** ** Raw sessions on the SAM bridge (package sam3) *)

Module sam3.

(** A Go string is a sequence of bytes; [str] is a string literal. *)
Definition str (s : string) : list byte := String.list_byte_of_string s.

(** [strings.HasPrefix]. *)
Fixpoint HasPrefix (s prefix : list byte) : bool :=
  match prefix, s with
  | [], _ => true
  | p :: prefix, c :: s => Byte.eqb c p && HasPrefix s prefix
  | _ :: _, [] => false
  end.

(** [strings.Contains]. *)
Fixpoint Contains (s substr : list byte) : bool :=
  HasPrefix s substr
  || match s with
     | [] => false
     | _ :: rest => Contains rest substr
     end.

(** [strings.TrimPrefix]. *)
Definition TrimPrefix (s prefix : list byte) : list byte :=
  if HasPrefix s prefix then drop (length prefix) s else s.

(** [strings.Split] with a separator of one byte. *)
Fixpoint Split (s : list byte) (sep : byte) : list (list byte) :=
  match s with
  | [] => [[]]
  | c :: rest =>
      if Byte.eqb c sep then [] :: Split rest sep
      else
        match Split rest sep with
        | [] => [[c]]
        | field :: fields => (c :: field) :: fields
        end
  end.

(** [bytes.IndexByte]: the index of the first occurrence, or -1. *)
Fixpoint IndexByte (b : list byte) (c : byte) : Z :=
  match b with
  | [] => -1
  | x :: rest =>
      if Byte.eqb x c then 0
      else let i := IndexByte rest c in if i <? 0 then -1 else i + 1
  end.

(** [strings.Join]. *)
Fixpoint Join (elems : list (list byte)) (sep : list byte) : list byte :=
  match elems with
  | [] => []
  | [e] => e
  | e :: rest => e ++ sep ++ Join rest sep
  end.

(** [net.UDPAddr]. *)
Record UDPAddr : Type := mkUDPAddr {
  IP : list byte;
  Port : Z
}.

(** [RawSession], without its keys and its connections. *)
Record RawSession : Type := mkRawSession {
  ID : list byte;
  RUDPAddr : UDPAddr;
  FromPort : list byte;
  ToPort : list byte;
  Protocol : list byte
}.

(** How a function ends: it returns, or it panics. *)
Inductive Result (A : Type) : Type :=
| Ok (a : A)
| Panic.
Arguments Ok {A}.
Arguments Panic {A}.

(** The size of the buffer of [Read]. *)
Definition bufSize : nat := Z.to_nat (32768 + 67).

(** *** Read. [ReadFromUDP] has failed, or it has received a datagram from an
    address: it copies what fits into the buffer. *)
Definition readFields (fields : list (list byte)) : list byte * list byte :=
  foldl
    (fun ports field =>
       if Contains field (str "FROM_PORT=")
       then (TrimPrefix field (str "FROM_PORT="), snd ports)
       else if Contains field (str "TO_PORT=")
       then (fst ports, TrimPrefix field (str "TO_PORT="))
       else ports)
    (str "0", str "0") fields.

Definition Read (s : RawSession) (received : Go.error + (list byte * list byte))
  : Result (Go.error + (list byte * list byte * list byte)) :=
  match received with
  | inl err => Ok (inl err)
  | inr (datagram, sAddr_IP) =>
      let n := length (take bufSize datagram) in
      let buf := take bufSize datagram ++ replicate (bufSize - n) x00 in
      if negb (Go.bytes_Equal sAddr_IP (IP (RUDPAddr s)))
      then Ok (inl "datagram received from wrong address"%string)
      else
        let i := IndexByte buf x0a in
        if i <? 0 then Panic
        else if Z.of_nat n <? i + 1 then Panic
        else
          let msg := take (Z.to_nat i) buf in
          let data := drop (Z.to_nat i + 1) (take n buf) in
          let fields := Split msg x20 in
          let '(fromPort, toPort) := readFields fields in
          Ok (inr (data, fromPort, toPort))
  end.

(** *** Write: the datagram handed to [WriteToUDP]. *)
Definition header (s : RawSession) (addr : list byte) : list byte :=
  str "3.3 " ++ ID s ++ str " " ++ addr ++ str " FROM_PORT=" ++ FromPort s
    ++ str " TO_PORT=" ++ ToPort s ++ str " PROTOCOL=" ++ Protocol s ++ [x0a].

Definition Write (WriteToUDP : list byte -> UDPAddr -> Z * option Go.error)
    (s : RawSession) (b : list byte) (addr : list byte) : Z * option Go.error :=
  WriteToUDP (header s addr ++ b) (RUDPAddr s).

(** *** NewRawSession *)

(** What [NewRawSession] does to the outside, in order. *)
Inductive Effect : Type :=
| CallListenUDP (laddr : UDPAddr)
| CallSendToBridge (msg : list byte).

(** The addresses of the control connection and the collaborators. *)
Record Environment : Type := mkEnvironment {
  LocalAddr : list byte;
  RemoteAddr : list byte;
  SplitHostPort : list byte -> Go.error + (list byte * list byte);
  Atoi : list byte -> Go.error + Z;
  ResolveUDPAddr : list byte -> Go.error + UDPAddr;
  ListenUDP : UDPAddr -> option Go.error;
  SendToBridge : list byte -> Go.error + list byte;
  HandleResponse : list byte -> option Go.error
}.

(** The variables the loop over the options assigns. *)
Record Ports : Type := mkPorts {
  udpPort : list byte;
  sendPort : list byte;
  protocol : list byte
}.

(** How one pass of the loop ends. *)
Inductive Step : Type :=
| Continue (p : Ports)
| Return (err : Go.error)
| IndexOutOfRange.

(** The verb [%d]: the number in decimal. *)
Definition Itoa (n : Z) : string := @pretty.pretty Z pretty.pretty_Z n.

Definition invalidPort (n : Z) : Go.error :=
  ("invalid port " +:+ Itoa n +:+ " specified, should be between 0-65535")%string.

Definition badProtocol (n : Z) : Go.error :=
  ("Bad RAW LISTEN_PROTOCOL " +:+ Itoa n)%string.

Section NewRawSession.

Variable env : Environment.

Definition isFlag (flag : list byte) (a b : string) : bool :=
  bool_decide (flag = str a) || bool_decide (flag = str b).

(** The three [if]s of one pass. *)
Definition checkSendPort (opt flag : list byte) (p : Ports) : Step :=
  if isFlag flag "PORT" "TO_PORT"
  then
    match Split opt x3d !! 1%nat with
    | None => IndexOutOfRange
    | Some v =>
        match Atoi env v with
        | inl err => Return err
        | inr n =>
            if (65535 <? n) || (n <? 0) then Return (invalidPort n)
            else Continue (mkPorts (udpPort p) v (protocol p))
        end
    end
  else Continue p.

Definition checkUdpPort (opt flag : list byte) (p : Ports) : Step :=
  if isFlag flag "FROM_PORT" "LISTEN_PORT"
  then
    match Split opt x3d !! 1%nat with
    | None => IndexOutOfRange
    | Some v =>
        match Atoi env v with
        | inl err => Return err
        | inr n =>
            if (65535 <? n) || (n <? 0) then Return (invalidPort n)
            else Continue (mkPorts v (sendPort p) (protocol p))
        end
    end
  else Continue p.

Definition checkProtocol (opt flag : list byte) (p : Ports) : Step :=
  if isFlag flag "PROTOCOL" "LISTEN_PROTOCOL"
  then
    match Split opt x3d !! 1%nat with
    | None => IndexOutOfRange
    | Some v =>
        match Atoi env v with
        | inl err => Return err
        | inr pInt =>
            if (pInt <? 0) || (255 <? pInt) || (pInt =? 6) then Return (badProtocol pInt)
            else Continue (mkPorts (udpPort p) (sendPort p) v)
        end
    end
  else Continue p.

Definition checkOption (opt : list byte) (p : Ports) : Step :=
  let flag := default [] (Split opt x3d !! 0%nat) in
  match checkSendPort opt flag p with
  | Continue p =>
      match checkUdpPort opt flag p with
      | Continue p => checkProtocol opt flag p
      | other => other
      end
  | other => other
  end.

Fixpoint checkOptions (SAMOpt : list (list byte)) (p : Ports) : Step :=
  match SAMOpt with
  | [] => Continue p
  | opt :: rest =>
      match checkOption opt p with
      | Continue p => checkOptions rest p
      | other => other
      end
  end.

(** The I2CP options, formatted. *)
Definition formatOptions (I2CPOpt : list (list byte)) : list byte :=
  foldl (fun sOpt opt => sOpt ++ str " OPTION=" ++ opt) [] I2CPOpt.

Definition NewRawSession (id priv : list byte) (SAMOpt I2CPOpt : list (list byte))
  : Result (Go.error + RawSession) * list Effect :=
  match SplitHostPort env (LocalAddr env) with
  | inl err => (Ok (inl err), [])
  | inr (lHost, _) =>
      match SplitHostPort env (RemoteAddr env) with
      | inl err => (Ok (inl err), [])
      | inr (rHost, _) =>
          match checkOptions SAMOpt (mkPorts (str "7655") (str "0") (str "18")) with
          | IndexOutOfRange => (Panic, [])
          | Return err => (Ok (inl err), [])
          | Continue p =>
              match ResolveUDPAddr env (lHost ++ str ":" ++ sendPort p) with
              | inl err => (Ok (inl err), [])
              | inr lUDPAddr =>
                  match ListenUDP env lUDPAddr with
                  | Some err => (Ok (inl err), [CallListenUDP lUDPAddr])
                  | None =>
                      match ResolveUDPAddr env (rHost ++ str ":" ++ udpPort p) with
                      | inl err => (Ok (inl err), [CallListenUDP lUDPAddr])
                      | inr rUDPAddr =>
                          let msg :=
                            str "SESSION CREATE STYLE=RAW ID=" ++ id ++ str " DESTINATION="
                              ++ priv ++ str " " ++ Join SAMOpt (str " ")
                              ++ formatOptions I2CPOpt ++ [x0a] in
                          let tr := [CallListenUDP lUDPAddr; CallSendToBridge msg] in
                          match SendToBridge env msg with
                          | inl err => (Ok (inl err), tr)
                          | inr text =>
                              match HandleResponse env text with
                              | Some err => (Ok (inl err), tr)
                              | None =>
                                  (Ok (inr (mkRawSession id rUDPAddr (udpPort p) (sendPort p)
                                              (protocol p))), tr)
                              end
                          end
                      end
                  end
              end
          end
      end
  end.

End NewRawSession.

End sam3.

Module sam3_props.
Import sam3.

(** A string without space and without line feed. *)
Definition word (s : list byte) : Prop := (x20 ∉ s) /\ (x0a ∉ s).

(** A string that does not hold the name of a port field. *)
Definition plain (s : list byte) : Prop :=
  Contains s (str "FROM_PORT=") = false /\ Contains s (str "TO_PORT=") = false.

(** A port that was not given, or that [Atoi] reads as a number from 0 to
    65535. *)
Definition validPort (env : Environment) (default port : list byte) : Prop :=
  port = default \/ exists n, Atoi env port = inr n /\ 0 <= n <= 65535.

(** A protocol that was not given, or that [Atoi] reads as a number from 0 to
    255 other than 6. *)
Definition validProtocol (env : Environment) (proto : list byte) : Prop :=
  proto = str "18" \/ exists n, Atoi env proto = inr n /\ 0 <= n <= 255 /\ n <> 6.

Definition validPorts (env : Environment) (p : Ports) : Prop :=
  validPort env (str "7655") (udpPort p)
  /\ validPort env (str "0") (sendPort p)
  /\ validProtocol env (protocol p).

(** The option names a flag of [NewRawSession] and holds no [=]. *)
Definition flagWithoutValue (opt : list byte) : Prop :=
  (x3d ∉ opt)
  /\ opt ∈ [str "PORT"; str "TO_PORT"; str "FROM_PORT"; str "LISTEN_PORT";
            str "PROTOCOL"; str "LISTEN_PROTOCOL"].

End sam3_props.

(** * Scenarios *)

(** Concrete committees, events, blocks and collaborators, on which the
    properties below are exercised. *)
Module scenario.

(** ** A committee of three seats *)

Definition pkA : list byte := [x01].
Definition pkB : list byte := [x02].
Definition pkC : list byte := [x03].
Definition hashH : list byte := replicate 32 xaa.
Definition hashG : list byte := replicate 32 xbb.

Definition keysA : user.Keys := user.mkKeys pkA [x0a] [x0b].

(** The context of node A in round 5, step 2, with the three keys as current
    committee and a map with no entry yet. *)
Definition ctxA : user.Context unit :=
  user.mkContext 1 7 5 2 0 10 [] 1 keysA [x00] [x10]
    [pkA; pkB; pkC] ∅ [pkA; pkB; pkC] None [tt] (Some ∅).

Definition plOf (h : list byte) : SigSetVote.t :=
  SigSetVote.mk [x10] (Some h) [] [].

Definition voteOf (pk h : list byte) : MsgConsensus.t unit :=
  MsgConsensus.mk 1 5 [x00] 2 [] pk (MsgConsensus.PlSigSetVote (plOf h)).

(** Collaborators that always succeed: the committee is the three keys, the
    hash of any vote set is [hashH]. *)
Definition ext : @consensus.Externals unit :=
  consensus.mkExternals
    50
    (fun _ _ _ _ _ _ => inr [pkA; pkB; pkC])
    (fun _ => inr (Some hashH))
    (fun _ _ _ => inr [x0c])
    (fun pk => pk)
    (fun bh h sig pk => inr (SigSetVote.mk bh h sig pk))
    (fun _ _ => inr [x0d])
    (fun v r ph st sig pk pl => inr (MsgConsensus.mk v r ph st sig pk pl))
    (fun _ _ => None)
    (fun c _ => (c, None))
    (fun bh vs pk sc => inr (SigSetCandidate.mk bh vs pk sc))
    (fun c _ => (c, 1, None))
    (fun _ => inr [x00])
    (fun bs => inr bs).

(** The node's vote channel is empty, with room, whenever the node sends. *)
Definition chanEmpty : @consensus.World unit -> consensus.ChanState :=
  fun _ => consensus.Room 0.

(** The tally once the vote of A for [hashH] is counted. *)
Definition tallyA : consensus.Tally :=
  consensus.mkTally
    (<[Go.EncodeToString hashH := 1]> ∅)
    (<[Go.EncodeToString pkA := true]> ∅).

(** One vote of B arrives, then the timer fires. *)
Definition worldTimeout : @consensus.World unit :=
  consensus.mkWorld ctxA
    [consensus.Recv (voteOf pkB hashH); consensus.TimerC] [].

(** One vote of B arrives and the timer fires; then B and C vote for [hashH]. *)
Definition worldTimeoutThenVotes : @consensus.World unit :=
  consensus.mkWorld ctxA
    [consensus.Recv (voteOf pkB hashH); consensus.TimerC;
     consensus.Recv (voteOf pkB hashH); consensus.Recv (voteOf pkC hashH)] [].

(** The three members vote for [hashH]. *)
Definition worldQuorum : @consensus.World unit :=
  consensus.mkWorld ctxA
    [consensus.Recv (voteOf pkA hashH); consensus.Recv (voteOf pkB hashH);
     consensus.Recv (voteOf pkC hashH)] [].

(** ** Two reductions and an agreement *)

Definition red1 : events.Reduction :=
  events.mkReduction (events.mkHeader [x01; x02] 7 2) (replicate 32 xaa) (replicate 33 xbb).

Definition red2 : events.Reduction :=
  events.mkReduction (events.mkHeader [x03] 7 2) (replicate 32 xaa) (replicate 33 xcc).

Definition agreement1 : events.Agreement :=
  events.mkAgreement (events.mkHeader [x04; x05; x06] 7 3) (replicate 33 xdd)
    [events.EvReduction red1; events.EvReduction red2] (replicate 32 xaa).

Definition blankHeader : events.Header := events.mkHeader [] 0 0.

Definition marshalled (r : events.Result events.Buffer) : events.Buffer :=
  match r with
  | events.Ok buf => buf
  | _ => []
  end.

(** ** A chain of two blocks and a mock executor *)

Definition zeroHash : list byte := replicate 32 x00.
Definition declaredHash : list byte := replicate 32 xaa.

Definition certificate (step : Z) : block.Certificate :=
  block.mkCertificate [x01] 7 step.

Definition genesis : block.Block unit :=
  block.mkBlock
    (block.mkHeader 0 0 0 zeroHash [x05] [x06] (certificate 0) zeroHash [x10]) [tt].

(** The successor of the genesis block, certified at step 3. *)
Definition block1 : block.Block unit :=
  block.mkBlock
    (block.mkHeader 0 1 10 [x10] [x15] [x16] (certificate 3) zeroHash [x11]) [tt].

(** A successor of the genesis block certified at step 1. *)
Definition block1step1 : block.Block unit :=
  block.mkBlock
    (block.mkHeader 0 1 10 [x10] [x15] [x16] (certificate 1) zeroHash [x12]) [tt].

(** Another successor of the genesis block, whose header declares a state
    hash the executor will not return. *)
Definition block1fork : block.Block unit :=
  block.mkBlock
    (block.mkHeader 0 1 11 [x10] [x25] [x26] (certificate 3) declaredHash [x13]) [tt].

Definition provisioners : Provisioners.t :=
  Provisioners.mk [[x01]]
    (<["01"%string := Provisioners.mkMember [x01] [Provisioners.mkStake 100 0 1000]]> ∅).

(** The verifier checks the lineage; every certificate is valid; the executor
    returns the zero state hash to every call; the loader stores every block
    and holds the genesis block at height 0. *)
Definition env : @chain.Environment unit :=
  chain.mkEnvironment
    1000 false false
    (fun prevBlock blk =>
       if negb (block.Height (block.header blk)
                =? block.Height (block.header prevBlock) + 1)
       then Some "invalid height"%string
       else if negb (Go.bytes_Equal (block.PrevBlockHash (block.header blk))
                       (block.Hash (block.header prevBlock)))
       then Some "invalid previous hash"%string
       else None)
    (fun _ _ _ => None)
    (fun _ => inr zeroHash)
    (fun _ _ _ _ _ => inr (provisioners, zeroHash))
    (fun _ _ _ _ _ => inr (provisioners, zeroHash))
    (fun _ _ => None)
    (fun _ h => if h =? 0 then inr genesis else inl "block not found"%string)
    (fun _ _ => None)
    (fun _ => None)
    (fun _ => None)
    (fun h => inr h)
    (fun buf => inr buf)
    (fun _ => inr []).

Definition chainAt (tipBlk : block.Block unit) : @chain.Chain unit :=
  chain.mkChain tipBlk provisioners 0 chain.inSync 0 [] [].

Definition blockMessage (blk : block.Block unit) : @chain.Message unit :=
  chain.mkMessage (chain.PayloadBlock blk) [].

End scenario.

(** ** Further scenarios *)

Module scenario_more.
Import scenario.

(** The collaborators of [env], with a loader that refuses every block. *)
Definition envFullDisk : @chain.Environment unit :=
  chain.mkEnvironment
    (chain.BlockGasLimit env) (chain.API_Enabled env) (chain.Kadcast_Enabled env)
    (chain.SanityCheckBlock env) (chain.CheckBlockCertificate env)
    (chain.Executor_GetStateRoot env) (chain.Executor_Finalize env)
    (chain.Executor_Accept env)
    (fun _ _ => Some "disk full"%string)
    (chain.Loader_BlockAt env) (chain.Executor_Revert env)
    (chain.DB_ClearCandidateMessages env) (chain.Loop_RestartConsensus env)
    (chain.Inv_Encode env) (chain.Topics_Prepend env) (chain.MarshalBlock env).

(** A successor of [block1fork], whose state hash the executor does not
    report. *)
Definition block2 : block.Block unit :=
  block.mkBlock
    (block.mkHeader 0 2 20 [x13] [x35] [x36] (certificate 3) zeroHash [x14]) [tt].

(** The context of node A with an empty current committee. *)
Definition ctxNoCommittee : user.Context unit :=
  user.mkContext 1 7 5 2 0 10 [] 1 keysA [x00] [x10]
    [pkA; pkB; pkC] ∅ [] None [tt] (Some ∅).

(** The context of node A when the map of all votes is nil. *)
Definition ctxNilMap : user.Context unit :=
  user.mkContext 1 7 5 2 0 10 [] 1 keysA [x00] [x10]
    [pkA; pkB; pkC] ∅ [pkA; pkB; pkC] None [tt] None.

(** The context of node A once it has voted for its vote set. *)
Definition ctxVoted : user.Context unit :=
  user.mkContext 1 7 5 2 0 10 [] 1 keysA [x00] [x10]
    [pkA; pkB; pkC] ∅ [pkA; pkB; pkC] (Some hashH) [tt]
    (Some (<[Go.EncodeToString hashH := [tt]]> ∅)).

(** The vote of node A, as the collaborators of [ext] build and sign it. *)
Definition ownVote : MsgConsensus.t unit :=
  MsgConsensus.mk 1 5 [x00] 2 [x0d] pkA
    (MsgConsensus.PlSigSetVote (SigSetVote.mk [x10] (Some hashH) [x0c] [x0a])).

(** A vote channel with no room, and a closed one. *)
Definition chanNoRoom : @consensus.World unit -> consensus.ChanState :=
  fun _ => consensus.NoRoom.

Definition chanClosed : @consensus.World unit -> consensus.ChanState :=
  fun _ => consensus.Closed.

(** A signature set candidate. *)
Definition candidateOf (pk : list byte) : MsgConsensus.t unit :=
  MsgConsensus.mk 1 5 [x00] 2 [] pk
    (MsgConsensus.PlSigSetCandidate (SigSetCandidate.mk [x10] [tt; tt] [] [])).

(** B's candidate arrives, then the node's own, then the timer fires. *)
Definition worldOwnCandidate : @consensus.World unit :=
  consensus.mkWorld ctxA
    [consensus.Recv (candidateOf pkB); consensus.Recv (candidateOf pkA);
     consensus.TimerC] [].

End scenario_more.

(** ** Scenarios for the vote hash *)

Module scenario_extra.
Import scenario.

(** Collaborators whose votes are byte strings that encode as themselves, and
    whose hash is the identity. *)
Definition extRaw : @consensus.Externals (list byte) :=
  consensus.mkExternals
    50
    (fun _ _ _ _ _ _ => inr [pkA; pkB; pkC])
    (fun _ => inr (Some hashH))
    (fun _ _ _ => inr [x0c])
    (fun pk => pk)
    (fun bh h sig pk => inr (SigSetVote.mk bh h sig pk))
    (fun _ _ => inr [x0d])
    (fun v r ph st sig pk pl => inr (MsgConsensus.mk v r ph st sig pk pl))
    (fun _ _ => None)
    (fun c _ => (c, None))
    (fun bh vs pk sc => inr (SigSetCandidate.mk bh vs pk sc))
    (fun c _ => (c, 1, None))
    (fun v => inr v)
    (fun bs => inr bs).

End scenario_extra.

(** ** A mempool over a list *)

Module scenario_pool.

(** Transactions are byte strings that hash to themselves. *)
#[local] Abbreviation TxDesc := (mempool.TxDesc (list byte)).

Definition holds (h : list byte) (t : TxDesc) : bool :=
  bool_decide (mempool.tx t = h).

(** A pool that keeps its entries in a list, in the order of arrival. *)
Definition poolList : mempool.Pool (list byte) (list TxDesc) :=
  mempool.mkPool
    (fun p h => existsb (holds h) p)
    (fun p h => mempool.tx <$> find (holds h) p)
    (fun p t => (p ++ [t], None))
    (fun p h => (List.filter (fun t => negb (holds h t)) p, None))
    (fun p => Z.of_nat (length p))
    (fun p => inr ((fun t => (mempool.tx t, t)) <$> p)).

(** Collaborators that accept every transaction; the clock counts the
    effects. *)
Definition envPool : mempool.Environment (list byte) (list TxDesc) :=
  mempool.mkEnvironment poolList
    (fun c => (c, None))
    (fun _ => mempool.Tx)
    (fun _ _ => None)
    (fun tr => Z.of_nat (length tr))
    (fun buf =>
       match encoding.readInt events.LittleEndian 4 buf with
       | inl e => inl e
       | inr (v, _) => inr v
       end).

Definition txOf (c : list byte) (size : Z) : TxDesc :=
  mempool.mkTxDesc c 0 0 size 0.

Definition emptyMempool : mempool.Mempool (list byte) (list TxDesc) :=
  mempool.mkMempool [] 0 [].

(** A pool of three transactions of 100, 200 and 300 bytes. *)
Definition mempool3 : mempool.Mempool (list byte) (list TxDesc) :=
  mempool.mkMempool [txOf [x01] 100; txOf [x02] 200; txOf [x03] 300] 0 [].

(** A block that holds the first and the third of them. *)
Definition blockOf13 : block.Block (list byte) :=
  block.mkBlock
    (block.mkHeader 0 2 20 [x13] [x35] [x36] (block.mkCertificate [x01] 7 3) [] [x14])
    [[x01]; [x03]].

End scenario_pool.

(** ** A connection manager and two dialers *)

Module scenario_conn.

Definition peer : string := "10.0.0.7:7000".

(** A dialer that never connects, with both callbacks set. *)
Definition cfgOffline : connmgr.Config :=
  connmgr.mkConfig (fun _ => inr peer) true true
    (fun _ _ => inl "i/o timeout"%string).

(** A dialer that connects at once. *)
Definition cfgOnline : connmgr.Config :=
  connmgr.mkConfig (fun _ => inr peer) true true (fun _ _ => inr 7).

(** A manager that holds nothing. *)
Definition idle : connmgr.Connmgr := connmgr.mkConnmgr ∅ ∅ ∅ [] [].

(** A manager with one request, not yet dialled. *)
Definition oneRequest : connmgr.Connmgr :=
  connmgr.mkConnmgr (<[1%positive := connmgr.mkRequest peer 0 None false true]> ∅)
    ∅ ∅ [] [].

End scenario_conn.

(** ** A map of duplicates over a list *)

Module scenario_dupe.

(** A filter that keeps what is inserted in a list. *)
Definition listFilter : dupemap.Cuckoo (list (list byte)) :=
  dupemap.mkCuckoo
    (fun _ => [])
    (fun f b => bool_decide (b ∈ f))
    (fun f b => (b :: f, true)).

(** A map whose caches live 5 seconds. *)
Definition fresh5 : dupemap.TmpMap (list (list byte)) := dupemap.NewTmpMap 100 5.

(** Two buffers are added at height 3, at the times 1000 and 1004. *)
Definition twoAdds : dupemap.TmpMap (list (list byte)) :=
  dupemap_props.addAll listFilter 3 [([x01], 1000); ([x02], 1004)] fresh5.

End scenario_dupe.

(** ** A connector limited to one connection *)

Module scenario_peer.

(** Every dial and every handshake succeeds; the connection to an address is
    the length of the address, and the connection 9 is to 10.0.0.10. *)
Definition envOne : peer.Environment :=
  peer.mkEnvironment 1 0
    (fun _ addr _ => inr (Z.of_nat (String.length addr)))
    (fun _ _ => None)
    (fun conn => if conn =? 9 then "10.0.0.10"%string else "10.0.0.9"%string)
    (fun _ _ => None)
    (fun conn => if conn =? 9 then "10.0.0.10"%string else "10.0.0.9"%string).

(** One peer is registered. *)
Definition onePeer : peer.Connector := peer.mkConnector {["10.0.0.9"%string]} [].

End scenario_peer.

(** ** A raw session on a local bridge *)

Module scenario_sam.
Import sam3.

(** A reader of decimal numerals without sign. *)
Definition digit (b : byte) : option Z :=
  let n := Z.of_N (Byte.to_N b) in
  if (48 <=? n) && (n <=? 57) then Some (n - 48) else None.

Fixpoint readDigits (acc : Z) (s : list byte) : Go.error + Z :=
  match s with
  | [] => inr acc
  | b :: rest =>
      match digit b with
      | None => inl "invalid syntax"%string
      | Some d => readDigits (10 * acc + d) rest
      end
  end.

Definition atoi (s : list byte) : Go.error + Z :=
  match s with
  | [] => inl "invalid syntax"%string
  | _ => readDigits 0 s
  end.

Definition bridge : UDPAddr := mkUDPAddr [x7f; x00; x00; x01] 7655.

(** A bridge on the local host that accepts every session. *)
Definition envSam : Environment :=
  mkEnvironment (str "127.0.0.1:50000") (str "127.0.0.1:7656")
    (fun _ => inr (str "127.0.0.1", str "0"))
    atoi
    (fun _ => inr bridge)
    (fun _ => None)
    (fun _ => inr (str "SESSION STATUS RESULT=OK"))
    (fun _ => None).

(** The session created with the options PORT=9000 and PROTOCOL=17. *)
Definition session : RawSession :=
  mkRawSession (str "sess") bridge (str "7655") (str "9000") (str "17").

Definition destination : list byte := str "peer.b32.i2p".

End scenario_sam.

(** * Properties *)

(** ** Hexadecimal keys *)

Module Go_facts.
Import Go.

Lemma decode_hex_byte (b : byte) :
  Byte.of_N (unhexdigit (hexdigit (Byte.to_N b / 16)) * 16
             + unhexdigit (hexdigit (Byte.to_N b mod 16))) = Some b.
Proof. destruct b; vm_compute; reflexivity. Qed.

Lemma DecodeString_EncodeToString (bs : list byte) :
  DecodeString (EncodeToString bs) = bs.
Proof.
  induction bs as [|b bs IH]; [reflexivity|].
  cbn [EncodeToString DecodeString].
  rewrite decode_hex_byte. now rewrite IH.
Qed.

(** Distinct byte strings have distinct map keys. *)
Lemma EncodeToString_inj (a b : list byte) :
  EncodeToString a = EncodeToString b -> a = b.
Proof.
  intros H. rewrite <- (DecodeString_EncodeToString a), H.
  apply DecodeString_EncodeToString.
Qed.

End Go_facts.

(** * Properties of the signature set phases *)

Module consensus_facts.
Import consensus consensus_props.

(** ** Go maps *)

Lemma map_get_insert {V} (zero v : V) (m : gmap string V) (k k' : string) :
  Go.map_get zero (<[k := v]> m) k' = if decide (k = k') then v else Go.map_get zero m k'.
Proof.
  unfold Go.map_get. rewrite lookup_insert. now destruct (decide (k = k')).
Qed.

Lemma map_get_empty {V} (zero : V) (k : string) :
  Go.map_get zero (∅ : gmap string V) k = zero.
Proof. unfold Go.map_get. now rewrite lookup_empty. Qed.

(** ** Seats *)

Lemma seats_nonneg committee pk : 0 <= seats committee pk.
Proof. unfold seats. lia. Qed.

Lemma Verify_fold committee pk acc :
  0 <= acc ->
  acc + seats committee pk < 256 ->
  fold_left
    (fun votes member =>
       if Go.bytes_Equal pk member then Go.uint8 (votes + 1) else votes)
    committee acc = acc + seats committee pk.
Proof.
  revert acc. induction committee as [|member rest IH]; intros acc Hacc Hlt.
  - unfold seats. simpl. lia.
  - cbn [fold_left]. unfold seats in *. rewrite filter_cons in *.
    unfold Go.bytes_Equal. destruct (decide (pk = member)) as [Heq|Hne].
    + rewrite bool_decide_eq_true_2 by done. cbn [length] in *.
      unfold Go.uint8. rewrite Z.mod_small by lia.
      rewrite IH by lia. lia.
    + rewrite bool_decide_eq_false_2 by done. now apply IH.
Qed.

Lemma seats_le_length committee pk : seats committee pk <= Z.of_nat (length committee).
Proof.
  unfold seats. pose proof (length_filter (fun member => pk = member) committee). lia.
Qed.

Lemma Verify_seats committee pk :
  Z.of_nat (length committee) < 256 ->
  sortition.Verify committee pk = seats committee pk.
Proof.
  intros H. unfold sortition.Verify.
  rewrite Verify_fold; pose proof (seats_le_length committee pk); lia.
Qed.

Section Counting.

Context {Vote : Type}.

#[local] Abbreviation Message := (MsgConsensus.t Vote).

Lemma firstVotes_snoc (ms : list Message) (m : Message) :
  firstVotes (ms ++ [m]) =
  if decide (MsgConsensus.PubKey m ∈ MsgConsensus.PubKey <$> firstVotes ms)
  then firstVotes ms else firstVotes ms ++ [m].
Proof. unfold firstVotes. now rewrite fold_left_app. Qed.

Lemma firstVotes_senders (ms : list Message) pk :
  pk ∈ MsgConsensus.PubKey <$> firstVotes ms ↔ pk ∈ MsgConsensus.PubKey <$> ms.
Proof.
  induction ms as [|m ms IH] using rev_ind; [done|].
  rewrite firstVotes_snoc, fmap_app, elem_of_app. cbn [fmap list_fmap].
  rewrite list_elem_of_singleton.
  destruct (decide (MsgConsensus.PubKey m ∈ MsgConsensus.PubKey <$> firstVotes ms)) as [Hin|Hnin].
  - rewrite IH. split; [tauto|]. intros [?| ->]; [done|]. now apply IH.
  - rewrite fmap_app, elem_of_app. cbn [fmap list_fmap].
    rewrite list_elem_of_singleton. now rewrite IH.
Qed.

Lemma firstVotes_NoDup (ms : list Message) : NoDup (MsgConsensus.PubKey <$> firstVotes ms).
Proof.
  induction ms as [|m ms IH] using rev_ind; [constructor|].
  rewrite firstVotes_snoc.
  destruct (decide (MsgConsensus.PubKey m ∈ MsgConsensus.PubKey <$> firstVotes ms)) as [Hin|Hnin];
    [done|].
  rewrite fmap_app. apply NoDup_app. split; [done|]. split.
  - intros x Hx Hx'. cbn in Hx'. apply list_elem_of_singleton in Hx'. now subst.
  - cbn. apply NoDup_singleton.
Qed.

Lemma weightOf_app committee (L1 L2 : list Message) h :
  weightOf committee (L1 ++ L2) h = weightOf committee L1 h + weightOf committee L2 h.
Proof. induction L1 as [|m L1 IH]; cbn [weightOf app]; [lia|]. rewrite IH. lia. Qed.

Lemma weightOf_nonneg committee (L : list Message) h : 0 <= weightOf committee L h.
Proof.
  induction L as [|m L IH]; cbn [weightOf]; [lia|].
  destruct (decide _); pose proof (seats_nonneg committee (MsgConsensus.PubKey m)); lia.
Qed.

(** Distinct senders hold distinct seats: their weight is at most the size
    of the committee. *)
Lemma seats_cons member committee pk :
  seats (member :: committee) pk =
  (if decide (pk = member) then 1 else 0) + seats committee pk.
Proof.
  unfold seats. rewrite filter_cons.
  destruct (decide (pk = member)); cbn [length]; lia.
Qed.

Lemma seatsTotal_nil (L : list Message) : seatsTotal [] L = 0.
Proof. induction L as [|m L IH]; cbn [seatsTotal]; [done|]. rewrite IH. done. Qed.

Lemma seatsTotal_cons member committee (L : list Message) :
  seatsTotal (member :: committee) L = seatsTotal [member] L + seatsTotal committee L.
Proof.
  induction L as [|m L IH]; cbn [seatsTotal]; [lia|].
  rewrite IH, !seats_cons. unfold seats at 2. cbn. lia.
Qed.

Lemma seatsTotal_single_absent member (L : list Message) :
  member ∉ MsgConsensus.PubKey <$> L -> seatsTotal [member] L = 0.
Proof.
  induction L as [|m L IH]; cbn [seatsTotal]; [done|].
  intros Hnin. rewrite fmap_cons, not_elem_of_cons in Hnin. destruct Hnin as [Hne Hnin].
  rewrite IH by done. rewrite seats_cons.
  destruct (decide (MsgConsensus.PubKey m = member)); [congruence|]. unfold seats. cbn. lia.
Qed.

Lemma seatsTotal_single member (L : list Message) :
  NoDup (MsgConsensus.PubKey <$> L) -> seatsTotal [member] L <= 1.
Proof.
  induction L as [|m L IH]; cbn [seatsTotal]; [lia|].
  rewrite fmap_cons. intros Hnd. apply NoDup_cons in Hnd as [Hnin Hnd].
  rewrite seats_cons. unfold seats. cbn [filter list_filter length].
  destruct (decide (MsgConsensus.PubKey m = member)) as [Heq|Hne].
  - subst member. rewrite seatsTotal_single_absent by done. cbn. lia.
  - specialize (IH Hnd). cbn. lia.
Qed.

Lemma seatsTotal_le committee (L : list Message) :
  NoDup (MsgConsensus.PubKey <$> L) ->
  seatsTotal committee L <= Z.of_nat (length committee).
Proof.
  intros Hnd. induction committee as [|member committee IH].
  - rewrite seatsTotal_nil. cbn. lia.
  - rewrite seatsTotal_cons. pose proof (seatsTotal_single member L Hnd).
    cbn [length]. lia.
Qed.

Lemma weightOf_le_total committee (L : list Message) h : weightOf committee L h <= seatsTotal committee L.
Proof.
  induction L as [|m L IH]; cbn [weightOf seatsTotal]; [lia|].
  destruct (decide _); pose proof (seats_nonneg committee (MsgConsensus.PubKey m)); lia.
Qed.

Lemma weight_le_committee committee (ms : list Message) h :
  weight committee ms h <= Z.of_nat (length committee).
Proof.
  unfold weight. pose proof (weightOf_le_total committee (firstVotes ms) h).
  pose proof (seatsTotal_le committee (firstVotes ms) (firstVotes_NoDup ms)). lia.
Qed.

Lemma weight_snoc committee (ms : list Message) (m : Message) h :
  weight committee (ms ++ [m]) h =
  if decide (MsgConsensus.PubKey m ∈ MsgConsensus.PubKey <$> ms)
  then weight committee ms h
  else weight committee ms h
       + (if decide (votedHash m = h) then seats committee (MsgConsensus.PubKey m) else 0).
Proof.
  unfold weight. rewrite firstVotes_snoc.
  destruct (decide (MsgConsensus.PubKey m ∈ MsgConsensus.PubKey <$> firstVotes ms)) as [Hin|Hnin].
  - rewrite decide_True; [done|]. now apply firstVotes_senders.
  - rewrite decide_False by (now rewrite <- firstVotes_senders).
    rewrite weightOf_app. cbn [weightOf]. lia.
Qed.

(** ** The counting loop *)

Lemma countLoop_app limit (c : user.Context Vote) t evs1 evs2 t' :
  countLoop limit c t evs1 = Waiting t' ->
  countLoop limit c t (evs1 ++ evs2) = countLoop limit c t' evs2.
Proof.
  revert t. induction evs1 as [|ev evs1 IH]; intros t H; cbn in *.
  - now inversion H.
  - destruct ev as [|m]; [discriminate|].
    destruct (voteCase limit c t m); try discriminate. now apply IH.
Qed.

Lemma countLoop_app_waiting limit (c : user.Context Vote) t evs1 evs2 t'' :
  countLoop limit c t (evs1 ++ evs2) = Waiting t'' ->
  exists t', countLoop limit c t evs1 = Waiting t'.
Proof.
  revert t. induction evs1 as [|ev evs1 IH]; intros t H; cbn in *.
  - eauto.
  - destruct ev as [|m]; [discriminate|].
    destruct (voteCase limit c t m); try discriminate. now apply IH.
Qed.

(** The loop after one more message. *)
Lemma countLoop_snoc limit (c : user.Context Vote) t0 ms m t :
  countLoop limit c t0 (Recv <$> ms) = Waiting t ->
  countLoop limit c t0 (Recv <$> (ms ++ [m])) =
  match voteCase limit c t m with
  | Continue t' => Waiting t'
  | Return c' pl => Returned c' (ExitQuorum pl) []
  | Panicked => LoopPanic []
  end.
Proof.
  intros H. rewrite fmap_app. rewrite (countLoop_app _ _ _ _ _ _ H). cbn.
  now destruct (voteCase limit c t m).
Qed.

Lemma Counted_empty committee : @Counted Vote committee [] emptyTally.
Proof.
  split.
  - intros pk. cbn. rewrite map_get_empty. split; [done|]. intros H. inversion H.
  - intros h. cbn. now rewrite map_get_empty.
  - now left.
Qed.

Lemma voteLimit_small (c : user.Context Vote) :
  Z.of_nat (length (user.CurrentCommittee c)) < 256 ->
  voteLimit c = Z.of_nat (length (user.CurrentCommittee c)).
Proof. intros H. unfold voteLimit, Go.uint8. apply Z.mod_small. lia. Qed.

(** A message of a sender already counted is dropped. *)
Lemma voteCase_duplicate limit (c : user.Context Vote) t m pl :
  votePayload m = Some pl ->
  Go.map_get false (voters t) (Go.EncodeToString (MsgConsensus.PubKey m)) = true ->
  voteCase limit c t m = Continue t.
Proof.
  unfold votePayload, voteCase. intros Hpl Hv.
  destruct (MsgConsensus.Payload m); try discriminate. now rewrite Hv.
Qed.

Lemma map_get_bool_not_true (m : gmap string bool) k :
  Go.map_get false m k <> true -> Go.map_get false m k = false.
Proof. now destruct (Go.map_get false m k). Qed.

(** A message of a new sender is counted, and ends the loop when its hash
    reaches the limit. *)
Lemma voteCase_fresh (c : user.Context Vote) ms t m pl :
  Z.of_nat (length (user.CurrentCommittee c)) < 256 ->
  Counted (user.CurrentCommittee c) ms t ->
  votePayload m = Some pl ->
  MsgConsensus.PubKey m ∉ MsgConsensus.PubKey <$> ms ->
  let w := weight (user.CurrentCommittee c) (ms ++ [m]) (votedHash m) in
  voteCase (voteLimit c) c t m =
  if w <? Z.of_nat (length (user.CurrentCommittee c))
  then
    Continue
      (mkTally
         (<[Go.EncodeToString (votedHash m) := w]> (counts t))
         (<[Go.EncodeToString (MsgConsensus.PubKey m) := true]> (voters t)))
  else
    Return
      (user.set_SigSetVotes
         (Go.map_get [] (user.AllVotes c) (Go.EncodeToString (votedHash m)))
         (user.set_SigSetHash (SigSetVote.SigSetHash pl) c))
      pl.
Proof.
  intros Hlen [Hv Hc Hb] Hpl Hfresh w.
  assert (Hh : votedHash m = Go.bytes_of (SigSetVote.SigSetHash pl)).
  { unfold votedHash. now rewrite Hpl. }
  unfold voteCase. unfold votePayload in Hpl.
  destruct (MsgConsensus.Payload m) as [pl'| |]; try discriminate.
  injection Hpl as ->.
  rewrite map_get_bool_not_true by (rewrite Hv; exact Hfresh).
  rewrite map_get_insert, decide_True by done.
  rewrite <- Hh, Hc, voteLimit_small by done.
  rewrite Verify_seats by done.
  assert (Hw : w = weight (user.CurrentCommittee c) ms (votedHash m)
                   + seats (user.CurrentCommittee c) (MsgConsensus.PubKey m)).
  { unfold w. rewrite weight_snoc, decide_False, decide_True by done. done. }
  pose proof (weight_le_committee (user.CurrentCommittee c) (ms ++ [m]) (votedHash m)).
  pose proof (weightOf_nonneg (user.CurrentCommittee c) (firstVotes (ms ++ [m])) (votedHash m)).
  fold (weight (user.CurrentCommittee c) (ms ++ [m]) (votedHash m)) in *.
  fold w in H, H0.
  rewrite <- Hw. unfold Go.uint8. rewrite Z.mod_small by lia. done.
Qed.

Lemma counting_invariant (c : user.Context Vote) ms t :
  Z.of_nat (length (user.CurrentCommittee c)) < 256 ->
  countLoop (voteLimit c) c emptyTally (Recv <$> ms) = Waiting t ->
  Counted (user.CurrentCommittee c) ms t.
Proof.
  intros Hlen. revert t. induction ms as [|m ms IH] using rev_ind; intros t Hrun.
  - cbn in Hrun. injection Hrun as <-. apply Counted_empty.
  - pose proof Hrun as Hrun'. rewrite fmap_app in Hrun'.
    apply countLoop_app_waiting in Hrun' as [t' Ht'].
    specialize (IH t' Ht'). rewrite (countLoop_snoc _ _ _ _ _ _ Ht') in Hrun.
    destruct (votePayload m) as [pl|] eqn:Hpl.
    2:{ unfold votePayload in Hpl. unfold voteCase in Hrun.
        destruct (MsgConsensus.Payload m); discriminate. }
    destruct (decide (MsgConsensus.PubKey m ∈ MsgConsensus.PubKey <$> ms)) as [Hdup|Hfresh].
    + rewrite (voteCase_duplicate _ _ _ _ pl Hpl) in Hrun
        by (now apply (counted_voters _ _ _ IH)).
      injection Hrun as <-. destruct IH as [Hv Hc Hb]. split.
      * intros pk. rewrite Hv, fmap_app, elem_of_app. cbn.
        rewrite list_elem_of_singleton. split; [tauto|]. now intros [?| ->].
      * intros h. now rewrite weight_snoc, decide_True.
      * right. intros h. rewrite weight_snoc, decide_True by done.
        destruct Hb as [->|Hb]; [inversion Hdup|apply Hb].
    + rewrite (voteCase_fresh c ms t' m pl Hlen IH Hpl Hfresh) in Hrun.
      destruct (Z.ltb_spec
                  (weight (user.CurrentCommittee c) (ms ++ [m]) (votedHash m))
                  (Z.of_nat (length (user.CurrentCommittee c)))) as [Hlt|Hge];
        [|discriminate].
      injection Hrun as <-. destruct IH as [Hv Hc Hb]. split; cbn.
      * intros pk. rewrite map_get_insert, fmap_app, elem_of_app. cbn.
        rewrite list_elem_of_singleton.
        destruct (decide (Go.EncodeToString (MsgConsensus.PubKey m) = Go.EncodeToString pk))
          as [Heq|Hne].
        -- apply Go_facts.EncodeToString_inj in Heq. subst pk. tauto.
        -- rewrite Hv. split; [tauto|]. intros [?| ->]; [done|congruence].
      * intros h. rewrite map_get_insert.
        destruct (decide (Go.EncodeToString (votedHash m) = Go.EncodeToString h))
          as [Heq|Hne].
        -- apply Go_facts.EncodeToString_inj in Heq. now subst h.
        -- rewrite Hc, weight_snoc, decide_False by done.
           rewrite decide_False by congruence. lia.
      * right. intros h. destruct (decide (votedHash m = h)) as [<-|Hne]; [done|].
        rewrite weight_snoc, decide_False by done. rewrite decide_False by done.
        pose proof (weightOf_nonneg (user.CurrentCommittee c) (firstVotes (ms ++ [m])) (votedHash m)) as Hnn.
        fold (weight (user.CurrentCommittee c) (ms ++ [m]) (votedHash m)) in Hnn.
        destruct Hb as [->|Hb]; [cbn; lia|]. specialize (Hb h). lia.
Qed.

(** While the count is running, the next vote ends it, and forwards its
    hash, exactly when the seats of the deduplicated senders on that hash
    reach the vote limit, which is the size of the whole current committee;
    below the limit the count goes on. *)
Lemma next_vote_outcome
    (c : user.Context Vote) (ms : list Message) (m : Message)
    (pl : SigSetVote.t) (t : Tally) :
  Z.of_nat (length (user.CurrentCommittee c)) < 256 ->
  votePayload m = Some pl ->
  countLoop (voteLimit c) c emptyTally (Recv <$> ms) = Waiting t ->
  let w := weight (user.CurrentCommittee c) (ms ++ [m]) (votedHash m) in
  (Z.of_nat (length (user.CurrentCommittee c)) <= w ->
   countLoop (voteLimit c) c emptyTally (Recv <$> (ms ++ [m]))
   = Returned (forwarded c pl) (ExitQuorum pl) [])
  /\ (w < Z.of_nat (length (user.CurrentCommittee c)) ->
      exists t', countLoop (voteLimit c) c emptyTally (Recv <$> (ms ++ [m]))
                 = Waiting t').
Proof.
  intros Hlen Hpl Hrun w.
  pose proof (counting_invariant c ms t Hlen Hrun) as Hinv.
  rewrite (countLoop_snoc _ _ _ _ _ _ Hrun).
  assert (Hh : votedHash m = Go.bytes_of (SigSetVote.SigSetHash pl)).
  { unfold votedHash. now rewrite Hpl. }
  destruct (decide (MsgConsensus.PubKey m ∈ MsgConsensus.PubKey <$> ms)) as [Hdup|Hfresh].
  - rewrite (voteCase_duplicate _ _ _ _ pl Hpl)
      by (now apply (counted_voters _ _ _ Hinv)).
    assert (Hw : w < Z.of_nat (length (user.CurrentCommittee c))).
    { unfold w. rewrite weight_snoc, decide_True by done.
      destruct (counted_below _ _ _ Hinv) as [->|Hb]; [inversion Hdup|apply Hb]. }
    split; [lia|eauto].
  - rewrite (voteCase_fresh c ms t m pl Hlen Hinv Hpl Hfresh). fold w.
    destruct (Z.ltb_spec w (Z.of_nat (length (user.CurrentCommittee c)))) as [Hlt|Hge].
    + split; [lia|eauto].
    + split; [|lia]. intros _. unfold forwarded. now rewrite Hh.
Qed.

Lemma countLoop_app_returned limit (c : user.Context Vote) t evs1 evs2 c' exit rest :
  countLoop limit c t evs1 = Returned c' exit rest ->
  countLoop limit c t (evs1 ++ evs2) = Returned c' exit (rest ++ evs2).
Proof.
  revert t. induction evs1 as [|ev evs1 IH]; intros t H; cbn in *; [discriminate|].
  destruct ev as [|m].
  - now injection H as <- <- <-.
  - destruct (voteCase limit c t m) as [t'|c1 pl|]; try discriminate.
    + now apply IH.
    + now injection H as <- <- <-.
Qed.

Lemma weightAt_app_l committee (ms : list Message) m k x :
  (k < length ms)%nat ->
  weightAt committee (ms ++ [m]) k x = weightAt committee ms k x.
Proof. intros Hk. unfold weightAt. now rewrite take_app_le by lia. Qed.

Lemma weightAt_last committee (ms : list Message) m :
  weightAt committee (ms ++ [m]) (length ms) m
  = weight committee (ms ++ [m]) (votedHash m).
Proof.
  unfold weightAt. now rewrite take_ge by (rewrite length_app; cbn; lia).
Qed.

(** C1, as amended. For every sequence of incoming votes, with a current
    committee of at most 255 seats: the count returns, forwarding a hash, at
    the first vote that brings the seats of the deduplicated senders on its
    hash to the vote limit, which is the size of the whole current committee
    (not two thirds of it); as long as no vote does, the count is still
    running: no hash is forwarded at a lower weight. *)
Theorem countSigSetVotes_forwards_at_vote_limit
    (c : user.Context Vote) (ms : list Message) :
  Z.of_nat (length (user.CurrentCommittee c)) < 256 ->
  Forall (fun m => is_Some (votePayload m)) ms ->
  countedTo (Z.of_nat (length (user.CurrentCommittee c))) c ms
    (countLoop (voteLimit c) c emptyTally (Recv <$> ms)).
Proof.
  intros Hlen. induction ms as [|m ms IH] using rev_ind; intros Hvotes.
  - cbn. intros k m Hk. discriminate.
  - apply Forall_app in Hvotes as [Hms Hm]. apply Forall_singleton in Hm as [pl Hpl].
    specialize (IH Hms). rewrite fmap_app.
    destruct (countLoop (voteLimit c) c emptyTally (Recv <$> ms))
      as [c' exit rest|t0|rest] eqn:Hrun; cbn [countedTo] in IH.
    + rewrite (countLoop_app_returned _ _ _ _ _ _ _ _ Hrun). cbn [countedTo].
      destruct IH as (k & x & plx & Hk & Hplx & -> & -> & -> & Hreach & Hbefore).
      pose proof (lookup_lt_Some _ _ _ Hk) as Hlt.
      exists k, x, plx. repeat split; try done.
      * now rewrite lookup_app_l.
      * rewrite drop_app_le by lia. now rewrite fmap_app.
      * now rewrite weightAt_app_l.
      * intros j y Hj Hy. rewrite lookup_app_l in Hy by lia.
        rewrite weightAt_app_l by lia. now apply (Hbefore j y).
    + destruct (next_vote_outcome c ms m pl t0 Hlen Hpl Hrun) as [Hreach Hgo].
      rewrite <- fmap_app.
      destruct (Z.lt_ge_cases
                  (weight (user.CurrentCommittee c) (ms ++ [m]) (votedHash m))
                  (Z.of_nat (length (user.CurrentCommittee c)))) as [Hlt|Hle].
      * destruct (Hgo Hlt) as [t' ->]. cbn [countedTo].
        intros k x Hk. destruct (decide (k < length ms)%nat) as [Hk'|Hk'].
        -- rewrite lookup_app_l in Hk by exact Hk'.
           rewrite weightAt_app_l by exact Hk'. now apply IH.
        -- assert (k = length ms).
           { apply lookup_lt_Some in Hk. rewrite length_app in Hk. cbn in Hk. lia. }
           subst k. rewrite list_lookup_middle in Hk by reflexivity.
           injection Hk as <-. now rewrite weightAt_last.
      * rewrite (Hreach Hle). cbn [countedTo].
        exists (length ms), m, pl. repeat split; try done.
        -- now rewrite list_lookup_middle.
        -- rewrite drop_ge by (rewrite length_app; cbn; lia). reflexivity.
        -- now rewrite weightAt_last.
        -- intros j y Hj Hy. rewrite lookup_app_l in Hy by exact Hj.
           rewrite weightAt_app_l by exact Hj. now apply IH.
    + contradiction.
Qed.

(** C7. A vote message whose sender already had a message processed in this
    step is dropped: the tally (per-hash counts and voters) is unchanged, and
    so is the outcome of the step whatever follows. The generation phase drops
    a candidate of a recorded sender the same way. *)
Theorem duplicate_sender_is_dropped
    (ext : Externals) (limit : Z) (c : user.Context Vote)
    (pre : list Message) (t : Tally) (m0 m : Message) (pl : SigSetVote.t)
    (post : list SelectEvent) :
  countLoop limit c emptyTally (Recv <$> pre) = Waiting t ->
  m0 ∈ pre ->
  MsgConsensus.PubKey m0 = MsgConsensus.PubKey m ->
  votePayload m = Some pl ->
  voteCase limit c t m = Continue t
  /\ countLoop limit c emptyTally (Recv <$> (pre ++ [m])) = Waiting t
  /\ countLoop limit c emptyTally ((Recv <$> pre) ++ Recv m :: post)
     = countLoop limit c emptyTally ((Recv <$> pre) ++ post)
  /\ (forall cg voters highest cand,
        MsgConsensus.Payload m = MsgConsensus.PlSigSetCandidate cand ->
        Go.map_get false voters (Go.EncodeToString (MsgConsensus.PubKey m)) = true ->
        candidateCase ext cg voters highest m = GenContinue cg voters highest).
Proof.
  intros Hrun Hin Hpk Hpl.
  assert (Hrec : Go.map_get false (voters t)
                   (Go.EncodeToString (MsgConsensus.PubKey m)) = true).
  { clear Hpl post. revert t Hrun.
    induction pre as [|x pre IH] using rev_ind; intros t Hrun; [inversion Hin|].
    pose proof Hrun as Hrun'. rewrite fmap_app in Hrun'.
    apply countLoop_app_waiting in Hrun' as [t' Ht'].
    rewrite (countLoop_snoc _ _ _ _ _ _ Ht') in Hrun.
    unfold voteCase in Hrun.
    destruct (MsgConsensus.Payload x) as [plx| |]; try discriminate.
    apply elem_of_app in Hin as [Hin|Hin].
    - specialize (IH Hin t' Ht').
      destruct (Go.map_get false (voters t') (Go.EncodeToString (MsgConsensus.PubKey x))).
      + now injection Hrun as <-.
      + destruct (_ <? _); [|discriminate]. injection Hrun as <-. cbn.
        rewrite map_get_insert. destruct (decide _); [done|apply IH].
    - apply list_elem_of_singleton in Hin. subst x. rewrite <- Hpk.
      destruct (Go.map_get false (voters t') (Go.EncodeToString (MsgConsensus.PubKey m0))) eqn:Hv.
      + now injection Hrun as <-.
      + destruct (_ <? _); [|discriminate]. injection Hrun as <-. cbn.
        rewrite map_get_insert. now rewrite decide_True. }
  pose proof (voteCase_duplicate limit c t m pl Hpl Hrec) as Hcase.
  split; [exact Hcase|]. split.
  - rewrite (countLoop_snoc _ _ _ _ _ _ Hrun). now rewrite Hcase.
  - split.
    + rewrite !(countLoop_app _ _ _ _ _ _ Hrun). cbn. now rewrite Hcase.
    + intros cg vs highest cand Hcand Hvs. unfold candidateCase.
      now rewrite Hcand, Hvs.
Qed.

(** ** SignatureSet *)

Section Phases.

Variable ext : @Externals Vote.
Variable chan : @World Vote -> ChanState.

#[local] Existing Instance M_ret.
#[local] Existing Instance M_bind.

Lemma phase_bind_ok {A B} (mx : @M Vote A) (k : A -> @M Vote B) w a w' :
  mx w = (Ok a, w') -> (mx ≫= k) w = k a w'.
Proof. intros H. unfold mbind, M_bind, bind. now rewrite H. Qed.

Lemma countSigSetVotes'_timer (w : @World Vote) (ms : list Message) rest t :
  inbox w = (Recv <$> ms) ++ TimerC :: rest ->
  countLoop (voteLimit (ctx w)) (ctx w) emptyTally (Recv <$> ms) = Waiting t ->
  countSigSetVotes' w
  = (Ok ExitTimer, mkWorld (user.set_SigSetHash None (ctx w)) rest (trace w)).
Proof.
  intros Hin Hrun. unfold countSigSetVotes'.
  now rewrite Hin, (countLoop_app _ _ _ _ _ _ Hrun).
Qed.

Lemma countSigSetVotes_ok (w w' : @World Vote) exit :
  countSigSetVotes' w = (Ok exit, w') -> countSigSetVotes w = (Ok tt, w').
Proof. intros H. unfold countSigSetVotes. now rewrite (phase_bind_ok _ _ _ _ _ H). Qed.

(** When the timer of the first count fires before any hash has reached the
    limit, [SignatureSet] assigns the fallback, 32 zero bytes, to the hash of
    the context, and goes on with the second vote. *)
Lemma first_step_timeout_assigns_fallback
    (w w1 : @World Vote) (ms : list Message) (rest : list SelectEvent) (t : Tally) :
  sigSetVote ext chan w = (Ok tt, w1) ->
  inbox w1 = (Recv <$> ms) ++ TimerC :: rest ->
  countLoop (voteLimit (ctx w1)) (ctx w1) emptyTally (Recv <$> ms) = Waiting t ->
  exists w2,
    SignatureSet_step1 ext chan w = (Ok tt, w2)
    /\ user.SigSetHash (ctx w2) = Some (replicate 32 x00)
    /\ user.Step (ctx w2) = Go.uint8 (user.Step (ctx w1) + 1)
    /\ inbox w2 = rest
    /\ SignatureSet ext chan w = SignatureSet_step2 ext chan w2.
Proof.
  intros Hvote Hin Hrun.
  pose proof (countSigSetVotes'_timer w1 ms rest t Hin Hrun) as Hcount.
  assert (H1 : exists w2, SignatureSet_step1 ext chan w = (Ok tt, w2)
             /\ user.SigSetHash (ctx w2) = Some (replicate 32 x00)
             /\ user.Step (ctx w2) = Go.uint8 (user.Step (ctx w1) + 1)
             /\ inbox w2 = rest).
  { eexists. split; [|split; [|split]].
    - unfold SignatureSet_step1. rewrite (phase_bind_ok _ _ _ _ _ Hvote).
      rewrite (phase_bind_ok _ _ _ _ _ (countSigSetVotes_ok _ _ _ Hcount)).
      cbn. reflexivity.
    - reflexivity.
    - reflexivity.
    - reflexivity. }
  destruct H1 as (w2 & Hs1 & Hh & Hst & Hib). exists w2.
  repeat split; try assumption.
  unfold SignatureSet. now rewrite (phase_bind_ok _ _ _ _ _ Hs1).
Qed.

Lemma voteCase_return limit (c c' : user.Context Vote) t m pl :
  voteCase limit c t m = Return c' pl -> c' = forwarded c pl.
Proof.
  unfold voteCase. destruct (MsgConsensus.Payload m) as [pl'| |]; try discriminate.
  destruct (Go.map_get false _ _); [discriminate|].
  destruct (_ <? _); [discriminate|]. intros H. injection H as <- <-. reflexivity.
Qed.

Lemma countLoop_returned limit (c c' : user.Context Vote) t evs exit rest :
  countLoop limit c t evs = Returned c' exit rest ->
  match exit with
  | ExitTimer => c' = user.set_SigSetHash None c
  | ExitQuorum pl => c' = forwarded c pl
  end.
Proof.
  revert t. induction evs as [|ev evs IH]; intros t H; cbn in H; [discriminate|].
  destruct ev as [|m].
  - now injection H as <- <- <-.
  - destruct (voteCase limit c t m) as [t'|c1 pl|] eqn:Hcase; try discriminate.
    + now apply (IH t').
    + injection H as <- <- <-. now apply voteCase_return in Hcase.
Qed.

Lemma countSigSetVotes'_returned (w w' : @World Vote) exit :
  countSigSetVotes' w = (Ok exit, w') ->
  trace w' = trace w
  /\ match exit with
     | ExitTimer => ctx w' = user.set_SigSetHash None (ctx w)
     | ExitQuorum pl => ctx w' = forwarded (ctx w) pl
     end.
Proof.
  unfold countSigSetVotes'.
  destruct (countLoop _ _ _ _) as [c' e rest| |] eqn:Hloop; try discriminate.
  intros H. injection H as <- <-. split; [reflexivity|].
  apply (countLoop_returned _ _ _ _ _ _ _ Hloop).
Qed.

Lemma SignatureSet_conclude_eq (w : @World Vote) :
  SignatureSet_conclude ext w =
  match user.SigSetHash (ctx w) with
  | None => (Ok tt, mkWorld (advanced (ctx w)) (inbox w) (trace w))
  | Some h =>
      if decide (h = replicate 32 x00)
      then (Ok tt,
            mkWorld (user.set_SigSetHash None (advanced (ctx w))) (inbox w) (trace w))
      else
        let answer := agreement_SendSet ext (advanced (ctx w)) (user.SigSetVotes (ctx w)) in
        (match snd answer with Some e => Err e | None => Ok tt end,
         mkWorld (fst answer) (inbox w)
           (trace w ++ [SendSet (user.SigSetVotes (ctx w))]))
  end.
Proof.
  unfold SignatureSet_conclude, mbind, M_bind, bind, modifyCtx, getCtx,
    advanced, fallback, Go.make_bytes, Go.bytes_Equal.
  unfold user.set_Step.
  cbn [ctx inbox trace fst snd user.SigSetHash user.SigSetVotes].
  destruct (user.SigSetHash (ctx w)) as [h|]; [|reflexivity].
  destruct (decide (h = replicate 32 x00)) as [Hz|Hnz].
  - rewrite bool_decide_eq_true_2 by exact Hz. reflexivity.
  - rewrite bool_decide_eq_false_2 by exact Hnz.
    unfold callSendSet, check. cbn [ctx inbox trace].
    destruct (agreement_SendSet ext _ _) as [c' [e|]]; reflexivity.
Qed.

(** C5. Once the second count has concluded, the agreement send routine is
    called, with the vote set recorded for the winning hash, exactly when the
    count ended by a quorum on a non-empty hash: the function then returns
    what [agreement.SendSet] answers on these votes, on the context that call
    leaves, and the call is the one effect added. After a timeout, or a
    quorum on the 32 zero bytes, the function returns nil without the call:
    it adds no effect and leaves the hash nil. *)
Theorem agreement_sent_iff_quorum_on_nonempty_hash
    (w w1 w2 : @World Vote) (exit : Exit) :
  sigSetVote ext chan w = (Ok tt, w1) ->
  countSigSetVotes' w1 = (Ok exit, w2) ->
  match quorumOnNonEmptyHash exit with
  | Some h =>
      let votes := Go.map_get [] (user.AllVotes (ctx w1)) (Go.EncodeToString h) in
      let answer := agreement_SendSet ext (advanced (ctx w2)) votes in
      user.SigSetVotes (ctx w2) = votes
      /\ SignatureSet_step2 ext chan w
         = (match snd answer with Some e => Err e | None => Ok tt end,
            mkWorld (fst answer) (inbox w2) (trace w1 ++ [SendSet votes]))
      /\ trace (snd (SignatureSet_step2 ext chan w)) = trace w1 ++ [SendSet votes]
  | None =>
      SignatureSet_step2 ext chan w
      = (Ok tt,
         mkWorld (user.set_SigSetHash None (advanced (ctx w2))) (inbox w2) (trace w1))
  end.
Proof.
  intros Hvote Hcount.
  destruct (countSigSetVotes'_returned _ _ _ Hcount) as [Htr Hctx].
  unfold SignatureSet_step2. rewrite (phase_bind_ok _ _ _ _ _ Hvote).
  rewrite (phase_bind_ok _ _ _ _ _ (countSigSetVotes_ok _ _ _ Hcount)).
  rewrite SignatureSet_conclude_eq, Htr.
  destruct exit as [|pl]; cbn [quorumOnNonEmptyHash].
  - rewrite Hctx. reflexivity.
  - assert (Hhash : user.SigSetHash (ctx w2) = SigSetVote.SigSetHash pl)
      by (rewrite Hctx; reflexivity).
    rewrite Hhash.
    destruct (SigSetVote.SigSetHash pl) as [h|] eqn:Hh.
    + destruct (decide (h = replicate 32 x00)) as [Hz|Hnz]; [reflexivity|].
      cbn zeta.
      assert (Hvotes : user.SigSetVotes (ctx w2)
                       = Go.map_get [] (user.AllVotes (ctx w1)) (Go.EncodeToString h)).
      { rewrite Hctx. unfold forwarded. cbn. now rewrite Hh. }
      rewrite Hvotes. done.
    + rewrite Hctx. unfold forwarded, advanced. cbn. rewrite Hh. reflexivity.
Qed.

End Phases.

End Counting.
End consensus_facts.

Module encoding_facts.
Import events encoding.

Lemma byteZ_Zbyte_mod z : byteZ (Zbyte z) = z mod 256.
Proof.
  unfold byteZ, Zbyte. pose proof (Z.mod_pos_bound z 256 ltac:(lia)) as Hm.
  destruct (Byte.of_N (Z.to_N (z mod 256))) as [b|] eqn:Hb.
  - cbn. apply Byte.to_of_N in Hb. lia.
  - apply Byte.of_N_None_iff in Hb. lia.
Qed.

Lemma byteZ_Zbyte z : 0 <= z < 256 -> byteZ (Zbyte z) = z.
Proof. intros Hz. rewrite byteZ_Zbyte_mod. now apply Z.mod_small. Qed.

Lemma byteZ_range b : 0 <= byteZ b < 256.
Proof. unfold byteZ. pose proof (Byte.to_N_bounded b). lia. Qed.

Lemma getLE_putLE n v : 0 <= v < 256 ^ Z.of_nat n -> getLE (putLE n v) = v.
Proof.
  revert v. induction n as [|n IH]; intros v Hv.
  - cbn in *. lia.
  - cbn [putLE getLE]. rewrite Nat2Z.inj_succ, Z.pow_succ_r in Hv by lia.
    rewrite byteZ_Zbyte_mod.
    rewrite IH.
    + pose proof (Z.div_mod v 256). lia.
    + split; [apply Z.div_pos; lia|]. apply Z.div_lt_upper_bound; lia.
Qed.

Lemma length_putLE n v : length (putLE n v) = n.
Proof. revert v. induction n; intros; cbn; auto. Qed.

Lemma getInt_putInt order n v :
  0 <= v < 256 ^ Z.of_nat n -> getInt order (putInt order n v) = v.
Proof.
  intros Hv. destruct order; cbn; [|rewrite rev_involutive]; now apply getLE_putLE.
Qed.

Lemma length_putInt order n v : length (putInt order n v) = n.
Proof. destruct order; cbn; [|rewrite length_rev]; apply length_putLE. Qed.

Lemma readFixed_app bs rest : readFixed (length bs) (bs ++ rest) = inr (bs, rest).
Proof.
  unfold readFixed. rewrite length_app.
  destruct (Nat.ltb_spec (length bs + length rest) (length bs)); [lia|].
  now rewrite take_app_length, drop_app_length.
Qed.

Lemma readInt_putInt order n v rest :
  0 <= v < 256 ^ Z.of_nat n ->
  readInt order n (putInt order n v ++ rest) = inr (v, rest).
Proof.
  intros Hv. unfold readInt.
  rewrite <- (length_putInt order n v) at 1. rewrite readFixed_app.
  now rewrite getInt_putInt.
Qed.

Lemma writeChecked_read n b bs rest :
  writeChecked n b = inr bs -> readFixed n (bs ++ rest) = inr (b, rest).
Proof.
  unfold writeChecked. destruct (Nat.eqb_spec (length b) n) as [<-|]; [|discriminate].
  intros H. injection H as <-. apply readFixed_app.
Qed.

Lemma ReadVarInt_WriteVarInt v bs rest :
  0 <= v < 2 ^ 64 ->
  WriteVarInt v = inr bs -> ReadVarInt (bs ++ rest) = inr (v, rest).
Proof.
  intros Hv. unfold WriteVarInt.
  destruct (Z.ltb_spec v 253).
  - intros H'. injection H' as <-. cbn [app ReadVarInt].
    assert (Hb : byteZ (Zbyte v) = v) by (apply byteZ_Zbyte; lia).
    destruct (Zbyte v) eqn:Hd; try (now rewrite Hb);
      (cbv in Hb; lia).
  - destruct (Z.leb_spec v 65535).
    + intros H'. injection H' as <-. cbn [app ReadVarInt].
      apply (readInt_putInt LittleEndian 2). cbn. lia.
    + destruct (Z.leb_spec v 4294967295).
      * intros H'. injection H' as <-. cbn [app ReadVarInt].
        apply (readInt_putInt LittleEndian 4). cbn. lia.
      * intros H'. injection H' as <-. cbn [app ReadVarInt].
        apply (readInt_putInt LittleEndian 8). cbn. lia.
Qed.

Lemma ReadVarBytes_WriteVarBytes b bs rest :
  Z.of_nat (length b) < 2 ^ 64 ->
  WriteVarBytes b = inr bs -> ReadVarBytes (bs ++ rest) = inr (b, rest).
Proof.
  intros Hlen. unfold WriteVarBytes, ReadVarBytes.
  destruct (WriteVarInt (Z.of_nat (length b))) as [e|hd] eqn:Hw; [discriminate|].
  intros H. injection H as <-. rewrite <- app_assoc.
  assert (Hrange : 0 <= Z.of_nat (length b) < 2 ^ 64) by (split; [lia|exact Hlen]).
  rewrite (ReadVarInt_WriteVarInt _ _ _ Hrange Hw).
  rewrite Nat2Z.id. apply readFixed_app.
Qed.

End encoding_facts.

(** * The round trip of the marshallers *)

Module events_facts.
Import events events_props.

Lemma wire_laws : EncodingLaws encoding.wire.
Proof.
  split; cbn.
  - apply encoding_facts.ReadVarBytes_WriteVarBytes.
  - intros order v bs rest Hv H. injection H as <-.
    apply encoding_facts.readInt_putInt. cbn. lia.
  - intros v bs rest Hv H. injection H as <-.
    apply (encoding_facts.readInt_putInt LittleEndian 1). cbn. lia.
  - apply encoding_facts.writeChecked_read.
  - apply encoding_facts.writeChecked_read.
  - apply encoding_facts.ReadVarInt_WriteVarInt.
Qed.

Section RoundTrip.

Variable enc : Encoding.
Hypothesis laws : EncodingLaws enc.

#[local] Existing Instance Result_bind.

Lemma write_inv r w buf :
  write r w = Ok buf -> exists bs, w = inr bs /\ buf = r ++ bs.
Proof. destruct w as [e|bs]; cbn; [discriminate|]. intros H. injection H as <-. eauto. Qed.

Lemma result_bind_inv {A B} (x : Result A) (k : A -> Result B) b :
  x ≫= k = Ok b -> exists a, x = Ok a /\ k a = Ok b.
Proof. destruct x; cbn; try discriminate. eauto. Qed.

Lemma Header_roundtrip r h buf dst :
  wfHeader h ->
  Header_Marshal enc r (EvHeader h) = Ok buf ->
  exists bs, buf = r ++ bs
    /\ forall rest, Header_Unmarshal enc (bs ++ rest) (EvHeader dst) = Ok (rest, EvHeader h).
Proof.
  intros (Hpk & Hround & Hstep). unfold Header_Marshal.
  intros H.
  apply result_bind_inv in H as (r1 & H1 & H). apply write_inv in H1 as (b1 & W1 & ->).
  apply result_bind_inv in H as (r2 & H2 & H). apply write_inv in H2 as (b2 & W2 & ->).
  apply result_bind_inv in H as (r3 & H3 & H). apply write_inv in H3 as (b3 & W3 & ->).
  injection H as <-.
  exists (b1 ++ b2 ++ b3). split; [now rewrite !app_assoc|].
  intros rest. unfold Header_Unmarshal.
  rewrite <- !app_assoc.
  rewrite (law_VarBytes enc laws _ _ _ Hpk W1). cbn.
  rewrite (law_Uint64 enc laws _ _ _ _ Hround W2). cbn.
  rewrite (law_Uint8 enc laws _ _ _ Hstep W3). cbn.
  now destruct h.
Qed.

Lemma unmarshalHeader_roundtrip r h buf dst :
  wfHeader h ->
  Header_Marshal enc r (EvHeader h) = Ok buf ->
  exists bs, buf = r ++ bs
    /\ forall rest, unmarshalHeader enc (bs ++ rest) dst = Ok (rest, h).
Proof.
  intros Hwf H. destruct (Header_roundtrip r h buf dst Hwf H) as (bs & -> & Hrt).
  exists bs. split; [done|]. intros rest. unfold unmarshalHeader.
  now rewrite Hrt.
Qed.

Lemma Reduction_roundtrip r red buf dst :
  wfReduction red ->
  Reduction_Marshal enc r (EvReduction red) = Ok buf ->
  exists bs, buf = r ++ bs
    /\ forall rest,
         Reduction_Unmarshal enc (bs ++ rest) (EvReduction dst)
         = Ok (rest, EvReduction red).
Proof.
  intros Hwf. unfold Reduction_Marshal. intros H.
  apply result_bind_inv in H as (r1 & H1 & H).
  destruct (unmarshalHeader_roundtrip r (rHeader red) r1 (rHeader dst) Hwf H1)
    as (b1 & -> & Hrt).
  apply result_bind_inv in H as (r2 & H2 & H). apply write_inv in H2 as (b2 & W2 & ->).
  apply result_bind_inv in H as (r3 & H3 & H). apply write_inv in H3 as (b3 & W3 & ->).
  injection H as <-.
  exists (b1 ++ b2 ++ b3). split; [now rewrite !app_assoc|].
  intros rest. unfold Reduction_Unmarshal. rewrite <- !app_assoc.
  rewrite Hrt. cbn.
  rewrite (law_256 enc laws _ _ _ W2). cbn.
  rewrite (law_BLS enc laws _ _ _ W3). cbn.
  now destruct red.
Qed.

Lemma marshalVotes_roundtrip r evs buf :
  Forall wfVote evs ->
  marshalVotes enc r evs = Ok buf ->
  exists bs, buf = r ++ bs
    /\ forall rest, unmarshalVotes enc (length evs) (bs ++ rest) = Ok (rest, evs).
Proof.
  intros Hwf. revert r. induction Hwf as [|ev evs Hev Hevs IH]; intros r H.
  - cbn in H. injection H as <-. exists []. split; [now rewrite app_nil_r|].
    intros rest. reflexivity.
  - cbn [marshalVotes] in H. apply result_bind_inv in H as (r1 & H1 & H).
    destruct ev as [h|red|a]; try discriminate.
    destruct (Reduction_roundtrip r red r1 (mkReduction (mkHeader [] 0 0) [] []) Hev H1)
      as (b1 & -> & Hrt).
    destruct (IH _ H) as (b2 & -> & Hrest).
    exists (b1 ++ b2). split; [now rewrite app_assoc|].
    intros rest. cbn [length unmarshalVotes]. rewrite <- app_assoc.
    unfold blankReduction. rewrite Hrt. cbn. rewrite Hrest. reflexivity.
Qed.

Lemma VoteSet_roundtrip r evs buf :
  Z.of_nat (length evs) < 2 ^ 64 ->
  Forall wfVote evs ->
  MarshalVoteSet enc r evs = Ok buf ->
  exists bs, buf = r ++ bs
    /\ forall rest, UnmarshalVoteSet enc (bs ++ rest) = Ok (rest, evs).
Proof.
  intros Hlen Hwf. unfold MarshalVoteSet. intros H.
  apply result_bind_inv in H as (r1 & H1 & H). apply write_inv in H1 as (b1 & W1 & ->).
  destruct (marshalVotes_roundtrip _ _ _ Hwf H) as (b2 & -> & Hrt).
  exists (b1 ++ b2). split; [now rewrite app_assoc|].
  intros rest. unfold UnmarshalVoteSet. rewrite <- app_assoc.
  assert (Hrange : 0 <= Z.of_nat (length evs) < 2 ^ 64) by (split; [lia|exact Hlen]).
  unfold Go.uint64 in W1. rewrite Z.mod_small in W1 by exact Hrange.
  rewrite (law_VarInt enc laws _ _ _ Hrange W1). cbn.
  rewrite Nat2Z.id. apply Hrt.
Qed.

Lemma Agreement_roundtrip r (a : Agreement) buf dst :
  wfAgreement a ->
  Agreement_Marshal enc r (EvAgreement a) = Ok buf ->
  exists bs, buf = r ++ bs
    /\ forall rest,
         Agreement_Unmarshal enc (bs ++ rest) (EvAgreement dst)
         = Ok (rest, EvAgreement a).
Proof.
  intros (Hh & Hlen & Hvotes). unfold Agreement_Marshal. intros H.
  apply result_bind_inv in H as (r1 & H1 & H).
  destruct (unmarshalHeader_roundtrip r (aHeader a) r1 (aHeader dst) Hh H1)
    as (b1 & -> & Hrt).
  apply result_bind_inv in H as (r2 & H2 & H). apply write_inv in H2 as (b2 & W2 & ->).
  apply result_bind_inv in H as (r3 & H3 & H).
  destruct (VoteSet_roundtrip _ _ _ Hlen Hvotes H3) as (b3 & -> & Hvs).
  apply result_bind_inv in H as (r4 & H4 & H). apply write_inv in H4 as (b4 & W4 & ->).
  injection H as <-.
  exists (b1 ++ b2 ++ b3 ++ b4). split; [now rewrite !app_assoc|].
  intros rest. unfold Agreement_Unmarshal. rewrite <- !app_assoc.
  rewrite Hrt. cbn.
  rewrite (law_BLS enc laws _ _ _ W2). cbn.
  rewrite Hvs. cbn.
  rewrite (law_256 enc laws _ _ _ W4). cbn.
  now destruct a.
Qed.

End RoundTrip.

(** C9. For every consensus event whose integers are within their Go types,
    and every encoding package whose reads invert its writes: unmarshalling
    the buffer that marshalling the event produced yields the event, and
    consumes the whole buffer. This holds for the header, for a reduction and
    for an agreement, whatever the destination held before. *)
Theorem unmarshal_marshal_roundtrip (enc : Encoding) :
  EncodingLaws enc ->
  (forall h dst buf,
     wfHeader h ->
     Header_Marshal enc [] (EvHeader h) = Ok buf ->
     Header_Unmarshal enc buf (EvHeader dst) = Ok ([], EvHeader h))
  /\ (forall red dst buf,
        wfReduction red ->
        Reduction_Marshal enc [] (EvReduction red) = Ok buf ->
        Reduction_Unmarshal enc buf (EvReduction dst) = Ok ([], EvReduction red))
  /\ (forall (a dst : Agreement) buf,
        wfAgreement a ->
        Agreement_Marshal enc [] (EvAgreement a) = Ok buf ->
        Agreement_Unmarshal enc buf (EvAgreement dst) = Ok ([], EvAgreement a)).
Proof.
  intros laws. split; [|split].
  - intros h dst buf Hwf H.
    destruct (Header_roundtrip enc laws [] h buf dst Hwf H) as (bs & -> & Hrt).
    specialize (Hrt []). now rewrite app_nil_r in Hrt.
  - intros red dst buf Hwf H.
    destruct (Reduction_roundtrip enc laws [] red buf dst Hwf H) as (bs & -> & Hrt).
    specialize (Hrt []). now rewrite app_nil_r in Hrt.
  - intros a dst buf Hwf H.
    destruct (Agreement_roundtrip enc laws [] a buf dst Hwf H) as (bs & -> & Hrt).
    specialize (Hrt []). now rewrite app_nil_r in Hrt.
Qed.

End events_facts.

(** ** The wire encoding *)

Module wire_facts.
Import events events_props encoding.

#[local] Existing Instance Result_bind.

Lemma wire_WriteVarInt_total v : exists bs, encoding.WriteVarInt v = inr bs.
Proof.
  unfold encoding.WriteVarInt. destruct (_ <? _); [eauto|].
  destruct (_ <=? _); [eauto|]. destruct (_ <=? _); eauto.
Qed.

Lemma wire_Header_Marshal_total r h :
  exists buf, Header_Marshal wire r (EvHeader h) = Ok buf.
Proof.
  unfold Header_Marshal.
  cbn [events.WriteVarBytes events.WriteUint64 events.WriteUint8 wire].
  unfold encoding.WriteVarBytes.
  destruct (wire_WriteVarInt_total (Z.of_nat (length (PubKeyBLS h)))) as [bs ->].
  cbn. eauto.
Qed.

Lemma writeChecked_sized n b : length b = n -> writeChecked n b = inr b.
Proof. intros <-. unfold writeChecked. now rewrite Nat.eqb_refl. Qed.

Lemma wire_Reduction_Marshal_total r red :
  sizedReduction red ->
  exists buf, Reduction_Marshal wire r (EvReduction red) = Ok buf.
Proof.
  intros [Hv Hs]. unfold Reduction_Marshal.
  destruct (wire_Header_Marshal_total r (rHeader red)) as [b1 ->].
  cbn [mbind Result_bind bind events.Write256 events.WriteBLS wire].
  rewrite (writeChecked_sized 32 _ Hv). cbn.
  rewrite (writeChecked_sized 33 _ Hs). cbn. eauto.
Qed.

Lemma wire_marshalVotes_total r evs :
  Forall sizedVote evs -> exists buf, marshalVotes wire r evs = Ok buf.
Proof.
  intros H. revert r. induction H as [|ev evs Hev Hevs IH]; intros r; cbn; [eauto|].
  destruct ev as [h|red|a]; try contradiction.
  destruct (wire_Reduction_Marshal_total r red Hev) as [b1 ->]. cbn. apply IH.
Qed.

Lemma wire_Agreement_Marshal_total r (a : Agreement) :
  sizedAgreement a ->
  exists buf, Agreement_Marshal wire r (EvAgreement a) = Ok buf.
Proof.
  intros (Hs & Hh & Hvotes). unfold Agreement_Marshal.
  destruct (wire_Header_Marshal_total r (aHeader a)) as [b1 ->].
  cbn [mbind Result_bind bind events.Write256 events.WriteBLS wire].
  rewrite (writeChecked_sized 33 _ Hs). cbn.
  unfold MarshalVoteSet. cbn [events.WriteVarInt wire].
  destruct (wire_WriteVarInt_total (Go.uint64 (Z.of_nat (length (VoteSet a))))) as [bs ->].
  cbn.
  destruct (wire_marshalVotes_total ((b1 ++ SignedVoteSet a) ++ bs) (VoteSet a) Hvotes)
    as [b3 ->].
  cbn. rewrite (writeChecked_sized 32 _ Hh). cbn. eauto.
Qed.

(** With the wire encoding, every well-formed reduction and agreement whose
    fixed-size fields have their size is marshalled without error, and
    unmarshalling the buffer gives the event back. *)
Lemma wire_roundtrip :
  (forall red dst,
     wfReduction red -> sizedReduction red ->
     exists buf,
       Reduction_Marshal wire [] (EvReduction red) = Ok buf
       /\ Reduction_Unmarshal wire buf (EvReduction dst) = Ok ([], EvReduction red))
  /\ (forall (a dst : Agreement),
        wfAgreement a -> sizedAgreement a ->
        exists buf,
          Agreement_Marshal wire [] (EvAgreement a) = Ok buf
          /\ Agreement_Unmarshal wire buf (EvAgreement dst) = Ok ([], EvAgreement a)).
Proof.
  split.
  - intros red dst Hwf Hsized.
    destruct (wire_Reduction_Marshal_total [] red Hsized) as [buf Hbuf].
    exists buf. split; [exact Hbuf|].
    destruct (events_facts.Reduction_roundtrip wire events_facts.wire_laws [] red buf dst Hwf Hbuf)
      as (bs & -> & Hrt).
    specialize (Hrt []). now rewrite app_nil_r in Hrt.
  - intros a dst Hwf Hsized.
    destruct (wire_Agreement_Marshal_total [] a Hsized) as [buf Hbuf].
    exists buf. split; [exact Hbuf|].
    destruct (events_facts.Agreement_roundtrip wire events_facts.wire_laws [] a buf dst Hwf Hbuf)
      as (bs & -> & Hrt).
    specialize (Hrt []). now rewrite app_nil_r in Hrt.
Qed.

End wire_facts.

(** * Properties of the chain manager *)

Module chain_facts.
Import chain chain_props.

Lemma copyMember_id m : Provisioners.copyMember m = m.
Proof.
  destruct m as [pk stakes]. unfold Provisioners.copyMember. cbn. f_equal.
  induction stakes as [|s stakes IH]; [reflexivity|].
  cbn. rewrite IH. now destruct s.
Qed.

Lemma Copy_id p : Provisioners.Copy p = p.
Proof.
  destruct p as [set members]. unfold Provisioners.Copy. cbn. f_equal.
  rewrite <- (map_fmap_id members) at 2.
  apply map_fmap_ext. intros k m _. apply copyMember_id.
Qed.

Section Facts.

Context {ContractCall : Type}.

#[local] Abbreviation Block := (block.Block ContractCall).
#[local] Abbreviation Chain := (@Chain ContractCall).
#[local] Abbreviation M := (@M ContractCall).

#[local] Existing Instance M_ret.
#[local] Existing Instance M_bind.

(** C8. The round update of a chain has the round that follows the tip's
    height (in uint64 arithmetic, which is exact below 2^64 - 1), a copy of
    the provisioners with the same contents, and the tip's seed, hash and
    certificate. *)
Theorem getRoundUpdate_follows_tip (c : Chain) :
  let tipHeader := block.header (tip c) in
  let ru := getRoundUpdate c in
  RoundUpdate.Round ru = Go.uint64 (block.Height tipHeader + 1)
  /\ (0 <= block.Height tipHeader < 2 ^ 64 - 1 ->
      RoundUpdate.Round ru = block.Height tipHeader + 1)
  /\ RoundUpdate.P ru = Provisioners.Copy (p c)
  /\ RoundUpdate.P ru = p c
  /\ RoundUpdate.Seed ru = block.Seed tipHeader
  /\ RoundUpdate.Hash ru = block.Hash tipHeader
  /\ RoundUpdate.LastCertificate ru = block.Cert tipHeader.
Proof.
  cbn. repeat split; try reflexivity.
  - intros H. unfold Go.uint64. apply Z.mod_small. lia.
  - apply Copy_id.
Qed.

(** C10. A block below the tip's height, or at the tip's height with the
    tip's hash, is discarded: the call returns a nil response and a nil
    error, and the chain (tip, provisioners, highest seen height, effects) is
    what it was. *)
Theorem stale_block_is_discarded
    (tryFallback : Block -> M unit)
    (synchronizer_processBlock : string -> Z -> Block -> Z -> M (list (list byte)))
    (srcPeerID : string) (m : Message) (blk : Block) (c : Chain) :
  payload m = PayloadBlock blk ->
  block.Height (block.header blk) < block.Height (block.header (tip c))
  \/ (block.Height (block.header blk) = block.Height (block.header (tip c))
      /\ block.Hash (block.header blk) = block.Hash (block.header (tip c))) ->
  ProcessBlockFromNetwork tryFallback synchronizer_processBlock srcPeerID m c
  = (Ok [], c).
Proof.
  intros Hpl Hcase. unfold ProcessBlockFromNetwork. rewrite Hpl.
  unfold mbind, M_bind, bind, get. cbn.
  destruct Hcase as [Hlt|[Heq Hhash]].
  - destruct (Z.eqb_spec (block.Height (block.header blk))
                (block.Height (block.header (tip c)))); [lia|].
    destruct (Z.ltb_spec (block.Height (block.header blk))
                (block.Height (block.header (tip c)))); [|lia].
    reflexivity.
  - rewrite Heq, Z.eqb_refl. unfold Go.bytes_Equal.
    rewrite bool_decide_eq_true_2 by exact Hhash. reflexivity.
Qed.

(** ** The accept path *)

Section AcceptPath.

Variable env : @Environment ContractCall.

Lemma bind_ok {A B} (mx : M A) (k : A -> M B) c a c' :
  mx c = (Ok a, c') -> (mx ≫= k) c = k a c'.
Proof. intros H. unfold mbind, M_bind, bind. now rewrite H. Qed.

Lemma bind_err {A B} (mx : M A) (k : A -> M B) c e c' :
  mx c = (Err e, c') -> (mx ≫= k) c = (Err e, c').
Proof. intros H. unfold mbind, M_bind, bind. now rewrite H. Qed.

Lemma isValidBlock_ok c blk :
  certificateValid env c blk -> isValidBlock env blk c = (Ok tt, c).
Proof.
  intros [Hs Hc]. unfold isValidBlock, mbind, M_bind, bind, get. cbn.
  rewrite Hs. cbn. now rewrite Hc.
Qed.

Lemma sanityCheckStateHash_ok c :
  stateHashInSync env c ->
  sanityCheckStateHash env c = (Ok tt, add_effect CallGetStateRoot c).
Proof.
  intros [Hroot Hne]. unfold sanityCheckStateHash, mbind, M_bind, bind, get, emit. cbn.
  rewrite Hroot. cbn. unfold Go.bytes_Equal. rewrite bool_decide_eq_true_2 by done.
  destruct (block.StateHash (block.header (tip c))); [done|]. reflexivity.
Qed.

Lemma step_cases (step : Z) {A} (a b : A) :
  match step with 3 => a | _ => b end = if step =? 3 then a else b.
Proof.
  destruct step as [|q|q]; try reflexivity.
  destruct q as [[q|q|]|[q|q|]|]; try reflexivity.
Qed.

(** The state transition of a block on a chain whose state hash is in sync. *)
Lemma runStateTransition_eq c blk :
  stateHashInSync env c ->
  runStateTransition env (tip c) blk c =
  let c2 :=
    add_effect (transitionCall env (block.Step (block.Cert (block.header blk))) c blk)
      (add_effect CallGetStateRoot c) in
  match transitionAnswer env c blk with
  | inl e => (Err e, c2)
  | inr (provisionersUpdated, respStateHash) =>
      if Go.bytes_Equal respStateHash (block.StateHash (block.header blk))
      then (Ok tt, set_p provisionersUpdated c2)
      else (Err errInvalidStateHash, c2)
  end.
Proof.
  intros Hsync. unfold runStateTransition.
  rewrite (bind_ok _ _ _ _ _ (sanityCheckStateHash_ok c Hsync)).
  unfold transitionAnswer, transitionCall. rewrite step_cases.
  destruct (block.Step (block.Cert (block.header blk)) =? 3);
    unfold mbind, M_bind, bind, get, emit; cbn;
    match goal with |- context [try ?r] => destruct r as [e|[provs h]] end;
    cbn; try reflexivity;
    destruct (Go.bytes_Equal h (block.StateHash (block.header blk))); reflexivity.
Qed.

Lemma acceptBlock_eq c blk :
  certificateValid env c blk ->
  acceptBlock env blk c = (runStateTransition env (tip c) blk ≫= fun _ => storeAndAnnounce env blk) c.
Proof.
  intros Hvalid. unfold acceptBlock.
  rewrite (bind_ok _ _ _ _ _ (isValidBlock_ok c blk Hvalid)).
  reflexivity.
Qed.

Lemma storeAndAnnounce_transitions blk c :
  filter isTransition (trace (snd (storeAndAnnounce env blk c)))
  = filter isTransition (trace c).
Proof.
  unfold storeAndAnnounce, postAcceptBlock, mbind, M_bind, bind, get, emit, modify,
    logged, check. cbn.
  destruct (Loader_Append env (trace c) blk); cbn.
  - rewrite filter_app. cbn. now rewrite app_nil_r.
  - destruct (DB_ClearCandidateMessages env _); cbn;
      destruct (API_Enabled env); cbn;
      repeat (rewrite filter_app; cbn); now rewrite ?app_nil_r.
Qed.

(** C2, as amended. On the accept path, for a block that passes the verifier
    and the certificate check on a chain whose state hash agrees with the
    executor's, exactly one state transition RPC is made: Finalize when the
    certificate's step is 3, Accept otherwise, in both cases with the block's
    transactions, the state hash of the tip the block is accepted on, the
    block's height and the gas limit. *)
Theorem accept_path_finalizes_at_step_three (c : Chain) (blk : Block) :
  certificateValid env c blk ->
  stateHashInSync env c ->
  filter isTransition (trace (snd (acceptBlock env blk c)))
  = filter isTransition (trace c)
    ++ [if block.Step (block.Cert (block.header blk)) =? 3
        then CallFinalize (block.Txs blk) (block.StateHash (block.header (tip c)))
               (block.Height (block.header blk)) (BlockGasLimit env)
        else CallAccept (block.Txs blk) (block.StateHash (block.header (tip c)))
               (block.Height (block.header blk)) (BlockGasLimit env)].
Proof.
  intros Hvalid Hsync. rewrite (acceptBlock_eq c blk Hvalid).
  pose proof (runStateTransition_eq c blk Hsync) as Hrun. cbv zeta in Hrun.
  assert (Hcall : forall tr,
            filter isTransition
              (tr ++ [CallGetStateRoot]
                  ++ [transitionCall env (block.Step (block.Cert (block.header blk))) c blk])
            = filter isTransition tr
              ++ [transitionCall env (block.Step (block.Cert (block.header blk))) c blk]).
  { intros tr. rewrite !filter_app. cbn. unfold transitionCall.
    destruct (_ =? 3); reflexivity. }
  fold (transitionCall env (block.Step (block.Cert (block.header blk))) c blk).
  destruct (transitionAnswer env c blk) as [e|[provs h]].
  - rewrite (bind_err _ _ _ _ _ Hrun). cbn. rewrite <- app_assoc. apply Hcall.
  - destruct (Go.bytes_Equal h (block.StateHash (block.header blk))).
    + rewrite (bind_ok _ _ _ _ _ Hrun). rewrite storeAndAnnounce_transitions.
      cbn. rewrite <- app_assoc. apply Hcall.
    + rewrite (bind_err _ _ _ _ _ Hrun). cbn. rewrite <- app_assoc. apply Hcall.
Qed.

(** C3. When the state hash the executor returns for a block differs from the
    one in the block's header, acceptance returns the invalid state hash
    error; the tip, the provisioners and the rest of the chain state are
    unchanged, and the only effects are the two executor calls: the block is
    not appended and no accepted block event is published. *)
Theorem state_hash_mismatch_rejects_block
    (c : Chain) (blk : Block) (provisionersUpdated : Provisioners.t)
    (respStateHash : list byte) :
  certificateValid env c blk ->
  stateHashInSync env c ->
  transitionAnswer env c blk = inr (provisionersUpdated, respStateHash) ->
  respStateHash <> block.StateHash (block.header blk) ->
  exists c',
    acceptBlock env blk c = (Err errInvalidStateHash, c')
    /\ tip c' = tip c
    /\ p c' = p c
    /\ highestSeen c' = highestSeen c
    /\ state c' = state c
    /\ trace c'
       = trace c ++ [CallGetStateRoot;
                     transitionCall env (block.Step (block.Cert (block.header blk))) c blk]
    /\ filter isAcceptedBlockEvent (trace c')
       = filter isAcceptedBlockEvent (trace c).
Proof.
  intros Hvalid Hsync Hanswer Hne. rewrite (acceptBlock_eq c blk Hvalid).
  pose proof (runStateTransition_eq c blk Hsync) as Hrun. cbv zeta in Hrun.
  rewrite Hanswer in Hrun. unfold Go.bytes_Equal in Hrun.
  rewrite bool_decide_eq_false_2 in Hrun by exact Hne.
  eexists. split; [apply (bind_err _ _ _ _ _ Hrun)|].
  cbn. repeat split; try reflexivity.
  - now rewrite <- app_assoc.
  - rewrite <- app_assoc, filter_app. cbn. unfold transitionCall.
    destruct (_ =? 3); cbn; now rewrite app_nil_r.
Qed.

End AcceptPath.

End Facts.
End chain_facts.

(** * The tip across calls of ProcessBlockFromNetwork *)

Module sync_facts.
Import chain chain_props.

Section Sync.

Context {ContractCall : Type}.

#[local] Abbreviation Block := (block.Block ContractCall).
#[local] Abbreviation Chain := (@Chain ContractCall).
#[local] Abbreviation M := (@M ContractCall).
#[local] Abbreviation Message := (@Message ContractCall).

#[local] Existing Instance M_ret.
#[local] Existing Instance M_bind.

(** ** Postconditions of the chain monad *)

Lemma wp_bind {A B} (m : M A) (k : A -> M B) Q c :
  wp m (fun r c1 =>
          match r with
          | Ok a => wp (k a) Q c1
          | Err e => Q (Err e) c1
          | Panic => Q Panic c1
          end) c ->
  wp (m ≫= k) Q c.
Proof.
  unfold wp, mbind, M_bind, bind. destruct (m c) as [[a|e|] c1]; cbn; auto.
Qed.

Lemma wp_conseq {A} (m : M A) (Q Q' : Result A -> Chain -> Prop) c :
  wp m Q c -> (forall r c', Q r c' -> Q' r c') -> wp m Q' c.
Proof. unfold wp. auto. Qed.

Lemma wp_ret {A} (a : A) (Q : Result A -> Chain -> Prop) c :
  Q (Ok a) c -> wp (mret a) Q c.
Proof. auto. Qed.

Lemma wp_get (Q : Result Chain -> Chain -> Prop) c : Q (Ok c) c -> wp get Q c.
Proof. auto. Qed.

Lemma wp_modify f (Q : Result unit -> Chain -> Prop) c :
  Q (Ok tt) (f c) -> wp (modify f) Q c.
Proof. auto. Qed.

Lemma wp_emit e (Q : Result unit -> Chain -> Prop) c :
  Q (Ok tt) (add_effect e c) -> wp (emit e) Q c.
Proof. auto. Qed.

Lemma wp_try {A} (r : Go.error + A) (Q : Result A -> Chain -> Prop) c :
  match r with inl e => Q (Err e) c | inr a => Q (Ok a) c end -> wp (try r) Q c.
Proof. destruct r; auto. Qed.

Lemma wp_check (r : option Go.error) (Q : Result unit -> Chain -> Prop) c :
  match r with Some e => Q (Err e) c | None => Q (Ok tt) c end -> wp (check r) Q c.
Proof. destruct r; auto. Qed.

Lemma wp_logged (m : M unit) (Q : Result unit -> Chain -> Prop) c :
  wp m (fun r c1 => match r with Err _ => Q (Ok tt) c1 | _ => Q r c1 end) c ->
  wp (logged m) Q c.
Proof. unfold wp, logged. destruct (m c) as [[a|e|] c1]; cbn; auto. Qed.

Lemma wp_panic {A} (Q : Result A -> Chain -> Prop) c : Q Panic c -> wp panic Q c.
Proof. auto. Qed.

Lemma wp_fail {A} e (Q : Result A -> Chain -> Prop) c : Q (Err e) c -> wp (fail e) Q c.
Proof. auto. Qed.

Variable env : @Environment ContractCall.

Lemma keepsTip_wp {A} (m : M A) (Q : Result A -> Chain -> Prop) c :
  keepsTip m -> (forall r c', tip c' = tip c -> Q r c') -> wp m Q c.
Proof. intros Hk HQ. apply (wp_conseq _ _ _ _ (Hk c)). auto. Qed.

Lemma sanityCheckStateHash_keepsTip : keepsTip (sanityCheckStateHash env).
Proof.
  intros c. unfold sanityCheckStateHash.
  apply wp_bind, wp_get. apply wp_bind, wp_emit. apply wp_bind, wp_try.
  destruct (Executor_GetStateRoot env (trace c)); [reflexivity|].
  apply wp_bind, wp_get. destruct (_ || _); reflexivity.
Qed.

Lemma runStateTransition_keepsTip tipBlk blk :
  keepsTip (runStateTransition env tipBlk blk).
Proof.
  intros c. unfold runStateTransition.
  apply wp_bind. apply keepsTip_wp; [apply sanityCheckStateHash_keepsTip|].
  intros [[]|e|] c1 H1; try exact H1.
  apply wp_bind.
  assert (Hcall : forall (call : Effect) (answer : list Effect -> Go.error + (Provisioners.t * list byte)),
             wp (c ← get; emit call ;; try (answer (trace c)))
               (fun r c' => tip c' = tip c1) c1).
  { intros call answer. apply wp_bind, wp_get. apply wp_bind, wp_emit.
    apply wp_try. destruct (answer _); reflexivity. }
  assert (Hrest : forall r c2, tip c2 = tip c1 ->
            match r with
            | Ok a =>
                wp (let '(provisionersUpdated, respStateHash) := a in
                    if negb (Go.bytes_Equal respStateHash (block.StateHash (block.header blk)))
                    then fail errInvalidStateHash
                    else modify (set_p provisionersUpdated))
                  (fun _ c' => tip c' = tip c) c2
            | Err e => tip c2 = tip c
            | Panic => tip c2 = tip c
            end).
  { intros [[provs h]|e|] c2 H2; try congruence.
    destruct (negb _); unfold wp; cbn; congruence. }
  rewrite chain_facts.step_cases.
  destruct (_ =? 3).
  - eapply wp_conseq; [|apply Hrest].
    exact (Hcall (CallFinalize _ _ _ _) (fun tr => Executor_Finalize env tr _ _ _ _)).
  - eapply wp_conseq; [|apply Hrest].
    exact (Hcall (CallAccept _ _ _ _) (fun tr => Executor_Accept env tr _ _ _ _)).
Qed.

Lemma isValidBlock_spec blk c :
  wp (isValidBlock env blk)
    (fun r c' =>
       c' = c
       /\ match r with
          | Ok _ => SanityCheckBlock env (tip c) blk = None
          | Err _ => True
          | Panic => False
          end) c.
Proof.
  unfold isValidBlock. apply wp_bind, wp_get. apply wp_bind, wp_check.
  destruct (SanityCheckBlock env (tip c) blk) eqn:Hs; [done|].
  apply wp_bind, wp_get. apply wp_check.
  destruct (CheckBlockCertificate env _ _ _); done.
Qed.

Lemma postAcceptBlock_spec blk c :
  wp (postAcceptBlock env blk) (fun r c' => r = Ok tt /\ tip c' = tip c) c.
Proof.
  unfold postAcceptBlock. apply wp_bind, wp_emit. apply wp_bind, wp_get.
  apply wp_bind, wp_emit. apply wp_bind, wp_logged, wp_check.
  destruct (DB_ClearCandidateMessages env _); destruct (API_Enabled env); done.
Qed.

Lemma acceptBlock_spec blk c :
  verifierChecksLineage env ->
  wp (acceptBlock env blk) (acceptPost c blk) c.
Proof.
  intros Hlin. unfold acceptBlock.
  apply wp_bind. apply (wp_conseq _ _ _ _ (isValidBlock_spec blk c)).
  intros [[]|e|] c1 [-> Hs]; [|done|done].
  apply Hlin in Hs.
  apply wp_bind, wp_get. apply wp_bind.
  apply keepsTip_wp; [apply runStateTransition_keepsTip|].
  intros [[]|e|] c2 H2; [|exact H2|exact H2].
  apply wp_bind, wp_get. apply wp_bind, wp_emit. apply wp_bind, wp_check.
  destruct (Loader_Append env (trace c2) blk); [exact H2|].
  apply wp_bind, wp_modify.
  apply (wp_conseq _ _ _ _ (postAcceptBlock_spec blk _)).
  intros r c3 [-> H3]. split; [exact H3|exact Hs].
Qed.

Lemma RestartConsensus_keepsTip : keepsTip (RestartConsensus env).
Proof.
  intros c. unfold RestartConsensus. apply wp_bind, wp_get.
  apply wp_bind, wp_emit. apply wp_check.
  destruct (Loop_RestartConsensus env _); reflexivity.
Qed.

Lemma logged_keepsTip (m : M unit) : keepsTip m -> keepsTip (logged m).
Proof.
  intros Hk c. apply wp_logged. apply (wp_conseq _ _ _ _ (Hk c)).
  intros [[]|e|] c' H; exact H.
Qed.

Lemma propagateBlock_keepsTip b kh : keepsTip (propagateBlock env b kh).
Proof.
  intros c. unfold propagateBlock, kadcastBlock.
  destruct (Kadcast_Enabled env).
  - apply wp_bind, wp_try. destruct (MarshalBlock env b); [reflexivity|].
    apply wp_bind, wp_try. destruct (Topics_Prepend env _); reflexivity.
  - destruct (Inv_Encode env _); [reflexivity|].
    destruct (Topics_Prepend env _); reflexivity.
Qed.

Lemma advances_wp {A} (m : M A) (Q : Result A -> Chain -> Prop) c :
  advances m -> (forall r c', tipHeight c <= tipHeight c' -> Q r c') -> wp m Q c.
Proof. intros Ha HQ. apply (wp_conseq _ _ _ _ (Ha c)). auto. Qed.

Lemma keepsTip_advances {A} (m : M A) : keepsTip m -> advances m.
Proof.
  intros Hk c. apply (wp_conseq _ _ _ _ (Hk c)). intros r c' H.
  unfold tipHeight. rewrite H. lia.
Qed.

Lemma acceptBlock_advances blk : verifierChecksLineage env -> advances (acceptBlock env blk).
Proof.
  intros Hlin c. apply (wp_conseq _ _ _ _ (acceptBlock_spec blk c Hlin)).
  intros [[]|e|] c'; unfold acceptPost, tipHeight.
  - intros [-> H]. lia.
  - intros ->. lia.
  - intros ->. lia.
Qed.

Lemma advances_bind {A B} (m : M A) (k : A -> M B) :
  advances m -> (forall a, advances (k a)) -> advances (m ≫= k).
Proof.
  intros Hm Hk c. apply wp_bind. apply (advances_wp _ _ _ Hm).
  intros [a|e|] c1 H1; [|exact H1|exact H1].
  apply (advances_wp _ _ _ (Hk a)). intros r c2 H2. lia.
Qed.

Lemma advances_ret {A} (a : A) : advances (mret a : M A).
Proof. intros c. unfold wp. cbn. lia. Qed.

Lemma advances_modify (f : Chain -> Chain) :
  (forall c, tip (f c) = tip c) -> advances (modify f).
Proof. intros Hf c. unfold wp, tipHeight. cbn. rewrite Hf. lia. Qed.

Lemma advances_emit (e : @Effect ContractCall) : advances (emit e).
Proof. intros c. unfold wp, tipHeight. cbn. lia. Qed.

Lemma advances_get : advances (get : M Chain).
Proof. intros c. unfold wp. cbn. lia. Qed.

Lemma advances_logged (m : M unit) : advances m -> advances (logged m).
Proof.
  intros Hm c. apply wp_logged. apply (wp_conseq _ _ _ _ (Hm c)).
  intros [[]|e|] c' H; exact H.
Qed.

Lemma acceptSuccessiveBlock_advances blk kh :
  verifierChecksLineage env -> advances (acceptSuccessiveBlock env blk kh).
Proof.
  intros Hlin. unfold acceptSuccessiveBlock.
  apply advances_bind; [now apply acceptBlock_advances|]. intros _.
  apply advances_bind; [apply advances_get|]. intros c.
  apply advances_bind.
  - destruct (_ <? _); [now apply advances_modify|apply advances_ret].
  - intros _. apply keepsTip_advances, propagateBlock_keepsTip.
Qed.

Lemma TryNextConsecutiveBlockInSync_advances blk kh :
  verifierChecksLineage env -> advances (TryNextConsecutiveBlockInSync env blk kh).
Proof.
  intros Hlin. unfold TryNextConsecutiveBlockInSync.
  apply advances_bind; [now apply acceptSuccessiveBlock_advances|]. intros _.
  apply advances_logged, keepsTip_advances, RestartConsensus_keepsTip.
Qed.

Lemma acceptAccumulated_advances n kh :
  verifierChecksLineage env -> advances (acceptAccumulated env n kh).
Proof.
  intros Hlin. induction n as [|n IH]; cbn [acceptAccumulated].
  - apply advances_ret.
  - apply advances_bind; [apply advances_get|]. intros c.
    destruct (takeHeight _ _) as [[b rest]|]; [|apply advances_ret].
    apply advances_bind; [now apply advances_modify|]. intros _.
    apply advances_bind; [|intros _; exact IH].
    unfold TryNextConsecutiveBlockOutSync. now apply acceptBlock_advances.
Qed.

Lemma synchronizer_processBlock_advances srcPeerID currentHeight blk kh :
  verifierChecksLineage env ->
  advances (synchronizer_processBlock env srcPeerID currentHeight blk kh).
Proof.
  intros Hlin. unfold synchronizer_processBlock.
  apply advances_bind; [apply advances_get|]. intros c.
  destruct (state c).
  - destruct (_ <? _).
    + apply advances_bind; [apply advances_emit|]. intros _.
      apply advances_bind; [now apply advances_modify|]. intros _.
      apply advances_bind; [now apply advances_modify|]. intros _.
      apply advances_bind; [now apply advances_modify|]. intros _.
      apply advances_bind; [apply advances_emit|]. intros _.
      apply advances_ret.
    + apply advances_bind; [now apply TryNextConsecutiveBlockInSync_advances|].
      intros _. apply advances_ret.
  - destruct (_ <? _).
    + apply advances_bind; [now apply advances_modify|]. intros _.
      apply advances_ret.
    + apply advances_bind.
      { unfold TryNextConsecutiveBlockOutSync. now apply acceptBlock_advances. }
      intros _. apply advances_bind; [apply advances_get|]. intros c1.
      apply advances_bind; [now apply acceptAccumulated_advances|]. intros _.
      apply advances_bind; [apply advances_get|]. intros c2.
      apply advances_bind; [|intros _; apply advances_ret].
      destruct (_ <=? _); [|apply advances_ret].
      apply advances_bind; [now apply advances_modify|]. intros _.
      apply advances_logged, keepsTip_advances, RestartConsensus_keepsTip.
Qed.

(** ** Fallback *)

Lemma rollbackAndAccept_spec blk c :
  verifierChecksLineage env ->
  loaderReturnsHeight env ->
  wp (rollbackAndAccept env blk)
    (fun r c' =>
       match r with
       | Ok _ =>
           tip c' = blk
           /\ block.Height (block.header blk) = tipHeight c
           /\ exists prevBlk, rollbackTarget env c blk = Some prevBlk
       | Err _ | Panic => rollbackTarget env c blk = None -> exists e, r = Err e
       end) c.
Proof.
  intros Hlin Hload. unfold rollbackAndAccept, rollbackTarget, tipHeight.
  apply wp_bind, wp_get. apply wp_bind, wp_try.
  destruct (Loader_BlockAt env (trace c) _) as [e|prevBlk] eqn:Hat.
  { eauto. }
  pose proof Hat as Hh. apply Hload in Hh.
  apply wp_bind, wp_check.
  destruct (CheckBlockCertificate env (p c) blk _) as [e|].
  { eauto. }
  apply wp_bind, wp_emit. apply wp_bind, wp_modify. apply wp_bind, wp_get.
  apply wp_bind, wp_emit. apply wp_bind, wp_check.
  destruct (Executor_Revert env _ _) as [e|].
  { discriminate. }
  match goal with |- wp _ _ ?c2 =>
    apply (wp_conseq _ _ _ _ (acceptBlock_spec blk c2 Hlin)) end.
  intros [[]|e|] c3; unfold acceptPost, tipHeight; cbn.
  - intros [-> H]. split; [reflexivity|]. split; [|eauto]. lia.
  - discriminate.
  - discriminate.
Qed.

Lemma tryFallback_spec blk c :
  verifierChecksLineage env ->
  loaderReturnsHeight env ->
  wp (tryFallback env blk) (fallbackPost env c blk) c.
Proof.
  intros Hlin Hload.
  pose proof (rollbackAndAccept_spec blk c Hlin Hload) as H.
  unfold wp, tryFallback, fallbackPost in *.
  destruct (rollbackAndAccept env blk c) as [[[]|e|] c1]; cbn [fst snd] in *.
  - exact H.
  - split; [reflexivity|exact H].
  - split; [reflexivity|exact H].
Qed.

Lemma processBlock_eq srcPeerID m c :
  processBlock env srcPeerID m c =
  match payload m with
  | PayloadBlock blk =>
      if block.Height (block.header blk) =? tipHeight c
      then
        if bool_decide (block.Hash (block.header blk) = block.Hash (block.header (tip c)))
        then (Ok [], c)
        else (logged (tryFallback env blk) ≫= fun _ => mret []) c
      else if block.Height (block.header blk) <? tipHeight c
      then (Ok [], c)
      else toSynchronizer env srcPeerID m blk c
  | PayloadOther => (Panic, c)
  end.
Proof.
  unfold processBlock, ProcessBlockFromNetwork, toSynchronizer, tipHeight, Go.bytes_Equal.
  destruct (payload m) as [blk|]; [|reflexivity].
  unfold mbind at 1, M_bind at 1, bind at 1, get at 1.
  destruct (_ =? _); [destruct (bool_decide _); reflexivity|].
  destruct (_ <? _); reflexivity.
Qed.

Lemma toSynchronizer_advances srcPeerID m blk :
  verifierChecksLineage env -> advances (toSynchronizer env srcPeerID m blk).
Proof.
  intros Hlin. unfold toSynchronizer. apply advances_bind.
  - intros c. unfold wp. cbn beta.
    destruct (highestSeen c <? _); unfold tipHeight; cbn; lia.
  - intros _. apply advances_bind; [apply advances_get|]. intros c0.
    now apply synchronizer_processBlock_advances.
Qed.

(** The tip after one call. *)
Lemma processBlock_tip srcPeerID m c :
  verifierChecksLineage env ->
  loaderReturnsHeight env ->
  let c' := snd (processBlock env srcPeerID m c) in
  tipHeight c <= tipHeight c'
  /\ forall blk,
       payload m = PayloadBlock blk ->
       block.Height (block.header blk) <= tipHeight c ->
       keptOrReplaced c blk c'.
Proof.
  intros Hlin Hload. cbv zeta. rewrite processBlock_eq.
  destruct (payload m) as [blk|]; [|split; [cbn; lia|discriminate]].
  destruct (Z.eqb_spec (block.Height (block.header blk)) (tipHeight c)) as [Heq|Hne].
  - destruct (bool_decide_reflect
                (block.Hash (block.header blk) = block.Hash (block.header (tip c))))
      as [Hhash|Hhash].
    { split; [cbn; lia|]. intros ? _ _. now left. }
    pose proof (tryFallback_spec blk c Hlin Hload) as Hfb.
    unfold wp, fallbackPost in Hfb.
    unfold mbind, M_bind, bind, logged.
    destruct (tryFallback env blk c) as [r c1]. cbn [fst snd] in *.
    destruct r as [[]|e|]; cbn.
    + destruct Hfb as (Htip & Hh & _). split.
      * unfold tipHeight in *. rewrite Htip. lia.
      * intros ? [= <-] _. right. done.
    + destruct Hfb as [Htip _]. split.
      * unfold tipHeight. rewrite Htip. lia.
      * intros ? _ _. now left.
    + destruct Hfb as [Htip _]. split.
      * unfold tipHeight. rewrite Htip. lia.
      * intros ? _ _. now left.
  - destruct (Z.ltb_spec (block.Height (block.header blk)) (tipHeight c)).
    { split; [cbn; lia|]. intros ? _ _. now left. }
    split; [exact (toSynchronizer_advances srcPeerID m blk Hlin c)|].
    intros ? [= <-] Hle. lia.
Qed.

Lemma processBlocks_tip calls c :
  verifierChecksLineage env ->
  loaderReturnsHeight env ->
  tipHeight c <= tipHeight (processBlocks env calls c).
Proof.
  intros Hlin Hload. revert c. induction calls as [|[srcPeerID m] rest IH]; intros c.
  - cbn. lia.
  - cbn [processBlocks].
    pose proof (processBlock_tip srcPeerID m c Hlin Hload) as [Hone _].
    destruct (processBlock env srcPeerID m c) as [r c1]. cbn [snd] in Hone.
    specialize (IH c1).
    destruct r; lia.
Qed.

(** C4. With the fallback and the synchronizer of the spec, a verifier that
    checks the lineage and a loader that returns the block of the height
    asked for, the height of the tip never decreases over a sequence of calls
    of [ProcessBlockFromNetwork]: a successful acceptance makes a block of
    height tip + 1 the tip and a failed one leaves the tip; a successful
    fallback replaces the tip by a block of the same height and a failed one
    leaves the tip; a call whose block is not above the tip leaves the tip, or
    replaces it by that block at the same height; no call lowers the height
    of the tip, and no sequence of calls does. *)
Theorem tip_height_never_decreases
    (calls : list (string * Message)) (c : Chain) :
  verifierChecksLineage env ->
  loaderReturnsHeight env ->
  (forall blk c0, wp (acceptBlock env blk) (acceptPost c0 blk) c0)
  /\ (forall blk c0, wp (tryFallback env blk) (fallbackPost env c0 blk) c0)
  /\ (forall srcPeerID m c0,
        let c' := snd (processBlock env srcPeerID m c0) in
        tipHeight c0 <= tipHeight c'
        /\ forall blk,
             payload m = PayloadBlock blk ->
             block.Height (block.header blk) <= tipHeight c0 ->
             keptOrReplaced c0 blk c')
  /\ tipHeight c <= tipHeight (processBlocks env calls c).
Proof.
  intros Hlin Hload. split; [|split; [|split]].
  - intros blk c0. now apply acceptBlock_spec.
  - intros blk c0. now apply tryFallback_spec.
  - intros srcPeerID m c0. now apply processBlock_tip.
  - now apply processBlocks_tip.
Qed.

End Sync.
End sync_facts.

(** * The properties on the scenarios *)

Module scenario_facts.
Import scenario.

(** ** The signature set phases *)

(** A, B and C vote for [hashH]: the count returns at the vote of C, which
    brings the weight to the three seats of the committee, and forwards the
    hash. *)
Lemma countSigSetVotes_forwards_at_vote_limit_witness :
  let ms := [voteOf pkA hashH; voteOf pkB hashH; voteOf pkC hashH] in
  consensus.countLoop (consensus.voteLimit ctxA) ctxA consensus.emptyTally
    (consensus.Recv <$> ms)
  = consensus.Returned (consensus_props.forwarded ctxA (plOf hashH))
      (consensus.ExitQuorum (plOf hashH)) []
  /\ consensus_props.countedTo (Z.of_nat (length (user.CurrentCommittee ctxA)))
       ctxA ms
       (consensus.countLoop (consensus.voteLimit ctxA) ctxA consensus.emptyTally
          (consensus.Recv <$> ms)).
Proof.
  cbv zeta. split; [vm_compute; reflexivity|].
  apply (consensus_facts.countSigSetVotes_forwards_at_vote_limit ctxA
           [voteOf pkA hashH; voteOf pkB hashH; voteOf pkC hashH]).
  - vm_compute. reflexivity.
  - repeat constructor; eexists; reflexivity.
Defined.

(** The claim with the two thirds threshold fails: in a committee of three
    seats, two votes on one hash reach the quorum of two, and the count goes
    on. *)
Lemma two_thirds_quorum_counterexample :
  ~ @consensus_props.forwardsAtTwoThirds unit.
Proof.
  intros Hclaim.
  specialize (Hclaim ctxA [voteOf pkA hashH; voteOf pkB hashH]).
  assert (Hrun : consensus.countLoop (consensus.voteLimit ctxA) ctxA
                   consensus.emptyTally
                   (consensus.Recv <$> [voteOf pkA hashH; voteOf pkB hashH])
                 = consensus.Waiting
                     (consensus.mkTally
                        (<[Go.EncodeToString hashH := 2]> ∅)
                        (<[Go.EncodeToString pkB := true]>
                           (<[Go.EncodeToString pkA := true]> ∅))))
    by (vm_compute; reflexivity).
  rewrite Hrun in Hclaim. cbn [consensus_props.countedTo] in Hclaim.
  assert (Hbelow :
    consensus_props.weightAt (user.CurrentCommittee ctxA)
      [voteOf pkA hashH; voteOf pkB hashH] 1 (voteOf pkB hashH)
    < consensus_props.quorum (Z.of_nat (length (user.CurrentCommittee ctxA)))).
  { apply Hclaim.
    - vm_compute. reflexivity.
    - repeat constructor; eexists; reflexivity.
    - reflexivity. }
  vm_compute in Hbelow. discriminate.
Qed.

(** A second message of A, for another hash, after the first one has been
    counted: the tally is unchanged, and so is the outcome when the timer
    fires next. *)
Lemma duplicate_sender_is_dropped_witness :
  let pre := [voteOf pkA hashH] in
  let m := voteOf pkA hashG in
  consensus.countLoop (consensus.voteLimit ctxA) ctxA consensus.emptyTally
    (consensus.Recv <$> pre) = consensus.Waiting tallyA
  /\ consensus.voteCase (consensus.voteLimit ctxA) ctxA tallyA m
     = consensus.Continue tallyA
  /\ consensus.countLoop (consensus.voteLimit ctxA) ctxA consensus.emptyTally
       (consensus.Recv <$> (pre ++ [m])) = consensus.Waiting tallyA
  /\ consensus.countLoop (consensus.voteLimit ctxA) ctxA consensus.emptyTally
       ((consensus.Recv <$> pre) ++ consensus.Recv m :: [consensus.TimerC])
     = consensus.countLoop (consensus.voteLimit ctxA) ctxA consensus.emptyTally
         ((consensus.Recv <$> pre) ++ [consensus.TimerC]).
Proof.
  cbv zeta.
  assert (Hrun : consensus.countLoop (consensus.voteLimit ctxA) ctxA
                   consensus.emptyTally (consensus.Recv <$> [voteOf pkA hashH])
                 = consensus.Waiting tallyA) by (vm_compute; reflexivity).
  split; [exact Hrun|].
  destruct (consensus_facts.duplicate_sender_is_dropped ext
              (consensus.voteLimit ctxA) ctxA [voteOf pkA hashH] tallyA
              (voteOf pkA hashH) (voteOf pkA hashG) (plOf hashG)
              [consensus.TimerC] Hrun) as (H1 & H2 & H3 & _).
  - apply list_elem_of_singleton. reflexivity.
  - reflexivity.
  - reflexivity.
  - exact (conj H1 (conj H2 H3)).
Defined.

(** C6. Node A holds a seat of the committee and its vote channel has room.
    It votes, receives its own vote and the vote of B, and the timer of the
    first count fires: [SignatureSet] assigns the 32 zero bytes to the hash of
    the context. The second [sigSetVote] replaces them by the hash of the
    node's vote set before anything has read them: the vote the node signs,
    gossips and counts in the second step is for [hashH], not for the empty
    hash. With the votes of B and C the second count reaches the limit on
    [hashH] and the agreement is sent, where a vote for the empty hash would
    have left [hashH] one vote short. *)
Theorem second_step_votes_on_own_hash_after_timeout :
  exists w1 w2 msg wEnd,
    consensus.SignatureSet_step1 ext chanEmpty worldTimeoutThenVotes = (consensus.Ok tt, w1)
    /\ user.SigSetHash (consensus.ctx w1) = Some (replicate 32 x00)
    /\ consensus.SignatureSet ext chanEmpty worldTimeoutThenVotes
       = consensus.SignatureSet_step2 ext chanEmpty w1
    /\ consensus.sigSetVote ext chanEmpty w1 = (consensus.Ok tt, w2)
    /\ user.SigSetHash (consensus.ctx w2) = Some hashH
    /\ hashH <> replicate 32 x00
    /\ MsgConsensus.Payload msg
       = MsgConsensus.PlSigSetVote (SigSetVote.mk [x10] (Some hashH) [x0c] [x0a])
    /\ consensus.trace w2
       = consensus.trace w1 ++ [consensus.Gossip 7 msg; consensus.ChanSend msg]
    /\ consensus.inbox w2
       = [consensus.Recv msg; consensus.Recv (voteOf pkB hashH);
          consensus.Recv (voteOf pkC hashH)]
    /\ consensus.SignatureSet ext chanEmpty worldTimeoutThenVotes = (consensus.Ok tt, wEnd)
    /\ user.SigSetHash (consensus.ctx wEnd) = Some hashH
    /\ consensus.trace wEnd = consensus.trace w2 ++ [consensus.SendSet [tt]].
Proof.
  destruct (consensus_facts.first_step_timeout_assigns_fallback ext chanEmpty
              worldTimeoutThenVotes
              (snd (consensus.sigSetVote ext chanEmpty worldTimeoutThenVotes))
              [MsgConsensus.mk 1 5 [x00] 2 [x0d] pkA
                 (MsgConsensus.PlSigSetVote (SigSetVote.mk [x10] (Some hashH) [x0c] [x0a]));
               voteOf pkB hashH]
              [consensus.Recv (voteOf pkB hashH); consensus.Recv (voteOf pkC hashH)]
              (consensus.mkTally
                 (<[Go.EncodeToString hashH := 2]> ∅)
                 (<[Go.EncodeToString pkB := true]>
                    (<[Go.EncodeToString pkA := true]> ∅)))
              ltac:(vm_compute; reflexivity)
              ltac:(vm_compute; reflexivity)
              ltac:(vm_compute; reflexivity))
    as (w1 & Hstep1 & Hhash & _ & Hinbox & Hgoes).
  assert (Hw1 : w1 = snd (consensus.SignatureSet_step1 ext chanEmpty worldTimeoutThenVotes))
    by now rewrite Hstep1.
  exists w1, (snd (consensus.sigSetVote ext chanEmpty w1)),
    (MsgConsensus.mk 1 5 [x00] 3 [x0d] pkA
       (MsgConsensus.PlSigSetVote (SigSetVote.mk [x10] (Some hashH) [x0c] [x0a]))),
    (snd (consensus.SignatureSet ext chanEmpty worldTimeoutThenVotes)).
  split; [exact Hstep1|]. split; [exact Hhash|]. split; [exact Hgoes|].
  subst w1.
  split; [vm_compute; reflexivity|].
  split; [vm_compute; reflexivity|].
  split; [vm_compute; discriminate|].
  split; [reflexivity|].
  split; [vm_compute; reflexivity|].
  split; [vm_compute; reflexivity|].
  split; [vm_compute; reflexivity|].
  split; vm_compute; reflexivity.
Qed.

(** The three members vote for [hashH] in the second step: the agreement is
    sent, with the vote set recorded for that hash. *)
Lemma agreement_sent_iff_quorum_on_nonempty_hash_witness :
  let w1 := snd (consensus.sigSetVote ext chanEmpty worldQuorum) in
  let w2 := snd (consensus.countSigSetVotes' w1) in
  let votes :=
    Go.map_get [] (user.AllVotes (consensus.ctx w1)) (Go.EncodeToString hashH) in
  let answer :=
    consensus.agreement_SendSet ext (consensus_props.advanced (consensus.ctx w2)) votes in
  votes = [tt]
  /\ user.SigSetVotes (consensus.ctx w2) = votes
  /\ consensus.SignatureSet_step2 ext chanEmpty worldQuorum
     = (match snd answer with
        | Some e => consensus.Err e
        | None => consensus.Ok tt
        end,
        consensus.mkWorld (fst answer) (consensus.inbox w2)
          (consensus.trace w1 ++ [consensus.SendSet votes]))
  /\ consensus.trace (snd (consensus.SignatureSet_step2 ext chanEmpty worldQuorum))
     = consensus.trace w1 ++ [consensus.SendSet votes].
Proof.
  cbv zeta. split; [vm_compute; reflexivity|].
  exact (consensus_facts.agreement_sent_iff_quorum_on_nonempty_hash ext chanEmpty
           worldQuorum
           (snd (consensus.sigSetVote ext chanEmpty worldQuorum))
           (snd (consensus.countSigSetVotes'
                   (snd (consensus.sigSetVote ext chanEmpty worldQuorum))))
           (consensus.ExitQuorum (plOf hashH))
           ltac:(vm_compute; reflexivity)
           ltac:(vm_compute; reflexivity)).
Defined.

(** ** Marshalling *)

(** A reduction and an agreement over two reductions survive the round trip
    through the wire encoding. *)
Lemma unmarshal_marshal_roundtrip_witness :
  events.Reduction_Unmarshal encoding.wire
    (marshalled (events.Reduction_Marshal encoding.wire [] (events.EvReduction red1)))
    events.blankReduction
  = events.Ok ([], events.EvReduction red1)
  /\ events.Agreement_Unmarshal encoding.wire
       (marshalled (events.Agreement_Marshal encoding.wire [] (events.EvAgreement agreement1)))
       (events.EvAgreement (events.mkAgreement blankHeader [] [] []))
     = events.Ok ([], events.EvAgreement agreement1).
Proof.
  destruct (events_facts.unmarshal_marshal_roundtrip encoding.wire
              events_facts.wire_laws) as (_ & Hred & Hagr).
  split.
  - apply Hred.
    + repeat split; cbn; lia.
    + vm_compute. reflexivity.
  - apply Hagr.
    + split; [repeat split; cbn; lia|]. split; [cbn; lia|].
      repeat constructor; cbn; lia.
    + vm_compute. reflexivity.
Defined.

(** ** The accept path *)

Lemma env_certificateValid (blk : block.Block unit) :
  block.Height (block.header blk) = 1 ->
  block.PrevBlockHash (block.header blk) = [x10] ->
  chain_props.certificateValid env (chainAt genesis) blk.
Proof.
  intros Hh Hp. split; [|reflexivity]. cbn. rewrite Hh, Hp. reflexivity.
Qed.

Lemma env_stateHashInSync : chain_props.stateHashInSync env (chainAt genesis).
Proof. split; [reflexivity|discriminate]. Qed.

(** The successor certified at step 3 is finalized. *)
Lemma accept_path_finalizes_at_step_three_witness :
  filter chain_props.isTransition
    (chain.trace (snd (chain.acceptBlock env block1 (chainAt genesis))))
  = [chain.CallFinalize [tt] zeroHash 1 1000].
Proof.
  exact (chain_facts.accept_path_finalizes_at_step_three env (chainAt genesis) block1
           (env_certificateValid block1 eq_refl eq_refl) env_stateHashInSync).
Defined.

(** The claim with step 1 fails: a block certified at step 1, with a valid
    certificate, is handed to Accept, not to Finalize. *)
Lemma finalize_at_step_one_counterexample :
  block.Step (block.Cert (block.header block1step1)) = 1
  /\ chain_props.certificateValid env (chainAt genesis) block1step1
  /\ chain_props.stateHashInSync env (chainAt genesis)
  /\ filter chain_props.isTransition
       (chain.trace (snd (chain.acceptBlock env block1step1 (chainAt genesis))))
     = [chain.CallAccept [tt] zeroHash 1 1000].
Proof.
  split; [reflexivity|]. split; [now apply env_certificateValid|].
  split; [apply env_stateHashInSync|]. vm_compute. reflexivity.
Qed.

(** The executor returns the zero hash and the header declares 0xaa...: the
    block is rejected and the chain keeps the genesis block as its tip. *)
Lemma state_hash_mismatch_rejects_block_witness :
  exists c',
    chain.acceptBlock env block1fork (chainAt genesis)
    = (chain.Err chain.errInvalidStateHash, c')
    /\ chain.tip c' = genesis
    /\ chain.p c' = provisioners
    /\ chain.highestSeen c' = 0
    /\ chain.state c' = chain.inSync
    /\ chain.trace c'
       = [chain.CallGetStateRoot; chain.CallFinalize [tt] zeroHash 1 1000]
    /\ filter chain_props.isAcceptedBlockEvent (chain.trace c') = [].
Proof.
  exact (chain_facts.state_hash_mismatch_rejects_block env (chainAt genesis)
           block1fork provisioners zeroHash
           (env_certificateValid block1fork eq_refl eq_refl) env_stateHashInSync
           eq_refl ltac:(discriminate)).
Defined.

(** The genesis block arrives when the tip is its successor. *)
Lemma stale_block_is_discarded_witness :
  chain.processBlock env "peer" (blockMessage genesis) (chainAt block1)
  = (chain.Ok [], chainAt block1).
Proof.
  apply (chain_facts.stale_block_is_discarded
           (chain.tryFallback env) (chain.synchronizer_processBlock env)
           "peer" (blockMessage genesis) genesis (chainAt block1)).
  - reflexivity.
  - left. cbn. lia.
Defined.

(** ** The tip *)

Lemma env_verifierChecksLineage : chain_props.verifierChecksLineage env.
Proof.
  intros prevBlock blk. cbn.
  destruct (Z.eqb_spec (block.Height (block.header blk))
              (block.Height (block.header prevBlock) + 1)); [auto|discriminate].
Qed.

Lemma env_loaderReturnsHeight : chain_props.loaderReturnsHeight env.
Proof.
  intros tr h blk. cbn. destruct (Z.eqb_spec h 0); [|discriminate].
  intros H. injection H as <-. now subst h.
Qed.

(** The successor of the genesis block is accepted and arrives again; a fork
    of it whose state hash the executor does not confirm is rejected by the
    fallback, which leaves the tip; a fork certified at an earlier step
    replaces the tip at the same height; the genesis block is stale. The
    height of the tip goes from 0 to 1 and stays there. *)
Lemma tip_height_never_decreases_witness :
  let calls :=
    [("peer"%string, blockMessage block1); ("peer"%string, blockMessage block1);
     ("peer"%string, blockMessage block1fork);
     ("peer"%string, blockMessage block1step1);
     ("peer"%string, blockMessage genesis)] in
  chain_props.verifierChecksLineage env
  /\ chain_props.loaderReturnsHeight env
  /\ chain.tip (chain.processBlocks env (take 2 calls) (chainAt genesis)) = block1
  /\ chain.tip (chain.processBlocks env (take 3 calls) (chainAt genesis)) = block1
  /\ chain.tip (chain.processBlocks env (take 4 calls) (chainAt genesis)) = block1step1
  /\ chain.tip (chain.processBlocks env calls (chainAt genesis)) = block1step1
  /\ chain_props.tipHeight (chainAt genesis)
     <= chain_props.tipHeight (chain.processBlocks env calls (chainAt genesis)).
Proof.
  cbv zeta.
  split; [apply env_verifierChecksLineage|].
  split; [apply env_loaderReturnsHeight|].
  split; [vm_compute; reflexivity|].
  split; [vm_compute; reflexivity|].
  split; [vm_compute; reflexivity|].
  split; [vm_compute; reflexivity|].
  exact (proj2 (proj2 (proj2
           (sync_facts.tip_height_never_decreases env
              [("peer"%string, blockMessage block1); ("peer"%string, blockMessage block1);
               ("peer"%string, blockMessage block1fork);
               ("peer"%string, blockMessage block1step1);
               ("peer"%string, blockMessage genesis)]
              (chainAt genesis) env_verifierChecksLineage env_loaderReturnsHeight)))).
Defined.

End scenario_facts.

(** * More on the accept path *)

Module accept_facts.
Import chain chain_props accept_props chain_facts sync_facts.

Section Facts.

Context {ContractCall : Type}.

#[local] Abbreviation Block := (block.Block ContractCall).
#[local] Abbreviation Chain := (@Chain ContractCall).
#[local] Abbreviation M := (@M ContractCall).

#[local] Existing Instance M_ret.
#[local] Existing Instance M_bind.

Variable env : @Environment ContractCall.

Lemma chain_eta (c : Chain) :
  mkChain (tip c) (p c) (highestSeen c) (state c) (syncTarget c) (sequencer c) (trace c) = c.
Proof. now destruct c. Qed.

Lemma postAcceptBlock_eq blk (c : Chain) :
  postAcceptBlock env blk c
  = (Ok tt, set_trace (trace c ++ announceEffects env blk) c).
Proof.
  unfold postAcceptBlock, announceEffects, mbind, M_bind, bind, get, emit, logged, check,
    set_trace, add_effect. cbn.
  destruct (DB_ClearCandidateMessages env _); cbn;
    destruct (API_Enabled env); cbn; rewrite <- ?app_assoc; cbn;
    rewrite ?app_nil_r; reflexivity.
Qed.

Lemma storeAndAnnounce_eq blk (c : Chain) :
  storeAndAnnounce env blk c
  = match Loader_Append env (trace c) blk with
    | Some e => (Err e, add_effect (CallAppend blk) c)
    | None =>
        (Ok tt,
         set_trace (trace c ++ CallAppend blk :: announceEffects env blk)
           (set_tip blk c))
    end.
Proof.
  unfold storeAndAnnounce. unfold mbind at 1, M_bind at 1, bind at 1, get. cbn.
  unfold mbind at 1, M_bind at 1, bind at 1, emit. cbn.
  unfold mbind at 1, M_bind at 1, bind at 1, check.
  destruct (Loader_Append env (trace c) blk) as [e|]; [reflexivity|]. cbn.
  unfold mbind at 1, M_bind at 1, bind at 1, modify. cbn.
  rewrite postAcceptBlock_eq. unfold set_trace, set_tip, add_effect. cbn.
  now rewrite <- app_assoc.
Qed.

(** X1. A block that passes the verifier and the certificate check, on a
    chain whose state hash agrees with the executor's, whose state transition
    returns the state hash of its header and which the loader stores, is
    accepted: the call returns nil, the block is the tip, the provisioners
    are those the executor returned, and the effects are, in this order, the
    state root query, the transition RPC, the append, the publication of the
    accepted block, the clearing of the candidates and, when the API is
    enabled, the storing of the stakes. Whether the clearing of the
    candidates fails makes no difference. *)
Theorem accepted_block_becomes_tip
    (c : Chain) (blk : Block) (provisionersUpdated : Provisioners.t) :
  certificateValid env c blk ->
  stateHashInSync env c ->
  transitionAnswer env c blk
  = inr (provisionersUpdated, block.StateHash (block.header blk)) ->
  Loader_Append env (trace c ++ transitionEffects env c blk) blk = None ->
  acceptBlock env blk c
  = (Ok tt,
     mkChain blk provisionersUpdated (highestSeen c) (state c) (syncTarget c)
       (sequencer c)
       (trace c ++ transitionEffects env c blk
          ++ CallAppend blk :: announceEffects env blk)).
Proof.
  intros Hvalid Hsync Hanswer Happend. rewrite (acceptBlock_eq env c blk Hvalid).
  pose proof (runStateTransition_eq env c blk Hsync) as Hrun. cbv zeta in Hrun.
  rewrite Hanswer in Hrun. unfold Go.bytes_Equal in Hrun.
  rewrite bool_decide_eq_true_2 in Hrun by reflexivity.
  rewrite (bind_ok _ _ _ _ _ Hrun). rewrite storeAndAnnounce_eq.
  unfold transitionEffects in *. cbn [trace set_p add_effect].
  rewrite <- app_assoc. cbn [app].
  rewrite Happend. unfold set_trace, set_tip, set_p, add_effect. cbn.
  now rewrite <- !app_assoc.
Qed.

(** X2. When the loader refuses to append a block whose state transition
    succeeded, acceptance returns the loader's error and the tip stays, but
    the provisioners have already been replaced by those the executor
    returned; nothing is published. *)
Theorem storage_failure_keeps_tip_with_new_provisioners
    (c : Chain) (blk : Block) (provisionersUpdated : Provisioners.t) (err : Go.error) :
  certificateValid env c blk ->
  stateHashInSync env c ->
  transitionAnswer env c blk
  = inr (provisionersUpdated, block.StateHash (block.header blk)) ->
  Loader_Append env (trace c ++ transitionEffects env c blk) blk = Some err ->
  acceptBlock env blk c
  = (Err err,
     mkChain (tip c) provisionersUpdated (highestSeen c) (state c) (syncTarget c)
       (sequencer c)
       (trace c ++ transitionEffects env c blk ++ [CallAppend blk])).
Proof.
  intros Hvalid Hsync Hanswer Happend. rewrite (acceptBlock_eq env c blk Hvalid).
  pose proof (runStateTransition_eq env c blk Hsync) as Hrun. cbv zeta in Hrun.
  rewrite Hanswer in Hrun. unfold Go.bytes_Equal in Hrun.
  rewrite bool_decide_eq_true_2 in Hrun by reflexivity.
  rewrite (bind_ok _ _ _ _ _ Hrun). rewrite storeAndAnnounce_eq.
  unfold transitionEffects in *. cbn [trace set_p add_effect].
  rewrite <- app_assoc. cbn [app].
  rewrite Happend. unfold set_trace, set_tip, set_p, add_effect. cbn.
  now rewrite <- !app_assoc.
Qed.

Lemma isValidBlock_eq (c : Chain) (blk : Block) :
  isValidBlock env blk c
  = (match SanityCheckBlock env (tip c) blk with
     | Some e => Err e
     | None =>
         match CheckBlockCertificate env (p c) blk (block.Seed (block.header (tip c))) with
         | Some e => Err e
         | None => Ok tt
         end
     end, c).
Proof.
  unfold isValidBlock, mbind, M_bind, bind, get, check. cbn.
  destruct (SanityCheckBlock env (tip c) blk) as [e|]; cbn; [done|].
  destruct (CheckBlockCertificate env (p c) blk _) as [e|]; cbn; done.
Qed.

(** X3. Validating a block against the tip changes nothing in the chain and
    has no effect; the verifier is asked first and the certificate is checked
    only for a block the verifier passes. A block that fails validation is
    rejected by the accept path with the same error, again without any effect:
    the executor is not consulted. *)
Theorem invalid_block_is_rejected_without_effect (c : Chain) (blk : Block) :
  snd (TryNextConsecutiveBlockIsValid env blk c) = c
  /\ fst (TryNextConsecutiveBlockIsValid env blk c)
     = match SanityCheckBlock env (tip c) blk with
       | Some e => Err e
       | None =>
           match CheckBlockCertificate env (p c) blk (block.Seed (block.header (tip c))) with
           | Some e => Err e
           | None => Ok tt
           end
       end
  /\ match fst (TryNextConsecutiveBlockIsValid env blk c) with
     | Ok _ => True
     | _ => acceptBlock env blk c = TryNextConsecutiveBlockIsValid env blk c
     end.
Proof.
  unfold TryNextConsecutiveBlockIsValid, acceptBlock.
  pose proof (isValidBlock_eq c blk) as Hv. rewrite Hv. cbn [fst snd].
  split; [reflexivity|]. split; [reflexivity|].
  destruct (SanityCheckBlock env (tip c) blk) as [e|].
  - apply (bind_err _ _ _ _ _ Hv).
  - destruct (CheckBlockCertificate env (p c) blk _) as [e|]; [|exact I].
    apply (bind_err _ _ _ _ _ Hv).
Qed.

(** X4. When the state root the executor reports differs from the tip's
    state hash, or the tip's state hash is empty, a block with a valid
    certificate is rejected with the invalid state hash error before any
    state transition RPC: the only effect is the state root query. *)
Theorem state_out_of_sync_blocks_every_transition
    (c : Chain) (blk : Block) (ruskStateHash : list byte) :
  certificateValid env c blk ->
  Executor_GetStateRoot env (trace c) = inr ruskStateHash ->
  ruskStateHash <> block.StateHash (block.header (tip c))
  \/ block.StateHash (block.header (tip c)) = [] ->
  acceptBlock env blk c = (Err errInvalidStateHash, add_effect CallGetStateRoot c).
Proof.
  intros Hvalid Hroot Hcase. rewrite (acceptBlock_eq env c blk Hvalid).
  assert (Hsan : sanityCheckStateHash env c
                 = (Err errInvalidStateHash, add_effect CallGetStateRoot c)).
  { unfold sanityCheckStateHash, mbind, M_bind, bind, get, emit. cbn.
    rewrite Hroot. cbn. unfold Go.bytes_Equal.
    destruct Hcase as [Hne|Hempty].
    - rewrite bool_decide_eq_false_2 by congruence. reflexivity.
    - rewrite Hempty. cbn. now rewrite orb_true_r. }
  unfold runStateTransition.
  unfold mbind at 1, M_bind at 1, bind at 1.
  unfold mbind at 1, M_bind at 1, bind at 1.
  now rewrite Hsan.
Qed.

End Facts.
End accept_facts.

(** * Propagation and the restart of the consensus *)

Module propagate_facts.
Import chain chain_props accept_props propagate_props chain_facts sync_facts accept_facts.

Section Facts.

Context {ContractCall : Type}.

#[local] Abbreviation Block := (block.Block ContractCall).
#[local] Abbreviation Chain := (@Chain ContractCall).
#[local] Abbreviation M := (@M ContractCall).

#[local] Existing Instance M_ret.
#[local] Existing Instance M_bind.

Variable env : @Environment ContractCall.

(** X5. Propagating a block fails by mode: in gossip mode it never returns
    an error (a failing encoding panics), in kadcast mode it never panics (a
    failing marshalling is returned as an error); it publishes one message,
    on the topic of the mode and, in kadcast mode, with the kadcast height as
    header, exactly when it returns nil, and otherwise leaves the chain as it
    was. *)
Theorem propagateBlock_ends_by_mode (b : Block) (kadcastHeight : Z) (c : Chain) :
  match propagateBlock env b kadcastHeight c with
  | (Ok _, c') => published env c c' kadcastHeight
  | (Err _, c') => Kadcast_Enabled env = true /\ c' = c
  | (Panic, c') => Kadcast_Enabled env = false /\ c' = c
  end.
Proof.
  unfold propagateBlock, kadcastBlock, published, propagationTopic, propagationHeader.
  destruct (Kadcast_Enabled env).
  - unfold mbind, M_bind, bind, try, emit, fail, ret.
    destruct (MarshalBlock env b) as [e|buf]; cbn; [done|].
    destruct (Topics_Prepend env buf) as [e|buf']; cbn; [done|].
    now exists buf'.
  - destruct (Inv_Encode env _) as [e|buf]; cbn; [done|].
    destruct (Topics_Prepend env buf) as [e|buf']; cbn; [done|].
    now exists buf'.
Qed.

Lemma propagateBlock_frame (b : Block) kh (c : Chain) :
  let c' := snd (propagateBlock env b kh c) in
  tip c' = tip c /\ highestSeen c' = highestSeen c.
Proof.
  pose proof (propagateBlock_ends_by_mode b kh c) as H. cbv zeta.
  destruct (propagateBlock env b kh c) as [[[]|e|] c']; cbn.
  - destruct H as [buf ->]. done.
  - destruct H as [_ ->]. done.
  - destruct H as [_ ->]. done.
Qed.

Lemma propagateBlock_indep (b : Block) kh (c c' : Chain) :
  fst (propagateBlock env b kh c) = fst (propagateBlock env b kh c').
Proof.
  unfold propagateBlock, kadcastBlock.
  destruct (Kadcast_Enabled env).
  - unfold mbind, M_bind, bind, try, emit, fail, ret.
    destruct (MarshalBlock env b) as [e|buf]; cbn; [done|].
    destruct (Topics_Prepend env buf) as [e|buf']; cbn; done.
  - destruct (Inv_Encode env _) as [e|buf]; cbn; [done|].
    destruct (Topics_Prepend env buf) as [e|buf']; cbn; done.
Qed.

Lemma framed_refl (c : Chain) : framed c c.
Proof. done. Qed.

Lemma framed_trans (c1 c2 c3 : Chain) : framed c1 c2 -> framed c2 c3 -> framed c1 c3.
Proof. unfold framed. intros (?&?&?&?) (?&?&?&?). repeat split; congruence. Qed.

Lemma runStateTransition_frame tipBlk blk c :
  wp (runStateTransition env tipBlk blk)
    (fun r c' => r <> Panic /\ tip c' = tip c /\ framed c c') c.
Proof.
  unfold runStateTransition.
  apply wp_bind. unfold sanityCheckStateHash.
  apply wp_bind, wp_get. apply wp_bind, wp_emit. apply wp_bind, wp_try.
  destruct (Executor_GetStateRoot env (trace c)); [done|].
  apply wp_bind, wp_get. destruct (_ || _); [done|]. apply wp_ret.
  set (c1 := add_effect CallGetStateRoot c).
  apply wp_bind.
  assert (Hcall : forall (call : Effect) (answer : list Effect -> Go.error + (Provisioners.t * list byte)),
             wp (c ← get; emit call ;; try (answer (trace c)))
               (fun r c' => r <> Panic /\ tip c' = tip c /\ framed c c') c1).
  { intros call answer. apply wp_bind, wp_get. apply wp_bind, wp_emit.
    apply wp_try. destruct (answer _); done. }
  assert (Hrest : forall r c2, r <> Panic /\ tip c2 = tip c /\ framed c c2 ->
            match r with
            | Ok a =>
                wp (let '(provisionersUpdated, respStateHash) := a in
                    if negb (Go.bytes_Equal respStateHash (block.StateHash (block.header blk)))
                    then fail errInvalidStateHash
                    else modify (set_p provisionersUpdated))
                  (fun r c' => r <> Panic /\ tip c' = tip c /\ framed c c') c2
            | Err e => Err e <> @Panic unit /\ tip c2 = tip c /\ framed c c2
            | Panic => @Panic unit <> Panic /\ tip c2 = tip c /\ framed c c2
            end).
  { intros [[provs h]|e|] c2 (Hr & H2 & Hf); [|done|done].
    destruct (negb _); unfold wp; cbn; done. }
  rewrite chain_facts.step_cases.
  destruct (_ =? 3).
  - eapply wp_conseq; [|apply Hrest].
    exact (Hcall (CallFinalize _ _ _ _) (fun tr => Executor_Finalize env tr _ _ _ _)).
  - eapply wp_conseq; [|apply Hrest].
    exact (Hcall (CallAccept _ _ _ _) (fun tr => Executor_Accept env tr _ _ _ _)).
Qed.

Lemma acceptBlock_frame (blk : Block) (c : Chain) :
  wp (acceptBlock env blk)
    (fun r c' =>
       r <> Panic /\ framed c c'
       /\ tip c' = match r with Ok _ => blk | _ => tip c end) c.
Proof.
  unfold acceptBlock. apply wp_bind. unfold wp. rewrite isValidBlock_eq. cbn [fst snd].
  destruct (SanityCheckBlock env (tip c) blk) as [e|]; [done|].
  destruct (CheckBlockCertificate env (p c) blk _) as [e|]; [done|].
  apply wp_bind, wp_get. apply wp_bind.
  apply (wp_conseq _ _ _ _ (runStateTransition_frame (tip c) blk c)).
  intros [[]|e|] c2 (Hr & H2 & Hf); [|done|done].
  apply wp_bind, wp_get. apply wp_bind, wp_emit. apply wp_bind, wp_check.
  destruct (Loader_Append env (trace c2) blk); [done|].
  apply wp_bind, wp_modify. unfold wp. rewrite postAcceptBlock_eq. done.
Qed.

(** X6. When the acceptance of a successor fails, nothing is propagated and
    the error is the acceptance's. When it succeeds, the block is the tip
    and the highest seen height is raised to the block's height if that is
    higher, whatever the propagation does; the call then returns what the
    propagation returns. *)
Theorem accepted_successor_is_recorded_before_propagation
    (blk : Block) (kadcastHeight : Z) (c : Chain) :
  let c' := snd (acceptSuccessiveBlock env blk kadcastHeight c) in
  match fst (acceptBlock env blk c) with
  | Ok _ =>
      tip c' = blk
      /\ highestSeen c' = Z.max (highestSeen c) (block.Height (block.header blk))
      /\ fst (acceptSuccessiveBlock env blk kadcastHeight c)
         = fst (propagateBlock env blk kadcastHeight c)
  | _ => acceptSuccessiveBlock env blk kadcastHeight c = acceptBlock env blk c
  end.
Proof.
  cbv zeta. unfold acceptSuccessiveBlock.
  pose proof (acceptBlock_frame blk c) as Hacc. unfold wp in Hacc.
  destruct (acceptBlock env blk c) as [[[]|e|] c1] eqn:Heq; cbn [fst snd] in *.
  - destruct Hacc as (_ & (Hh & _) & Htip).
    rewrite (bind_ok _ _ _ _ _ Heq).
    assert (Hrec :
      (if highestSeen c1 <? block.Height (block.header blk)
       then modify (set_highestSeen (block.Height (block.header blk)))
       else ret tt) c1
      = (Ok tt, set_highestSeen
                  (Z.max (highestSeen c) (block.Height (block.header blk))) c1)).
    { rewrite <- Hh.
      destruct (Z.ltb_spec (highestSeen c1) (block.Height (block.header blk))).
      - unfold modify. now rewrite Z.max_r by lia.
      - unfold ret, set_highestSeen. rewrite Z.max_l by lia. now destruct c1. }
    assert (Hget : get c1 = (Ok c1, c1)) by reflexivity.
    rewrite (bind_ok _ _ _ _ _ Hget), (bind_ok _ _ _ _ _ Hrec).
    pose proof (propagateBlock_frame blk kadcastHeight
                  (set_highestSeen
                     (Z.max (highestSeen c) (block.Height (block.header blk))) c1))
      as [Ht Hs].
    rewrite Ht, Hs. cbn. repeat split; [exact Htip|].
    apply propagateBlock_indep.
  - now rewrite (bind_err _ _ _ _ _ Heq).
  - now destruct Hacc as (? & _).
Qed.

Lemma RestartConsensus_logged (c : Chain) :
  logged (RestartConsensus env) c = (Ok tt, add_effect CallRestartConsensus c).
Proof.
  unfold logged, RestartConsensus, mbind, M_bind, bind, get, emit, check. cbn.
  destruct (Loop_RestartConsensus env (trace c)); reflexivity.
Qed.

(** X7. In sync, the consensus loop is restarted exactly when the successor
    was accepted and propagated; an error of the restart is not returned: the
    call returns what the acceptance and propagation returned. *)
Theorem restart_failure_is_not_reported (blk : Block) (kadcastHeight : Z) (c : Chain) :
  let r := fst (acceptSuccessiveBlock env blk kadcastHeight c) in
  let c1 := snd (acceptSuccessiveBlock env blk kadcastHeight c) in
  TryNextConsecutiveBlockInSync env blk kadcastHeight c
  = (r, match r with
        | Ok _ => add_effect CallRestartConsensus c1
        | _ => c1
        end).
Proof.
  cbv zeta. unfold TryNextConsecutiveBlockInSync.
  destruct (acceptSuccessiveBlock env blk kadcastHeight c) as [[[]|e|] c1] eqn:Heq;
    cbn [fst snd].
  - rewrite (bind_ok _ _ _ _ _ Heq). apply RestartConsensus_logged.
  - apply (bind_err _ _ _ _ _ Heq).
  - unfold mbind, M_bind, bind. now rewrite Heq.
Qed.

(** X8. When the sync timer expires, the chain asks for a restart of the
    consensus loop and goes back to the in-sync state; the call returns nil
    even when the restart fails, and the tip, the provisioners and the
    highest seen height are untouched. *)
Theorem sync_timer_expiry_returns_to_inSync (strPeerAddr : string) (c : Chain) :
  ProcessSyncTimerExpired env strPeerAddr c
  = (Ok tt, set_state inSync (add_effect CallRestartConsensus c)).
Proof.
  unfold ProcessSyncTimerExpired.
  rewrite (bind_ok _ _ _ _ _ (RestartConsensus_logged c)). reflexivity.
Qed.

End Facts.
End propagate_facts.

(** * More on the signature set phases *)

Module vote_facts.
Import consensus consensus_props vote_props consensus_facts.

Section Facts.

Context {Vote : Type}.

#[local] Abbreviation Message := (MsgConsensus.t Vote).

Variable ext : @Externals Vote.

#[local] Existing Instance M_ret.
#[local] Existing Instance M_bind.

Section Casting.

Variable chan : @World Vote -> ChanState.

(** X9. What a call of [sigSetVote] does when the functions it calls
    return. A vote is cast only by a member of the committee the sortition
    returns: a node with no seat updates its current committee and does
    nothing else. A member replaces the hash of the context by the hash of its
    vote set, registers the vote set under it, builds and signs the message,
    gossips it, and only then sends it to its own vote channel, where it waits
    behind the events that precede it. When the function returns an error,
    nothing has been sent to the channel. The function blocks exactly in that
    send, when the channel has no room for the message it has gossiped. It
    panics at a member only, when the map of all votes is nil, before any
    effect, or when the channel is closed, after the gossip. *)
Theorem sigSetVote_votes_only_as_member (w : @World Vote) :
  match sigSetVote ext chan w with
  | (Ok _, w') =>
      CreateCommittee ext (user.Round (ctx w)) (user.W (ctx w)) (user.Step (ctx w))
        (requestedSize ext (ctx w)) (user.Committee (ctx w)) (user.NodeWeights (ctx w))
      = inr (user.CurrentCommittee (ctx w'))
      /\ if sortition.Verify (user.CurrentCommittee (ctx w'))
              (user.EdPubKey (user.keys (ctx w))) =? 0
         then w' = mkWorld
                     (user.set_CurrentCommittee (user.CurrentCommittee (ctx w')) (ctx w))
                     (inbox w) (trace w)
         else exists msg ahead,
                voteBuilt ext (ctx w) (ctx w') msg
                /\ SendMessage ext (user.Magic (ctx w)) msg = None
                /\ chan (atSend w (ctx w') msg) = Room ahead
                /\ delivered (atSend w (ctx w') msg) ahead msg w'
  | (Err _, w') =>
      inbox w' = inbox w
      /\ filter isChanSend (trace w') = filter isChanSend (trace w)
  | (Blocked, w') =>
      exists msg,
        seated ext (ctx w) (user.CurrentCommittee (ctx w'))
        /\ voteBuilt ext (ctx w) (ctx w') msg
        /\ SendMessage ext (user.Magic (ctx w)) msg = None
        /\ w' = atSend w (ctx w') msg
        /\ chan w' = NoRoom
  | (Panic, w') =>
      seated ext (ctx w) (user.CurrentCommittee (ctx w'))
      /\ ((user.AllVotes_map (ctx w) = None
           /\ HashVotes ext (user.SigSetVotes (ctx w)) = inr (user.SigSetHash (ctx w'))
           /\ w' = mkWorld
                     (user.set_SigSetHash (user.SigSetHash (ctx w'))
                        (user.set_CurrentCommittee (user.CurrentCommittee (ctx w')) (ctx w)))
                     (inbox w) (trace w))
          \/ exists msg,
               voteBuilt ext (ctx w) (ctx w') msg
               /\ SendMessage ext (user.Magic (ctx w)) msg = None
               /\ w' = atSend w (ctx w') msg
               /\ chan w' = Closed)
  end.
Proof.
  unfold sigSetVote, requestedSize, seated, requestedSize.
  unfold mbind, M_bind, bind, getCtx, modifyCtx, emit, try, check, ret.
  destruct w as [c ib tr]. cbn -[sortition.Verify].
  destruct (CreateCommittee ext _ _ _ _ _ _) as [e|committee] eqn:Hcc;
    cbn -[sortition.Verify]; [done|].
  destruct (sortition.Verify committee (user.EdPubKey (user.keys c)) =? 0) eqn:Hv;
    cbn -[sortition.Verify].
  { rewrite Hv. done. }
  assert (Hseat : sortition.Verify committee (user.EdPubKey (user.keys c)) <> 0)
    by (intros Hz; rewrite Hz in Hv; discriminate).
  destruct (HashVotes ext (user.SigSetVotes c)) as [e|h] eqn:Hh;
    cbn -[sortition.Verify]; [done|].
  unfold writeAllVotes, mbind, M_bind, bind, getCtx, modifyCtx, panic.
  cbn -[sortition.Verify].
  destruct (user.AllVotes_map c) as [allVotes|] eqn:Hmap; cbn -[sortition.Verify];
    [|split; [done|]; left; done].
  destruct (BLSSign ext _ _ h) as [e|sigBLS] eqn:Hs;
    cbn -[sortition.Verify]; [done|].
  destruct (NewSigSetVote ext _ h sigBLS _) as [e|pl] eqn:Hpl;
    cbn -[sortition.Verify]; [done|].
  destruct (CreateSignature ext _ _) as [e|sigEd] eqn:Hed;
    cbn -[sortition.Verify]; [done|].
  destruct (NewMsgConsensus ext _ _ _ _ sigEd _ _) as [e|msg] eqn:Hmsg;
    cbn -[sortition.Verify]; [done|].
  destruct (SendMessage ext _ msg) as [e|] eqn:Hsend; cbn -[sortition.Verify].
  { split; [done|]. rewrite filter_app. cbn. now rewrite app_nil_r. }
  assert (Hbuilt : voteBuilt ext c
            (user.set_AllVotes
               (<[Go.EncodeToString (Go.bytes_of h) := user.SigSetVotes c]> allVotes)
               (user.set_SigSetHash h (user.set_CurrentCommittee committee c)))
            msg).
  { exists allVotes, sigBLS, pl, sigEd. cbn. done. }
  unfold sendSigSetVoteChan. cbn -[sortition.Verify].
  destruct (chan _) as [ahead| |] eqn:Hchan; cbn -[sortition.Verify].
  - rewrite Hv. split; [done|]. exists msg, ahead.
    split; [exact Hbuilt|]. split; [exact Hsend|]. split; [exact Hchan|].
    unfold delivered, atSend. done.
  - exists msg. split; [done|]. split; [exact Hbuilt|]. split; [exact Hsend|].
    split; [reflexivity|exact Hchan].
  - split; [done|]. right. exists msg.
    split; [exact Hbuilt|]. split; [exact Hsend|]. split; [reflexivity|exact Hchan].
Qed.

End Casting.

(** X10. The vote limit is the length of the current committee as a uint8:
    when that length is a multiple of 256, in particular for an empty
    committee, the limit is zero and the first vote received ends the count
    and forwards its hash, whoever sent it. *)
Theorem zero_vote_limit_ends_count_at_first_vote
    (c : user.Context Vote) (m : Message) (pl : SigSetVote.t)
    (rest : list (@SelectEvent Vote)) :
  Z.of_nat (length (user.CurrentCommittee c)) mod 256 = 0 ->
  MsgConsensus.Payload m = MsgConsensus.PlSigSetVote pl ->
  countLoop (voteLimit c) c emptyTally (Recv m :: rest)
  = Returned (forwarded c pl) (ExitQuorum pl) rest.
Proof.
  intros Hz Hpl. unfold voteLimit, Go.uint8 at 1. rewrite Hz.
  cbn [countLoop]. unfold voteCase. rewrite Hpl. cbn [emptyTally voters counts].
  rewrite map_get_empty.
  rewrite map_get_insert, decide_True by reflexivity.
  assert (H0 : (Go.uint8 (Go.map_get 0 (∅ : gmap string Z)
                   (Go.EncodeToString (Go.bytes_of (SigSetVote.SigSetHash pl)))
                 + sortition.Verify (user.CurrentCommittee c) (MsgConsensus.PubKey m)) <? 0)
               = false).
  { apply Z.ltb_ge. unfold Go.uint8. apply Z.mod_pos_bound. lia. }
  rewrite H0. reflexivity.
Qed.

(** ** The generation loop *)

Lemma generationLoop_own_key (c : user.Context Vote) voters highest pre m post pk :
  MsgConsensus.PubKey m = pk ->
  (exists pl, MsgConsensus.Payload m = MsgConsensus.PlSigSetCandidate pl) ->
  Go.map_get false voters (Go.EncodeToString pk) = true ->
  match generationLoop ext c voters highest (pre ++ Recv m :: post),
        generationLoop ext c voters highest (pre ++ post) with
  | GenReturned c1 e1 _, GenReturned c2 e2 _ => c1 = c2 /\ e1 = e2
  | GenWaiting c1 v1 h1, GenWaiting c2 v2 h2 => c1 = c2 /\ v1 = v2 /\ h1 = h2
  | GenPanic _, GenPanic _ => True
  | _, _ => False
  end.
Proof.
  intros Hpk [pl Hpl] Hown. revert c voters highest Hown.
  induction pre as [|ev pre IH]; intros c voters highest Hown.
  - cbn [app generationLoop]. unfold candidateCase at 1.
    rewrite Hpl, Hpk, Hown.
    destruct (generationLoop ext c voters highest post); done.
  - cbn [app generationLoop]. destruct ev as [|x]; [done|].
    destruct (candidateCase ext c voters highest x) as [c' v' h'|c' e|] eqn:Hcase;
      [|done|done].
    apply IH.
    unfold candidateCase in Hcase.
    destruct (MsgConsensus.Payload x) as [|plx|]; try discriminate.
    destruct (Go.map_get false voters (Go.EncodeToString (MsgConsensus.PubKey x))) eqn:Hx.
    + injection Hcase as <- <- <-. exact Hown.
    + destruct (ProcessMsg ext c x) as [[c1 stake] perr].
      destruct perr as [[[] err]|]; try discriminate.
      * injection Hcase as <- <- <-. exact Hown.
      * destruct (hashSigSetVotes ext _); try discriminate.
        destruct (user.AllVotes_map c1); try discriminate.
        destruct (highest <? stake); injection Hcase as <- <- <-;
          rewrite map_get_insert; destruct (decide _); done.
Qed.

Lemma generationLoop_returns_at_timer (c : user.Context Vote) voters highest evs c' rest :
  generationLoop ext c voters highest evs = GenReturned c' None rest ->
  exists ms, evs = (Recv <$> ms) ++ TimerC :: rest.
Proof.
  revert c voters highest. induction evs as [|ev evs IH]; intros c voters highest H;
    cbn in H; [discriminate|].
  destruct ev as [|x].
  - simplify_eq. now exists [].
  - destruct (candidateCase ext c voters highest x) as [c1 v1 h1|c1 e|] eqn:Hcase;
      try discriminate.
    + destruct (IH _ _ _ H) as [ms ->]. now exists (x :: ms).
    + simplify_eq.
      unfold candidateCase in Hcase.
      destruct (MsgConsensus.Payload x) as [|plx|]; try discriminate.
      destruct (Go.map_get false voters (Go.EncodeToString (MsgConsensus.PubKey x)));
        try discriminate.
      destruct (ProcessMsg ext c x) as [[c2 stake] perr].
      destruct perr as [[[] err]|]; try discriminate.
      destruct (hashSigSetVotes ext _); try discriminate.
      destruct (user.AllVotes_map c2); try discriminate.
      destruct (highest <? stake); discriminate.
Qed.

(** What SignatureSetGeneration does before its loop. *)
Lemma SignatureSetGeneration_eq (w : @World Vote) :
  (exists e w', SignatureSetGeneration ext w = (Err e, w')
                /\ forall ib, SignatureSetGeneration ext (mkWorld (ctx w) ib (trace w))
                              = (Err e, mkWorld (ctx w') ib (trace w')))
  \/ (exists c1 tr1,
        forall ib,
          SignatureSetGeneration ext (mkWorld (ctx w) ib (trace w))
          = runGenerationLoop ext
              (<[Go.EncodeToString (user.EdPubKey (user.keys (ctx w))) := true]> ∅)
              (user.Weight (ctx w)) (mkWorld c1 ib tr1)).
Proof.
  destruct w as [c ib0 tr]. cbn [ctx trace].
  unfold SignatureSetGeneration.
  unfold mbind, M_bind, bind, getCtx, modifyCtx, emit, try, check, ret.
  cbn [ctx inbox trace fst snd].
  destruct (NewSigSetCandidate ext _ _ _ _) as [e|pl]; [left; eauto|].
  destruct (CreateSignature ext _ _) as [e|sigEd]; [left; eauto|].
  destruct (NewMsgConsensus ext _ _ _ _ _ _ _) as [e|msg]; [left; eauto|].
  cbn [ctx inbox trace].
  destruct (SendMessage ext _ msg) as [e|]; [left; eauto|].
  cbn [ctx inbox trace].
  destruct (hashSigSetVotes ext _) as [e|h]; [left; eauto|].
  unfold writeAllVotes, mbind, M_bind, bind, getCtx, modifyCtx.
  cbn [ctx inbox trace user.AllVotes_map user.set_AllVotes]. right. eauto.
Qed.

(** X11. In the signature set generation a candidate that comes from the
    node's own key is ignored wherever it arrives: the result, the context
    and the effects are those of the run without it. The function returns
    nil only when its timer fires. *)
Theorem generation_ignores_own_candidate_and_waits_for_timer
    (w : @World Vote) (pre post : list (@SelectEvent Vote)) (m : Message)
    (pl : SigSetCandidate.t Vote) :
  inbox w = pre ++ Recv m :: post ->
  MsgConsensus.PubKey m = user.EdPubKey (user.keys (ctx w)) ->
  MsgConsensus.Payload m = MsgConsensus.PlSigSetCandidate pl ->
  let r := SignatureSetGeneration ext w in
  let r' := SignatureSetGeneration ext (mkWorld (ctx w) (pre ++ post) (trace w)) in
  fst r = fst r'
  /\ (fst r <> Panic -> ctx (snd r) = ctx (snd r') /\ trace (snd r) = trace (snd r'))
  /\ (fst r = Ok tt ->
      exists ms, inbox w = (Recv <$> ms) ++ TimerC :: inbox (snd r)).
Proof.
  intros Hib Hpk Hpl. cbv zeta.
  destruct w as [c ib tr]. cbn [ctx inbox trace] in *. subst ib.
  destruct (SignatureSetGeneration_eq (mkWorld c (pre ++ Recv m :: post) tr))
    as [(e & w' & _ & Hall)|(c1 & tr1 & Hall)]; cbn [ctx trace] in Hall.
  - rewrite !Hall. cbn. done.
  - rewrite !Hall. unfold runGenerationLoop. cbn [ctx inbox trace].
    pose proof (generationLoop_own_key c1
                  (<[Go.EncodeToString (user.EdPubKey (user.keys c)) := true]> ∅)
                  (user.Weight c) pre m post _ Hpk (ex_intro _ pl Hpl)) as Hown.
    rewrite map_get_insert, decide_True in Hown by reflexivity.
    specialize (Hown eq_refl).
    destruct (generationLoop ext c1 _ _ (pre ++ Recv m :: post))
      as [c2 e2 rest2|c2 v2 h2|rest2] eqn:H1;
      destruct (generationLoop ext c1 _ _ (pre ++ post))
        as [c3 e3 rest3|c3 v3 h3|rest3] eqn:H2; try done.
    + destruct Hown as [-> ->]. destruct e3 as [e|]; cbn; [done|].
      repeat split; try done. intros _.
      apply (generationLoop_returns_at_timer _ _ _ _ _ _ H1).
    + destruct Hown as (-> & -> & ->). cbn. done.
Qed.

End Facts.
End vote_facts.

(** * The hash of a vote set, the framing of events, the selector *)

Module hash_facts.
Import consensus hash_props.

Section Facts.

Context {Vote : Type}.

Variable ext : @Externals Vote.

Lemma encodeVotes_encodings (buf : list byte) (votes : list Vote) :
  encodeVotes ext buf votes
  = match encodings ext votes with
    | inl e => inl e
    | inr encs => inr (buf ++ concat encs)
    end.
Proof.
  revert buf. induction votes as [|vote rest IH]; intros buf; cbn.
  - now rewrite app_nil_r.
  - destruct (Vote_Encode ext vote) as [e|bs]; [reflexivity|].
    rewrite IH. destruct (encodings ext rest) as [e|encs]; [reflexivity|].
    cbn. now rewrite app_assoc.
Qed.

(** X12. [hashSigSetVotes] hashes the concatenation of the encodings of the
    votes, in their order, and fails with the error of the first vote that
    does not encode. Nothing separates one vote from the next: two sets whose
    encodings concatenate to the same bytes have the same hash. *)
Theorem hashSigSetVotes_hashes_the_concatenation (votes : list Vote) :
  hashSigSetVotes ext votes
  = match encodings ext votes with
    | inl e => inl e
    | inr encs => Sha3256 ext (concat encs)
    end
  /\ forall votes' encs encs',
       encodings ext votes = inr encs ->
       encodings ext votes' = inr encs' ->
       concat encs = concat encs' ->
       hashSigSetVotes ext votes = hashSigSetVotes ext votes'.
Proof.
  assert (Heq : forall vs,
            hashSigSetVotes ext vs
            = match encodings ext vs with
              | inl e => inl e
              | inr encs => Sha3256 ext (concat encs)
              end).
  { intros vs. unfold hashSigSetVotes. rewrite encodeVotes_encodings.
    destruct (encodings ext vs); reflexivity. }
  split; [apply Heq|].
  intros votes' encs encs' H1 H2 Hc. rewrite !Heq, H1, H2. now rewrite Hc.
Qed.

End Facts.
End hash_facts.

Module framing_facts.
Import events events_props events_facts.

Section Facts.

Variable enc : Encoding.
Hypothesis laws : EncodingLaws enc.

#[local] Existing Instance Result_bind.

Lemma ok_inj {A} (a b : A) : @Ok A a = Ok b -> a = b.
Proof. now intros [= ->]. Qed.

(** X13. The marshalling of an event is self-delimiting: when the bytes of
    two reductions (or of two agreements), each followed by anything, are the
    same stream, the two events are equal and so is what follows them. No
    marshalled event is a proper prefix of another. *)
Theorem marshalled_events_are_self_delimiting :
  (forall (x y : Reduction) bx by_ restx resty,
     wfReduction x -> wfReduction y ->
     Reduction_Marshal enc [] (EvReduction x) = Ok bx ->
     Reduction_Marshal enc [] (EvReduction y) = Ok by_ ->
     bx ++ restx = by_ ++ resty ->
     x = y /\ restx = resty)
  /\ (forall (x y : Agreement) bx by_ restx resty,
        wfAgreement x -> wfAgreement y ->
        Agreement_Marshal enc [] (EvAgreement x) = Ok bx ->
        Agreement_Marshal enc [] (EvAgreement y) = Ok by_ ->
        bx ++ restx = by_ ++ resty ->
        x = y /\ restx = resty).
Proof.
  split.
  - intros x y bx by_ restx resty Hx Hy Mx My Heq.
    destruct (Reduction_roundtrip enc laws [] x bx x Hx Mx) as (b1 & -> & R1).
    destruct (Reduction_roundtrip enc laws [] y by_ x Hy My) as (b2 & -> & R2).
    cbn [app] in Heq. specialize (R1 restx). specialize (R2 resty).
    rewrite Heq, R2 in R1. apply ok_inj in R1. now simplify_eq.
  - intros x y bx by_ restx resty Hx Hy Mx My Heq.
    destruct (Agreement_roundtrip enc laws [] x bx x Hx Mx) as (b1 & -> & R1).
    destruct (Agreement_roundtrip enc laws [] y by_ x Hy My) as (b2 & -> & R2).
    cbn [app] in Heq. specialize (R1 restx). specialize (R2 resty).
    rewrite Heq, R2 in R1. apply ok_inj in R1. now simplify_eq.
Qed.

(** X14. [MarshalVoteSet] succeeds on reductions only; it keeps what the
    buffer held and appends the set, and [UnmarshalVoteSet] reads the same
    votes back from the appended bytes, leaving whatever follows them. *)
Theorem vote_set_roundtrip_keeps_what_follows (r : Buffer) (evs : list Event) (buf : Buffer) :
  Z.of_nat (length evs) < 2 ^ 64 ->
  Forall wfVote evs ->
  MarshalVoteSet enc r evs = Ok buf ->
  Forall (fun ev => exists red, ev = EvReduction red) evs
  /\ exists bs, buf = r ++ bs
       /\ forall rest, UnmarshalVoteSet enc (bs ++ rest) = Ok (rest, evs).
Proof.
  intros Hlen Hwf H. split; [|now apply VoteSet_roundtrip].
  unfold MarshalVoteSet in H.
  apply result_bind_inv in H as (r1 & _ & H). clear Hlen Hwf.
  revert r1 H. induction evs as [|ev evs IH]; intros r1 H; [constructor|].
  cbn [marshalVotes] in H. apply result_bind_inv in H as (r2 & H2 & H).
  constructor; [|now apply (IH r2)].
  destruct ev as [h|red|a]; try discriminate. now exists red.
Qed.

End Facts.
End framing_facts.

Module committee_facts.
Import committee.

Section Facts.

Context {E : Type}.

Variable Sender : E -> list byte.
Variable Priority : list byte -> list byte -> bool.

(** X15. [PickBest] never picks an event: [bestEvent] starts as the nil
    interface, so the first event received makes [bestEvent.Sender()] panic,
    whatever the event; when the timer or the stop signal comes first, the
    nil event is what is sent on [BestEventChan]. With nothing to receive the
    selector stays blocked. *)
Theorem PickBest_never_picks_an_event (evs : list (@SelectEvent E)) :
  PickBest Sender Priority evs
  = match evs with
    | [] => Blocked
    | EventChan _ :: rest => Panic rest
    | TimerC :: rest | StopChan :: rest => Picked None rest
    end.
Proof. destruct evs as [|[ev| |] rest]; reflexivity. Qed.

End Facts.
End committee_facts.

(** * The mempool *)

Module mempool_facts.
Import mempool mempool_props.

Section Facts.

Context {ContractCall PoolState : Type}.

Variable env : Environment ContractCall PoolState.

#[local] Abbreviation TxDesc := (TxDesc ContractCall).
#[local] Abbreviation Mempool := (Mempool ContractCall PoolState).

(** X16. A transaction that [processTx] accepted is refused when it is
    processed again, whatever the other fields of its descriptor: the answer
    is [ErrAlreadyExists] under the same id, and the mempool is left as it
    was: no verification, no store, no propagation. The pool is asked to
    contain what was put into it. *)
Theorem accepted_transaction_is_refused_again (t t2 : TxDesc) (m m' : Mempool)
    (txid : list byte) :
  PoolLaws env ->
  processTx env t m = ((txid, None), m') ->
  tx t2 = tx t ->
  processTx env t2 m' = ((txid, Some ErrAlreadyExists), m').
Proof.
  intros laws H Htx. unfold processTx in *. rewrite Htx.
  destruct (CalculateHash env (tx t)) as [h err] eqn:Hh.
  destruct err as [e|]; [discriminate|].
  destruct (decide (Type_ env (tx t) = Distribute)); [discriminate|].
  destruct (Contains (pool env) (verifiedPool m) h); [discriminate|].
  unfold checkTx in H. cbn in H.
  destruct (VerifyTransaction env (trace m) (tx t)); [discriminate|].
  destruct (Put (pool env) (verifiedPool m) _) as [p' perr] eqn:HPut.
  destruct perr; [discriminate|]. simplify_eq. cbn.
  rewrite (law_Put env laws _ _ _ _ HPut); [reflexivity|]. exact Hh.
Qed.

Lemma rangeSort_bySize (maxTxsSize : Z) (entries : list (list byte * TxDesc))
    (txs : list ContractCall) (total : Z) :
  0 <= total <= maxTxsSize ->
  Forall (fun e => 0 <= size (snd e) /\ maxTxsSize + size (snd e) < 2 ^ 32) entries ->
  exists n,
    fst (rangeSort (bySizeCallback maxTxsSize) (txs, total) entries)
    = txs ++ txsOf (take n entries)
    /\ total + totalSize (take n entries) <= maxTxsSize
    /\ ((length entries <= n)%nat
        \/ maxTxsSize < total + totalSize (take (S n) entries)).
Proof.
  revert txs total. induction entries as [|[k t] rest IH]; intros txs total Ht Hall.
  - exists 0%nat. cbn. rewrite app_nil_r. split; [reflexivity|]. split; [lia|]. left. lia.
  - apply Forall_cons in Hall as [[Hs Hm] Hall]. cbn in Hs, Hm.
    cbn [rangeSort bySizeCallback]. unfold uint32.
    rewrite (Z.mod_small (size t)) by lia.
    rewrite (Z.mod_small (total + size t)) by lia.
    destruct (total + size t <=? maxTxsSize) eqn:Hle.
    + apply Z.leb_le in Hle.
      destruct (IH (txs ++ [tx t]) (total + size t) ltac:(lia) Hall) as (n & E & Hfit & Hmax).
      exists (S n). cbn [take txsOf fmap list_fmap totalSize foldr snd].
      rewrite E. rewrite <- app_assoc. split; [reflexivity|].
      unfold totalSize in *. split; [lia|].
      destruct Hmax as [Hmax|Hmax]; [left; cbn; lia|right].
      cbn [take foldr snd] in *. lia.
    + apply Z.leb_gt in Hle. exists 0%nat. cbn. rewrite app_nil_r.
      split; [reflexivity|]. split; [lia|]. right. rewrite take_0. cbn. lia.
Qed.

(** X17. [processGetMempoolTxsBySizeRequest] returns the longest prefix of
    the pool, in the order of [RangeSort], whose summed size is within
    [maxTxsSize]: either the whole pool, or the next transaction would exceed
    the limit. A later transaction that would still fit is not returned. The
    sizes are summed in [uint32]; the limit plus any single size is asked to
    stay below 2^32. *)
Theorem size_request_returns_longest_affordable_prefix
    (buf : list byte) (maxTxsSize : Z) (entries : list (list byte * TxDesc))
    (m : Mempool) :
  ReadUint32LE env buf = inr maxTxsSize ->
  0 <= maxTxsSize ->
  sorted (pool env) (verifiedPool m) = inr entries ->
  Forall (fun e => 0 <= size (snd e) /\ maxTxsSize + size (snd e) < 2 ^ 32) entries ->
  exists n,
    processGetMempoolTxsBySizeRequest env (ParamsBuffer buf) m
    = Ok (inr (txsOf (take n entries)))
    /\ totalSize (take n entries) <= maxTxsSize
    /\ ((length entries <= n)%nat \/ maxTxsSize < totalSize (take (S n) entries)).
Proof.
  intros Hread Hmax Hsorted Hall. unfold processGetMempoolTxsBySizeRequest.
  rewrite Hread, Hsorted.
  destruct (rangeSort_bySize maxTxsSize entries [] 0 ltac:(lia) Hall) as (n & E & Hfit & Hlong).
  exists n. rewrite E. cbn. split; [reflexivity|]. split; [lia|]. exact Hlong.
Qed.

Lemma rangeSort_all (entries : list (list byte * TxDesc)) (txs : list ContractCall) :
  rangeSort allCallback txs entries = txs ++ txsOf entries.
Proof.
  revert txs. induction entries as [|[k t] rest IH]; intros txs; cbn.
  - now rewrite app_nil_r.
  - rewrite IH. now rewrite <- app_assoc.
Qed.

(** X18. [processGetMempoolTxsRequest] looks one transaction up only for a
    filter of 32 bytes; a filter of any other length, empty or not, is
    ignored and the whole pool is returned in the order of [RangeSort] (or
    the error of [RangeSort]). *)
Theorem filter_of_another_length_returns_the_whole_pool
    (filterTxID : list byte) (m : Mempool) :
  length filterTxID <> 32%nat ->
  processGetMempoolTxsRequest env (ParamsBuffer filterTxID) m
  = match sorted (pool env) (verifiedPool m) with
    | inl e => Ok (inl e)
    | inr entries => Ok (inr (txsOf entries))
    end.
Proof.
  intros Hlen. unfold processGetMempoolTxsRequest.
  destruct (Nat.eqb_spec (length filterTxID) 32) as [E|_]; [contradiction|].
  destruct (sorted _ _) as [e|entries]; [reflexivity|].
  now rewrite rangeSort_all.
Qed.

Lemma removeLoop_spec (txs : list ContractCall) (m : Mempool) :
  PoolLaws env ->
  Forall (hashable env) txs ->
  forall absent : list (list byte),
    Forall (fun h => Contains (pool env) (verifiedPool m) h = false) absent ->
    let r := removeLoop env txs m in
    fst r = Ok tt
    /\ latestBlockTimestamp (snd r) = latestBlockTimestamp m
    /\ trace (snd r) = trace m ++ (CallDelete <$> (hashOf env <$> txs))
    /\ Forall (fun h => Contains (pool env) (verifiedPool (snd r)) h = false)
         (absent ++ (hashOf env <$> txs)).
Proof.
  intros laws Hall. revert m. induction Hall as [|c rest Hc Hall IH]; intros m absent Habs.
  - cbn. rewrite !app_nil_r. done.
  - cbn [removeLoop]. unfold hashable in Hc.
    destruct (CalculateHash env c) as [h err] eqn:Hh. cbn in Hc. subst err.
    destruct (Delete (pool env) (verifiedPool m) h) as [p' derr] eqn:Hd.
    specialize (IH (add_effect (CallDelete h) (set_verifiedPool p' m)) (absent ++ [h])).
    cbn in IH. destruct IH as (Hok & Hts & Htr & Hgone).
    + apply Forall_app. split.
      * eapply Forall_impl; [exact Habs|]. intros h' Hh'. cbn in Hh'.
        pose proof (law_Delete_absent env laws (verifiedPool m) h h' Hh') as L.
        now rewrite Hd in L.
      * constructor; [|constructor].
        pose proof (law_Delete env laws (verifiedPool m) h) as L. now rewrite Hd in L.
    + cbn. split; [exact Hok|]. split; [exact Hts|]. unfold hashOf at 1 3. rewrite Hh. cbn.
      split; [rewrite Htr; now rewrite <- app_assoc|].
      now rewrite <- app_assoc in Hgone.
Qed.

(** X19. After [onBlock], none of the transactions of the accepted block is
    in the pool and the timestamp of the latest block is the block's; the
    deletions are made in the order of the block, their errors are ignored,
    and an empty pool is not touched at all. The transactions are asked to
    hash without error ([removeAccepted] panics otherwise), the pool to
    forget what is deleted. *)
Theorem accepted_transactions_leave_the_pool
    (b : block.Block ContractCall) (m : Mempool) :
  PoolLaws env ->
  Forall (hashable env) (block.Txs b) ->
  let r := onBlock env b m in
  fst r = Ok tt
  /\ latestBlockTimestamp (snd r) = block.Timestamp (block.header b)
  /\ Forall (fun c => Contains (pool env) (verifiedPool (snd r)) (hashOf env c) = false)
       (block.Txs b)
  /\ trace (snd r)
     = trace m ++ (if Len (pool env) (verifiedPool m) =? 0 then []
                   else CallDelete <$> (hashOf env <$> block.Txs b)).
Proof.
  intros laws Hall. unfold onBlock, removeAccepted. cbn.
  destruct (Len (pool env) (verifiedPool m) =? 0) eqn:Hlen; cbn.
  - apply Z.eqb_eq in Hlen. rewrite app_nil_r. repeat split.
    apply Forall_forall. intros c _. now apply (law_Len env laws).
  - destruct (removeLoop_spec (block.Txs b)
                (set_latestBlockTimestamp (block.Timestamp (block.header b)) m)
                laws Hall [] ltac:(constructor)) as (Hok & Hts & Htr & Hgone).
    cbn in *. repeat split; try assumption.
    now apply Forall_fmap in Hgone.
Qed.

End Facts.
End mempool_facts.

(** * The connection manager *)

Module connmgr_facts.
Import connmgr connmgr_props.

Section Facts.

Variable cfg : Config.

Lemma uint8_small (z : Z) : 0 <= z < 256 -> uint8 z = z.
Proof. intros H. unfold uint8. now apply Z.mod_small. Qed.

(** A request that is neither inbound nor permanent and has failed
    [5 - k] times: [k + 1] more dials, then it is dropped. *)
Lemma retry_chain (p : positive) (k : nat) :
  forall (c : Connmgr) (r : Request),
    heap c !! p = Some r ->
    Inbound r = false -> Permanent r = false ->
    Retries r = 5 - Z.of_nat k -> (k <= 5)%nat ->
    goroutines c = [] ->
    unreachable cfg (Addr r) ->
    exists err c1 c2,
      Connect cfg p c = (Ok (Some err), c1)
      /\ (forall fuel, (k <= fuel)%nat -> runGoroutines cfg fuel c1 = (Ok tt, c2))
      /\ goroutines c2 = []
      /\ heap c2 = <[p := set_Retries 6 r]> (heap c)
      /\ PendingList c2 = delete (Addr r) (PendingList c)
      /\ ConnectedList c2 = ConnectedList c
      /\ trace c2
         = trace c ++ replicate (S k) (CallDial (Addr r))
             ++ (if OnFail cfg then [CallOnFail (Addr r)] else []).
Proof.
  induction k as [|k IH]; intros c r Hp Hin Hperm Hret Hk Hgo Hdial.
  - destruct (Hdial (trace c)) as [err Herr].
    unfold Connect. rewrite Hp. cbn. rewrite Herr.
    unfold pending. cbn. rewrite lookup_insert_eq. cbn.
    unfold failed. cbn. rewrite lookup_insert_eq. cbn. rewrite Hin, Hperm. cbn.
    rewrite Hret. cbn. rewrite delete_insert_eq.
    replace (set_Retries (uint8 (5 - 0 + 1)) r) with (set_Retries 6 r) by reflexivity.
    destruct (OnFail cfg); cbn; eexists err, _, _; (split; [reflexivity|]);
      (split; [intros [|fuel] _; cbn; rewrite ?Hgo; reflexivity|]);
      cbn; rewrite ?Hgo, <- ?app_assoc; cbn; rewrite ?app_nil_r; repeat split; reflexivity.
  - destruct (Hdial (trace c)) as [err Herr].
    assert (Hsmall : uint8 (Retries r + 1) = 5 - Z.of_nat k).
    { rewrite uint8_small by lia. lia. }
    set (r1 := set_Retries (5 - Z.of_nat k) r).
    set (c1 := mkConnmgr (<[p := r1]> (heap c)) (<[Addr r := p]> (PendingList c))
                 (ConnectedList c) [] (trace c ++ [CallDial (Addr r)])).
    destruct (IH c1 r1) as (err2 & c2 & c3 & HC & Hrun & Hgo3 & Hheap & Hpend & Hconn & Htr);
      try (cbn; first [reflexivity | assumption | lia]).
    { cbn. apply lookup_insert_eq. }
    exists err, (set_goroutines [p] c1), c3. split.
    { unfold Connect. rewrite Hp. cbn. rewrite Herr.
      unfold pending. cbn. rewrite lookup_insert_eq. cbn.
      unfold failed. cbn. rewrite lookup_insert_eq. cbn. rewrite Hin, Hperm. cbn.
      rewrite Hsmall. destruct (5 <? 5 - Z.of_nat k) eqn:E; [apply Z.ltb_lt in E; lia|].
      rewrite Hgo. subst c1 r1. unfold maxRetries. rewrite E. reflexivity. }
    split.
    { intros fuel Hfuel. destruct fuel as [|fuel]; [lia|]. cbn [runGoroutines].
      cbn [goroutines set_goroutines]. 
      replace (set_goroutines [] (set_goroutines [p] c1)) with c1 by reflexivity.
      rewrite HC. apply Hrun. lia. }
    split; [exact Hgo3|]. cbn in Hheap, Hpend, Hconn, Htr.
    split; [rewrite Hheap; now rewrite insert_insert_eq|].
    split; [rewrite Hpend; now rewrite delete_insert_eq|].
    split; [exact Hconn|].
    rewrite Htr. rewrite <- app_assoc. reflexivity.
Qed.

(** X20. A peer that cannot be reached is dialled six times and then
    dropped: [NewRequest] dials it once, the [failed] closure starts
    [Connect] again as long as [Retries] is not above [maxRetries] = 5, and
    after the sixth failure the address leaves the pending list and [OnFail]
    is called once, if it is set. Nothing else is done, and the connected
    list is untouched. *)
Theorem unreachable_peer_is_dialled_six_times_then_dropped (c : Connmgr) (addr : string) :
  GetAddress cfg (trace c) = inr addr ->
  unreachable cfg addr ->
  goroutines c = [] ->
  exists c1 c2,
    NewRequest cfg c = (Ok tt, c1)
    /\ (forall fuel, (5 <= fuel)%nat -> runGoroutines cfg fuel c1 = (Ok tt, c2))
    /\ goroutines c2 = []
    /\ PendingList c2 = delete addr (PendingList c)
    /\ ConnectedList c2 = ConnectedList c
    /\ trace c2
       = trace c ++ replicate 6 (CallDial addr)
           ++ (if OnFail cfg then [CallOnFail addr] else []).
Proof.
  intros Haddr Hdial Hgo. unfold NewRequest. rewrite Haddr.
  set (p := fresh (dom (heap c))).
  set (r := mkRequest addr 0 None false false).
  set (c0 := set_heap (<[p := r]> (heap c)) c).
  destruct (retry_chain p 5 c0 r) as (err & c1 & c2 & HC & Hrun & Hgo2 & _ & Hpend & Hconn & Htr);
    try (cbn; first [reflexivity | assumption | lia]).
  { cbn. apply lookup_insert_eq. }
  exists c1, c2. rewrite HC. repeat split; assumption.
Qed.

Lemma fresh_ne (h : gmap positive Request) (p : positive) (r : Request) :
  h !! p = Some r -> fresh (dom h) <> p.
Proof.
  intros Hp E. apply (is_fresh (dom h)). rewrite E. apply elem_of_dom. eauto.
Qed.

(** The manager after a successful [Connect] of the request at [p]. *)
Lemma Connect_connected (c : Connmgr) (p : positive) (r : Request) (conn : net_Conn) :
  heap c !! p = Some r ->
  dial cfg (trace c) (Addr r) = inr conn ->
  Connect cfg p c
  = (Ok None,
     mkConnmgr (<[p := mkRequest (Addr r) 0 (Some conn) true (Permanent r)]> (heap c))
       (delete (Addr r) (PendingList c)) (<[Addr r := p]> (ConnectedList c))
       (goroutines c)
       (trace c ++ CallDial (Addr r)
          :: (if OnConnection cfg then [CallOnConnection (Some conn) (Addr r)] else []))).
Proof.
  intros Hp Hdial. unfold Connect. rewrite Hp. cbn. rewrite Hdial. cbn.
  rewrite lookup_insert_eq.
  destruct (OnConnection cfg);
    unfold add_effect, set_PendingList, set_ConnectedList, set_heap, set_Retries,
      set_Inbound, set_Conn; cbn; rewrite !insert_insert_eq, <- ?app_assoc; reflexivity.
Qed.

(** X21. A peer that [Connect] reached is redialled at once when it is
    disconnected: [Connect] marks the request inbound and [connected] resets
    its retries, so [Disconnect] closes the connection, takes the address out
    of both lists, and schedules [Connect] with a delay of 0 seconds on a
    copy of the request that still holds the closed connection. *)
Theorem disconnected_peer_is_redialled_at_once
    (c : Connmgr) (p : positive) (r : Request) (conn : net_Conn) :
  heap c !! p = Some r ->
  dial cfg (trace c) (Addr r) = inr conn ->
  exists c1 c2,
    Connect cfg p c = (Ok None, c1)
    /\ ConnectedList c1 !! Addr r = Some p
    /\ Disconnect cfg (Addr r) c1 = (Ok tt, c2)
    /\ listed (Addr r) c2 = None
    /\ heap c2 !! p = Some (mkRequest (Addr r) 0 None true (Permanent r))
    /\ heap c2 !! fresh (dom (heap c1))
       = Some (mkRequest (Addr r) 0 (Some conn) true (Permanent r))
    /\ trace c2
       = trace c1 ++ [CallClose conn; AfterFunc 0 (fresh (dom (heap c1)))].
Proof.
  intros Hp Hdial. rewrite (Connect_connected c p r conn Hp Hdial).
  set (r1 := mkRequest (Addr r) 0 (Some conn) true (Permanent r)).
  set (h1 := <[p := r1]> (heap c)).
  assert (Hp1 : h1 !! p = Some r1) by apply lookup_insert_eq.
  pose proof (fresh_ne h1 p r1 Hp1) as Hfresh.
  eexists _, _. split; [reflexivity|]. cbn.
  split; [apply lookup_insert_eq|].
  unfold Disconnect. cbn. rewrite lookup_insert_eq. unfold disconnected. cbn.
  fold h1. rewrite Hp1. cbn. unfold failed. cbn.
  rewrite lookup_insert_ne by (intros E; now apply Hfresh).
  rewrite lookup_insert_eq. cbn.
  split; [reflexivity|]. unfold listed. cbn. rewrite !lookup_delete_eq.
  split; [reflexivity|]. split; [apply lookup_insert_eq|].
  split.
  - rewrite lookup_insert_ne by (intros E; now apply Hfresh).
    apply lookup_insert_eq.
  - rewrite <- !app_assoc. reflexivity.
Qed.

(** X22. [Disconnect] panics unless the address is listed with a request
    that holds a connection: for an address in neither list the closure of
    [disconnected] dereferences the nil request right after it has set its
    error, and for a pending request that was never connected it closes the
    nil connection. The error "Request object is nil" is never returned. *)
Theorem Disconnect_panics_without_a_connection (c : Connmgr) (addr : string) :
  (forall p r, listed addr c = Some p -> heap c !! p = Some r -> Conn r = None) ->
  fst (Disconnect cfg addr c) = Panic.
Proof.
  intros H. unfold Disconnect. fold (listed addr c).
  destruct (listed addr c) as [p|] eqn:Hl; cbn; [|reflexivity].
  destruct (heap c !! p) as [r|] eqn:Hr; cbn; [|reflexivity].
  rewrite (H p r eq_refl Hr). reflexivity.
Qed.

End Facts.
End connmgr_facts.

(** * The map of duplicates *)

Module dupemap_facts.
Import dupemap dupemap_props.

Section Facts.

Context {Filter : Type}.

Variable cuckoo : Cuckoo Filter.

#[local] Abbreviation TmpMap := (TmpMap Filter).

Lemma add_lookup (now : Z) (b : list byte) (round : Z) (t : TmpMap) :
  exists f,
    msgFilter (snd (add cuckoo now b round t)) !! round
    = Some (mkCache f (match msgFilter t !! round with
                       | Some c => TTL c
                       | None => int64 (now + expire t)
                       end)).
Proof.
  unfold add. destruct (msgFilter t !! round) as [c|]; cbn;
    destruct (Insert cuckoo _ b) as [f ok]; cbn; exists f; apply lookup_insert_eq.
Qed.

Lemma addAll_keeps_TTL (round : Z) (adds : list (list byte * Z)) :
  forall (t : TmpMap) (c : cache Filter),
    msgFilter t !! round = Some c ->
    exists f, msgFilter (addAll cuckoo round adds t) !! round = Some (mkCache f (TTL c)).
Proof.
  induction adds as [|[b now] adds IH]; intros t c H; cbn.
  - exists (filter c). now destruct c.
  - destruct (add_lookup now b round t) as [f Hf]. rewrite H in Hf.
    destruct (IH _ _ Hf) as [f' Hf']. now exists f'.
Qed.

Lemma visitedAt_absent (visits : list (Z * Z)) (h : Z) :
  h ∉ visits.*1 -> visitedAt visits h = None.
Proof.
  induction visits as [|[k now] rest IH]; intros H; [reflexivity|].
  unfold visitedAt in *. cbn in *. apply not_elem_of_cons in H as [Hne Hrest].
  rewrite bool_decide_eq_false_2 by congruence. now apply IH.
Qed.

Lemma CleanExpired_lookup (visits : list (Z * Z)) :
  NoDup visits.*1 ->
  forall (t : TmpMap) (h : Z),
    msgFilter (CleanExpired visits t) !! h
    = match msgFilter t !! h, visitedAt visits h with
      | Some c, Some now => if TTL c <=? now then None else Some c
      | Some c, None => Some c
      | None, _ => None
      end.
Proof.
  induction visits as [|[k now] rest IH]; intros Hnd t h.
  - cbn. now destruct (msgFilter t !! h).
  - apply NoDup_cons in Hnd as [Hk Hnd]. cbn [CleanExpired foldl] in *.
    fold (CleanExpired rest (cleanStep t (k, now))). rewrite (IH Hnd).
    unfold visitedAt at 2. cbn [find fst].
    destruct (decide (k = h)) as [->|Hne].
    + rewrite bool_decide_eq_true_2 by reflexivity. cbn.
      rewrite (visitedAt_absent rest h Hk).
      destruct (msgFilter t !! h) as [c|] eqn:E; cbn; rewrite ?E; [|reflexivity].
      destruct (TTL c <=? now); cbn; [now rewrite lookup_delete_eq|now rewrite E].
    + rewrite bool_decide_eq_false_2 by congruence. fold (visitedAt rest h).
      assert (Hsame : msgFilter (cleanStep t (k, now)) !! h = msgFilter t !! h).
      { cbn. destruct (msgFilter t !! k) as [c|]; [|reflexivity].
        destruct (TTL c <=? now); cbn; [now rewrite lookup_delete_ne|reflexivity]. }
      now rewrite Hsame.
Qed.

(** X23. The expiry of a cache is fixed by the first entry of its height:
    [add] reads the clock and sets [TTL] only when it creates the cache, and
    later entries at that height leave it as it is. A cleanup that visits the
    height at or after that time drops the cache with everything in it, also
    what was added a moment before. *)
Theorem cache_expiry_is_fixed_by_first_add
    (t : TmpMap) (round : Z) (b0 : list byte) (now0 : Z) (adds : list (list byte * Z))
    (visits : list (Z * Z)) (now : Z) :
  msgFilter t !! round = None ->
  NoDup visits.*1 ->
  visitedAt visits round = Some now ->
  int64 (now0 + expire t) <= now ->
  (exists f, msgFilter (addAll cuckoo round ((b0, now0) :: adds) t) !! round
             = Some (mkCache f (int64 (now0 + expire t))))
  /\ forall b,
       HasAt cuckoo (CleanExpired visits (addAll cuckoo round ((b0, now0) :: adds) t))
         b round = false.
Proof.
  intros Hnew Hnd Hvisit Hlate.
  assert (H : exists f, msgFilter (addAll cuckoo round ((b0, now0) :: adds) t) !! round
                        = Some (mkCache f (int64 (now0 + expire t)))).
  { cbn. destruct (add_lookup now0 b0 round t) as [f Hf]. rewrite Hnew in Hf.
    destruct (addAll_keeps_TTL round adds _ _ Hf) as [f' Hf']. now exists f'. }
  split; [exact H|]. destruct H as [f Hf]. intros b. unfold HasAt, has.
  rewrite (CleanExpired_lookup visits Hnd), Hf, Hvisit. cbn.
  destruct (Z.leb_spec (int64 (now0 + expire t)) now) as [_|Hlt]; [reflexivity|lia].
Qed.

(** X24. [CleanExpired] drops exactly the caches whose [TTL] is not after
    the time read when their height is visited, and leaves every other cache
    as it was, in whatever order the heights are visited. *)
Theorem CleanExpired_drops_exactly_the_expired (visits : list (Z * Z)) (t : TmpMap) :
  NoDup visits.*1 ->
  (forall h, is_Some (msgFilter t !! h) -> is_Some (visitedAt visits h)) ->
  forall h,
    msgFilter (CleanExpired visits t) !! h
    = match msgFilter t !! h, visitedAt visits h with
      | Some c, Some now => if TTL c <=? now then None else Some c
      | _, _ => None
      end.
Proof.
  intros Hnd Hall h. rewrite (CleanExpired_lookup visits Hnd).
  destruct (msgFilter t !! h) as [c|] eqn:E; [|reflexivity].
  destruct (Hall h) as [now Hnow]; [rewrite E; eauto|]. now rewrite Hnow.
Qed.

End Facts.
End dupemap_facts.

(** * The connector of peers *)

Module peer_facts.
Import peer peer_props.

Section Facts.

Variable env : Environment.

Lemma size_addPeer (address : string) (c : Connector) :
  (size (registry (addPeer address c)) <= S (size (registry c)))%nat.
Proof.
  cbn. rewrite size_union_alt, size_singleton.
  assert (Hsub : registry c ∖ {[address]} ⊆ registry c)
    by (apply subseteq_difference_l; reflexivity).
  apply subseteq_size in Hsub. lia.
Qed.

(** X25. [ProcessNewAddress] refuses a new address only when the number of
    connections is above the limit ([MaxConnections], or 50 when that is 0):
    it never brings the registry above the limit plus one, and it does bring
    it there when the registry is at the limit and the dial and the handshake
    of a new peer succeed. An inbound connection is registered whatever the
    number of connections. *)
Theorem connections_may_exceed_the_limit_by_one
    (srcPeerID : string) (m : Payload) (c : Connector) :
  GetConnectionsCount (snd (ProcessNewAddress env srcPeerID m c))
  <= Z.max (GetConnectionsCount c) (connectionLimit env + 1)
  /\ (forall addr conn,
        m = PlAddr addr ->
        GetConnectionsCount c = connectionLimit env ->
        fst (Dial env addr c) = inr conn ->
        Writer_Connect env (trace (snd (Dial env addr c))) conn = None ->
        Writer_Addr env conn ∉ registry c ->
        fst (ProcessNewAddress env srcPeerID m c) = Ok None
        /\ GetConnectionsCount (snd (ProcessNewAddress env srcPeerID m c))
           = connectionLimit env + 1)
  /\ (forall conn,
        Reader_Accept env (trace c) conn = None ->
        registry (acceptConnection env conn c) = {[Reader_Addr env conn]} ∪ registry c).
Proof.
  unfold ProcessNewAddress, GetConnectionsCount. fold (connectionLimit env).
  split; [|split].
  - destruct (Z.ltb_spec (connectionLimit env) (Z.of_nat (size (registry c)))) as [Hfull|Hroom];
      cbn; [lia|].
    destruct m as [addr|]; cbn; [|lia].
    unfold Connect, Dial. destruct (net_DialTimeout env _ addr _) as [err|conn]; cbn; [lia|].
    unfold proposeConnection. cbn. destruct (Writer_Connect env _ conn); cbn; [lia|].
    pose proof (size_addPeer (Writer_Addr env conn) c) as H. cbn in H. lia.
  - intros addr conn -> Hsize Hdial Hshake Hnew.
    destruct (Z.ltb_spec (connectionLimit env) (Z.of_nat (size (registry c)))) as [Hfull|_];
      [lia|].
    unfold Connect. unfold Dial in *. cbn in *. rewrite Hdial. cbn.
    unfold proposeConnection. cbn. rewrite Hshake. cbn. split; [reflexivity|].
    rewrite size_union by set_solver. rewrite size_singleton. lia.
  - intros conn Hacc. unfold acceptConnection. rewrite Hacc. reflexivity.
Qed.

End Facts.
End peer_facts.

(** * Raw sessions on the SAM bridge *)

Module sam3_facts.
Import sam3 sam3_props.

Lemma IndexByte_absent (l : list byte) (c : byte) : c ∉ l -> IndexByte l c = -1.
Proof.
  induction l as [|x l IH]; intros H; [reflexivity|]. cbn.
  apply not_elem_of_cons in H as [Hne Hl].
  destruct (Byte.eqb x c) eqn:E; [apply Byte.byte_dec_bl in E; congruence|].
  now rewrite (IH Hl).
Qed.

Lemma IndexByte_nonneg_or_absent (l : list byte) (c : byte) :
  IndexByte l c = -1 \/ 0 <= IndexByte l c.
Proof.
  induction l as [|x l IH]; [now left|]. cbn.
  destruct (Byte.eqb x c); [right; lia|].
  destruct (IndexByte l c <? 0) eqn:E; [now left|]. apply Z.ltb_ge in E. right. lia.
Qed.

Lemma IndexByte_first (h rest : list byte) (c : byte) :
  c ∉ h -> IndexByte (h ++ c :: rest) c = Z.of_nat (length h).
Proof.
  induction h as [|x h IH]; intros H; cbn.
  - destruct (Byte.eqb c c) eqn:E; [reflexivity|].
    assert (Byte.eqb c c = true) by (apply Byte.byte_dec_lb; reflexivity). congruence.
  - apply not_elem_of_cons in H as [Hne Hl].
    destruct (Byte.eqb x c) eqn:E; [apply Byte.byte_dec_bl in E; congruence|].
    rewrite (IH Hl). destruct (Z.ltb_spec (Z.of_nat (length h)) 0); lia.
Qed.

Lemma not_elem_of_zeros (k : nat) : x0a ∉ replicate k x00.
Proof. intros H. apply elem_of_replicate in H as [H _]. discriminate H. Qed.

Lemma eqb_refl (c : byte) : Byte.eqb c c = true.
Proof. apply Byte.byte_dec_lb. reflexivity. Qed.

Lemma eqb_ne (c d : byte) : c <> d -> Byte.eqb c d = false.
Proof.
  intros H. destruct (Byte.eqb c d) eqn:E; [|reflexivity].
  apply Byte.byte_dec_bl in E. contradiction.
Qed.

Lemma Split_word (a : list byte) (sep : byte) : sep ∉ a -> Split a sep = [a].
Proof.
  induction a as [|c a IH]; intros H; [reflexivity|]. cbn.
  apply not_elem_of_cons in H as [Hne Ha]. rewrite (eqb_ne c sep) by congruence.
  now rewrite (IH Ha).
Qed.

Lemma Split_field (a rest : list byte) (sep : byte) :
  sep ∉ a -> Split (a ++ sep :: rest) sep = a :: Split rest sep.
Proof.
  induction a as [|c a IH]; intros H; cbn.
  - now rewrite eqb_refl.
  - apply not_elem_of_cons in H as [Hne Ha]. rewrite (eqb_ne c sep) by congruence.
    now rewrite (IH Ha).
Qed.

Lemma HasPrefix_app (p s : list byte) : HasPrefix (p ++ s) p = true.
Proof.
  induction p as [|c p IH]; [now destruct s|]. cbn. now rewrite eqb_refl, IH.
Qed.

Lemma Contains_unfold (l p : list byte) :
  Contains l p
  = HasPrefix l p || match l with [] => false | _ :: rest => Contains rest p end.
Proof. destruct l; reflexivity. Qed.

Lemma Contains_app (p s : list byte) : Contains (p ++ s) p = true.
Proof. rewrite Contains_unfold, HasPrefix_app. reflexivity. Qed.

Lemma TrimPrefix_app (p s : list byte) : TrimPrefix (p ++ s) p = s.
Proof. unfold TrimPrefix. rewrite HasPrefix_app. now rewrite drop_app_length. Qed.

Ltac solve_notin :=
  cbn;
  repeat match goal with
         | |- _ ∉ _ ++ _ => apply not_elem_of_app; split
         | |- _ ∉ _ :: _ => apply not_elem_of_cons; split
         | |- _ ∉ [] => apply not_elem_of_nil
         | |- _ <> _ => discriminate
         | |- _ => assumption
         end.

(** The line that [Write] puts before the data, split at the spaces. *)
Lemma header_fields (s : RawSession) (addr : list byte) :
  word (ID s) -> word addr -> word (FromPort s) -> word (ToPort s) -> word (Protocol s) ->
  exists line,
    header s addr = line ++ [x0a]
    /\ (x0a ∉ line)
    /\ Split line x20
       = [str "3.3"; ID s; addr; str "FROM_PORT=" ++ FromPort s;
          str "TO_PORT=" ++ ToPort s; str "PROTOCOL=" ++ Protocol s].
Proof.
  intros [Hi1 Hi2] [Ha1 Ha2] [Hf1 Hf2] [Ht1 Ht2] [Hp1 Hp2].
  exists (str "3.3" ++ x20 :: ID s ++ x20 :: addr ++ x20 :: (str "FROM_PORT=" ++ FromPort s)
            ++ x20 :: (str "TO_PORT=" ++ ToPort s) ++ x20 :: (str "PROTOCOL=" ++ Protocol s)).
  split; [|split].
  - unfold header. repeat (progress (rewrite <- ?app_assoc; cbn)). reflexivity.
  - solve_notin.
  - rewrite Split_field by solve_notin.
    rewrite Split_field by assumption. rewrite Split_field by assumption.
    rewrite Split_field by solve_notin. rewrite Split_field by solve_notin.
    rewrite Split_word by solve_notin. reflexivity.
Qed.

Lemma readFields_header (s : RawSession) (addr : list byte) :
  plain (ID s) -> plain addr ->
  Contains (ToPort s) (str "FROM_PORT=") = false ->
  plain (Protocol s) ->
  readFields [str "3.3"; ID s; addr; str "FROM_PORT=" ++ FromPort s;
              str "TO_PORT=" ++ ToPort s; str "PROTOCOL=" ++ Protocol s]
  = (FromPort s, ToPort s).
Proof.
  intros [Hi1 Hi2] [Ha1 Ha2] Ht [Hp1 Hp2]. unfold readFields. cbn [foldl].
  replace (Contains (str "3.3") (str "FROM_PORT=")) with false by reflexivity.
  replace (Contains (str "3.3") (str "TO_PORT=")) with false by reflexivity.
  rewrite Hi1, Hi2, Ha1, Ha2. rewrite Contains_app, TrimPrefix_app.
  assert (Ht' : Contains (str "TO_PORT=" ++ ToPort s) (str "FROM_PORT=") = false).
  { cbn. cbn in Ht. now rewrite Ht. }
  rewrite Ht'. rewrite Contains_app, TrimPrefix_app.
  assert (Hp1' : Contains (str "PROTOCOL=" ++ Protocol s) (str "FROM_PORT=") = false).
  { cbn. cbn in Hp1. now rewrite Hp1. }
  assert (Hp2' : Contains (str "PROTOCOL=" ++ Protocol s) (str "TO_PORT=") = false).
  { cbn. cbn in Hp2. now rewrite Hp2. }
  rewrite Hp1', Hp2'. reflexivity.
Qed.

(** X26. A datagram that [Write] sends is read back by [Read] when it
    arrives unchanged from the address of the bridge: the data are returned
    as they were written, whatever bytes they hold, with the session's
    [FromPort] and [ToPort]. The session id, the destination, the ports and
    the protocol hold neither space nor line feed, none of them but the ports
    holds the name of a port field, and the datagram fits the buffer of
    [Read]. *)
Theorem written_datagram_is_read_back (s : RawSession) (addr b : list byte) :
  word (ID s) -> word addr -> word (FromPort s) -> word (ToPort s) -> word (Protocol s) ->
  plain (ID s) -> plain addr ->
  Contains (ToPort s) (str "FROM_PORT=") = false ->
  plain (Protocol s) ->
  (length (header s addr ++ b) <= bufSize)%nat ->
  Read s (inr (header s addr ++ b, IP (RUDPAddr s))) = Ok (inr (b, FromPort s, ToPort s)).
Proof.
  intros Wi Wa Wf Wt Wp Pi Pa Pt Pp Hlen.
  destruct (header_fields s addr Wi Wa Wf Wt Wp) as (line & Hh & Hnl & Hsplit).
  unfold Read. remember bufSize as K eqn:HK. clear HK.
  rewrite take_ge by exact Hlen. unfold Go.bytes_Equal.
  rewrite bool_decide_eq_true_2 by reflexivity. cbn [negb].
  rewrite Hh in *. rewrite <- !app_assoc. cbn [app].
  rewrite (IndexByte_first line _ x0a Hnl).
  destruct (Z.ltb_spec (Z.of_nat (length line)) 0) as [Hneg|_]; [lia|].
  rewrite !length_app. cbn [length].
  destruct (Z.ltb_spec (Z.of_nat (length line + S (length b))) (Z.of_nat (length line) + 1))
    as [Hshort|_]; [lia|].
  rewrite Nat2Z.id. rewrite take_app_length.
  replace (line ++ x0a :: b ++ replicate (K - (length line + S (length b))) x00)
    with ((line ++ x0a :: b) ++ replicate (K - (length line + S (length b))) x00)
    by (now rewrite <- app_assoc).
  replace (length line + S (length b))%nat with (length (line ++ x0a :: b))
    by (rewrite length_app; reflexivity).
  rewrite take_app_length.
  replace (length line + 1)%nat with (length (line ++ [x0a]))
    by (rewrite length_app; reflexivity).
  replace (line ++ x0a :: b) with ((line ++ [x0a]) ++ b) by (now rewrite <- app_assoc).
  rewrite drop_app_length. rewrite Hsplit.
  now rewrite (readFields_header s addr Pi Pa Pt Pp).
Qed.

(** X27. [Read] panics on a datagram from the bridge that holds no line
    feed: [bytes.IndexByte] returns -1, which then bounds a slice of the
    buffer. *)
Theorem Read_panics_without_line_feed (s : RawSession) (datagram : list byte) :
  x0a ∉ datagram ->
  Read s (inr (datagram, IP (RUDPAddr s))) = Panic.
Proof.
  intros Hnl. unfold Read. unfold Go.bytes_Equal.
  rewrite bool_decide_eq_true_2 by reflexivity. cbn [negb].
  rewrite IndexByte_absent; [reflexivity|].
  apply not_elem_of_app. split; [|apply not_elem_of_zeros].
  intros H. apply Hnl. now apply (subseteq_take bufSize datagram).
Qed.

Section NewRawSession.

Variable env : Environment.

Lemma checkOption_valid (opt : list byte) (p p' : Ports) :
  validPorts env p -> checkOption env opt p = Continue p' -> validPorts env p'.
Proof.
  intros (Hu & Hs & Hp) H. unfold checkOption in H.
  set (flag := default [] (Split opt x3d !! 0%nat)) in H.
  assert (H1 : forall q, checkSendPort env opt flag p = Continue q ->
                         validPorts env q).
  { intros q Hq. unfold checkSendPort in Hq.
    destruct (isFlag flag _ _); [|now simplify_eq].
    destruct (Split opt x3d !! 1%nat) as [v|]; [|discriminate].
    destruct (Atoi env v) as [err|n] eqn:Hn; [discriminate|].
    destruct (Z.ltb_spec 65535 n); [discriminate|].
    destruct (Z.ltb_spec n 0); [discriminate|]. cbn in Hq. simplify_eq.
    repeat split; cbn; try assumption. right. exists n. split; [assumption|lia]. }
  assert (H2 : forall q r, validPorts env q ->
                           checkUdpPort env opt flag q = Continue r -> validPorts env r).
  { intros q r (Hqu & Hqs & Hqp) Hr. unfold checkUdpPort in Hr.
    destruct (isFlag flag _ _); [|now simplify_eq].
    destruct (Split opt x3d !! 1%nat) as [v|]; [|discriminate].
    destruct (Atoi env v) as [err|n] eqn:Hn; [discriminate|].
    destruct (Z.ltb_spec 65535 n); [discriminate|].
    destruct (Z.ltb_spec n 0); [discriminate|]. cbn in Hr. simplify_eq.
    repeat split; cbn; try assumption. right. exists n. split; [assumption|lia]. }
  assert (H3 : forall q r, validPorts env q ->
                           checkProtocol env opt flag q = Continue r -> validPorts env r).
  { intros q r (Hqu & Hqs & Hqp) Hr. unfold checkProtocol in Hr.
    destruct (isFlag flag _ _); [|now simplify_eq].
    destruct (Split opt x3d !! 1%nat) as [v|]; [|discriminate].
    destruct (Atoi env v) as [err|n] eqn:Hn; [discriminate|].
    destruct (Z.ltb_spec n 0); [discriminate|].
    destruct (Z.ltb_spec 255 n); [discriminate|].
    destruct (Z.eqb_spec n 6); [discriminate|]. cbn in Hr. simplify_eq.
    repeat split; cbn; try assumption. right. exists n. repeat split; [assumption|lia..]. }
  destruct (checkSendPort env opt flag p) as [q| |] eqn:E1; try discriminate.
  destruct (checkUdpPort env opt flag q) as [r| |] eqn:E2; try discriminate.
  eapply H3; [|exact H]. eapply H2; [|exact E2]. now apply H1.
Qed.

Lemma checkOptions_valid (SAMOpt : list (list byte)) :
  forall p p', validPorts env p -> checkOptions env SAMOpt p = Continue p' ->
               validPorts env p'.
Proof.
  induction SAMOpt as [|opt rest IH]; intros p p' Hp H; cbn in H; [now simplify_eq|].
  destruct (checkOption env opt p) as [q| |] eqn:E; try discriminate.
  eapply IH; [|exact H]. eapply checkOption_valid; eauto.
Qed.

Lemma checkOptions_app (pre post : list (list byte)) (p q : Ports) :
  checkOptions env pre p = Continue q ->
  checkOptions env (pre ++ post) p = checkOptions env post q.
Proof.
  revert p. induction pre as [|opt pre IH]; intros p H; cbn in *; [now simplify_eq|].
  destruct (checkOption env opt p) as [r| |]; try discriminate. now apply IH.
Qed.

Lemma validPorts_defaults : validPorts env (mkPorts (str "7655") (str "0") (str "18")).
Proof. repeat split; now left. Qed.

(** X28. A session that [NewRawSession] returns has the id it was asked
    for, and each of its two ports and its protocol is either the default or
    a value of the options that [Atoi] reads as a number in range: 0 to 65535
    for a port, 0 to 255 and not 6 for the protocol. They are the values the
    loop over the options ends with. *)
Theorem session_ports_are_validated
    (id priv : list byte) (SAMOpt I2CPOpt : list (list byte)) (sess : RawSession)
    (tr : list Effect) :
  NewRawSession env id priv SAMOpt I2CPOpt = (Ok (inr sess), tr) ->
  ID sess = id
  /\ validPort env (str "7655") (FromPort sess)
  /\ validPort env (str "0") (ToPort sess)
  /\ validProtocol env (Protocol sess)
  /\ checkOptions env SAMOpt (mkPorts (str "7655") (str "0") (str "18"))
     = Continue (mkPorts (FromPort sess) (ToPort sess) (Protocol sess)).
Proof.
  unfold NewRawSession. intros H.
  destruct (SplitHostPort env (LocalAddr env)) as [?|[lHost ?]]; [discriminate|].
  destruct (SplitHostPort env (RemoteAddr env)) as [?|[rHost ?]]; [discriminate|].
  destruct (checkOptions env SAMOpt _) as [p| |] eqn:E; try discriminate.
  destruct (ResolveUDPAddr env (lHost ++ _)) as [?|lUDPAddr]; [discriminate|].
  destruct (ListenUDP env lUDPAddr); [discriminate|].
  destruct (ResolveUDPAddr env (rHost ++ _)) as [?|rUDPAddr]; [discriminate|].
  destruct (SendToBridge env _) as [?|text]; [discriminate|].
  destruct (HandleResponse env text); [discriminate|]. simplify_eq. cbn.
  destruct (checkOptions_valid SAMOpt _ _ validPorts_defaults E) as (Hu & Hs & Hp).
  destruct p. repeat split; assumption.
Qed.

(** X29. An option that names a port or the protocol and holds no [=]
    makes [NewRawSession] panic, by indexing the second field of the split
    option, once the options before it were accepted; nothing has been sent
    to the bridge and no socket has been opened. *)
Theorem option_without_value_panics
    (id priv : list byte) (pre post I2CPOpt : list (list byte)) (opt : list byte)
    (p : Ports) (l r : list byte * list byte) :
  SplitHostPort env (LocalAddr env) = inr l ->
  SplitHostPort env (RemoteAddr env) = inr r ->
  checkOptions env pre (mkPorts (str "7655") (str "0") (str "18")) = Continue p ->
  flagWithoutValue opt ->
  NewRawSession env id priv (pre ++ opt :: post) I2CPOpt = (Panic, []).
Proof.
  intros Hl Hr Hpre [Hno Hflag]. unfold NewRawSession. rewrite Hl, Hr.
  destruct l as [lHost ?], r as [rHost ?].
  rewrite (checkOptions_app pre (opt :: post) _ p Hpre). cbn [checkOptions].
  assert (E : checkOption env opt p = IndexOutOfRange).
  { unfold checkOption. rewrite (Split_word opt x3d Hno). cbn [lookup list_lookup default].
    unfold checkSendPort, checkUdpPort, checkProtocol. cbn [lookup list_lookup].
    repeat (apply elem_of_cons in Hflag as [->|Hflag]; [reflexivity|]).
    now apply elem_of_nil in Hflag. }
  now rewrite E.
Qed.

End NewRawSession.

End sam3_facts.

(** * Further scenarios, run *)

Module scenario_more_facts.
Import scenario scenario_more.

(** The successor of the genesis block is accepted. *)
Lemma accepted_block_becomes_tip_witness :
  chain.acceptBlock env block1 (chainAt genesis)
  = (chain.Ok tt,
     chain.mkChain block1 provisioners 0 chain.inSync 0 []
       [chain.CallGetStateRoot; chain.CallFinalize [tt] zeroHash 1 1000;
        chain.CallAppend block1; chain.PublishBlock chain.AcceptedBlock block1;
        chain.CallClearCandidateMessages]).
Proof.
  exact (accept_facts.accepted_block_becomes_tip env (chainAt genesis) block1
           provisioners
           (scenario_facts.env_certificateValid block1 eq_refl eq_refl)
           scenario_facts.env_stateHashInSync eq_refl eq_refl).
Defined.

(** The disk is full: the genesis block stays the tip. *)
Lemma storage_failure_keeps_tip_with_new_provisioners_witness :
  chain.acceptBlock envFullDisk block1 (chainAt genesis)
  = (chain.Err "disk full"%string,
     chain.mkChain genesis provisioners 0 chain.inSync 0 []
       [chain.CallGetStateRoot; chain.CallFinalize [tt] zeroHash 1 1000;
        chain.CallAppend block1]).
Proof.
  refine (accept_facts.storage_failure_keeps_tip_with_new_provisioners envFullDisk
            (chainAt genesis) block1 provisioners "disk full"%string
            _ _ eq_refl eq_refl).
  - split; reflexivity.
  - split; [reflexivity|discriminate].
Defined.

(** The tip declares the state hash 0xaa..., the executor reports the zero
    hash: the successor is rejected before any transition. *)
Lemma state_out_of_sync_blocks_every_transition_witness :
  chain.acceptBlock env block2 (chainAt block1fork)
  = (chain.Err chain.errInvalidStateHash,
     chain.add_effect chain.CallGetStateRoot (chainAt block1fork)).
Proof.
  refine (accept_facts.state_out_of_sync_blocks_every_transition env
            (chainAt block1fork) block2 zeroHash _ eq_refl _).
  - split; reflexivity.
  - left. discriminate.
Defined.

(** Node A casts its vote while the vote of B waits: its own message is
    received first. With no room in the channel the call blocks once the
    message is gossiped, on a closed channel it panics there, and with a nil
    map it panics before any effect. *)
Lemma sigSetVote_outcomes :
  consensus.sigSetVote ext chanEmpty
    (consensus.mkWorld ctxA [consensus.Recv (voteOf pkB hashH)] [])
  = (consensus.Ok tt,
     consensus.mkWorld ctxVoted
       [consensus.Recv ownVote; consensus.Recv (voteOf pkB hashH)]
       [consensus.Gossip 7 ownVote; consensus.ChanSend ownVote])
  /\ consensus.sigSetVote ext chanNoRoom
       (consensus.mkWorld ctxA [consensus.Recv (voteOf pkB hashH)] [])
     = (consensus.Blocked,
        consensus.mkWorld ctxVoted [consensus.Recv (voteOf pkB hashH)]
          [consensus.Gossip 7 ownVote])
  /\ consensus.sigSetVote ext chanClosed
       (consensus.mkWorld ctxA [consensus.Recv (voteOf pkB hashH)] [])
     = (consensus.Panic,
        consensus.mkWorld ctxVoted [consensus.Recv (voteOf pkB hashH)]
          [consensus.Gossip 7 ownVote])
  /\ consensus.sigSetVote ext chanEmpty
       (consensus.mkWorld ctxNilMap [consensus.Recv (voteOf pkB hashH)] [])
     = (consensus.Panic,
        consensus.mkWorld (user.set_SigSetHash (Some hashH) ctxNilMap)
          [consensus.Recv (voteOf pkB hashH)] []).
Proof.
  split; [vm_compute; reflexivity|].
  split; [vm_compute; reflexivity|].
  split; vm_compute; reflexivity.
Qed.

(** With no committee, the vote of B for [hashG] ends the count. *)
Lemma zero_vote_limit_ends_count_at_first_vote_witness :
  consensus.countLoop (consensus.voteLimit ctxNoCommittee) ctxNoCommittee
    consensus.emptyTally [consensus.Recv (voteOf pkB hashG); consensus.TimerC]
  = consensus.Returned (consensus_props.forwarded ctxNoCommittee (plOf hashG))
      (consensus.ExitQuorum (plOf hashG)) [consensus.TimerC].
Proof.
  exact (vote_facts.zero_vote_limit_ends_count_at_first_vote ctxNoCommittee
           (voteOf pkB hashG) (plOf hashG) [consensus.TimerC] eq_refl eq_refl).
Defined.

(** The node's own candidate, received between B's and the timer, changes
    nothing. *)
Lemma generation_ignores_own_candidate_and_waits_for_timer_witness :
  let r := consensus.SignatureSetGeneration ext worldOwnCandidate in
  let r' :=
    consensus.SignatureSetGeneration ext
      (consensus.mkWorld ctxA [consensus.Recv (candidateOf pkB); consensus.TimerC] []) in
  fst r = fst r'
  /\ (fst r <> consensus.Panic ->
      consensus.ctx (snd r) = consensus.ctx (snd r')
      /\ consensus.trace (snd r) = consensus.trace (snd r'))
  /\ (fst r = consensus.Ok tt ->
      exists ms,
        consensus.inbox worldOwnCandidate
        = (consensus.Recv <$> ms) ++ consensus.TimerC :: consensus.inbox (snd r)).
Proof.
  exact (vote_facts.generation_ignores_own_candidate_and_waits_for_timer ext
           worldOwnCandidate [consensus.Recv (candidateOf pkB)] [consensus.TimerC]
           (candidateOf pkA) (SigSetCandidate.mk [x10] [tt; tt] [] [])
           eq_refl eq_refl eq_refl).
Defined.

End scenario_more_facts.

(** * Scenarios for the vote hash and the framing, run *)

Module scenario_extra_facts.
Import scenario scenario_extra.

(** The votes [01], [02] and the single vote [01 02] have the same hash. *)
Lemma hashSigSetVotes_hashes_the_concatenation_witness :
  consensus.hashSigSetVotes extRaw [[x01]; [x02]]
  = consensus.hashSigSetVotes extRaw [[x01; x02]].
Proof.
  exact (proj2 (hash_facts.hashSigSetVotes_hashes_the_concatenation extRaw [[x01]; [x02]])
           [[x01; x02]] [[x01]; [x02]] [[x01; x02]] eq_refl eq_refl eq_refl).
Defined.

(** A reduction followed by one byte is read in one way only. *)
Lemma marshalled_events_are_self_delimiting_witness :
  red1 = red1 /\ [x07] = [x07].
Proof.
  refine (proj1 (framing_facts.marshalled_events_are_self_delimiting encoding.wire
                   events_facts.wire_laws)
            red1 red1
            (marshalled (events.Reduction_Marshal encoding.wire [] (events.EvReduction red1)))
            (marshalled (events.Reduction_Marshal encoding.wire [] (events.EvReduction red1)))
            [x07] [x07] _ _ _ _ eq_refl).
  - repeat split; cbn; lia.
  - repeat split; cbn; lia.
  - vm_compute. reflexivity.
  - vm_compute. reflexivity.
Defined.

(** Two reductions appended to a buffer that holds one byte. *)
Lemma vote_set_roundtrip_keeps_what_follows_witness :
  exists bs,
    marshalled (events.MarshalVoteSet encoding.wire [x09]
                  [events.EvReduction red1; events.EvReduction red2])
    = [x09] ++ bs
    /\ forall rest,
         events.UnmarshalVoteSet encoding.wire (bs ++ rest)
         = events.Ok (rest, [events.EvReduction red1; events.EvReduction red2]).
Proof.
  refine (proj2 (framing_facts.vote_set_roundtrip_keeps_what_follows encoding.wire
                   events_facts.wire_laws [x09]
                   [events.EvReduction red1; events.EvReduction red2]
                   (marshalled (events.MarshalVoteSet encoding.wire [x09]
                                  [events.EvReduction red1; events.EvReduction red2]))
                   _ _ _)).
  - cbn. lia.
  - repeat constructor; cbn; lia.
  - vm_compute. reflexivity.
Defined.

End scenario_extra_facts.

(** * The mempool over a list, run *)

Module scenario_pool_facts.
Import scenario_pool.

Lemma poolList_laws : mempool_props.PoolLaws envPool.
Proof.
  split; cbn.
  - intros p t p' h [= <-] [= <-]. rewrite existsb_app. cbn.
    unfold holds at 2. rewrite bool_decide_eq_true_2 by reflexivity.
    now rewrite orb_true_r.
  - intros p h. induction p as [|t p IH]; cbn; [reflexivity|].
    destruct (holds h t) eqn:E; cbn; [exact IH|]. now rewrite E.
  - intros p h h' H. induction p as [|t p IH]; cbn in *; [reflexivity|].
    apply orb_false_iff in H as [H1 H2].
    destruct (holds h t); cbn; [now apply IH|]. rewrite H1. now apply IH.
  - intros p h H. destruct p; [reflexivity|]. cbn in H. lia.
Qed.

(** A transaction accepted into the empty pool is refused when it comes
    again. *)
Lemma accepted_transaction_is_refused_again_witness :
  mempool.processTx envPool (txOf [x01] 50)
    (snd (mempool.processTx envPool (txOf [x01] 100) emptyMempool))
  = (([x01], Some mempool.ErrAlreadyExists),
     snd (mempool.processTx envPool (txOf [x01] 100) emptyMempool)).
Proof.
  exact (mempool_facts.accepted_transaction_is_refused_again envPool
           (txOf [x01] 100) (txOf [x01] 50) emptyMempool _ [x01]
           poolList_laws eq_refl eq_refl).
Defined.

(** With a limit of 300 bytes the first two transactions are returned. *)
Lemma size_request_returns_longest_affordable_prefix_witness :
  exists n,
    mempool.processGetMempoolTxsBySizeRequest envPool
      (mempool.ParamsBuffer [x2c; x01; x00; x00]) mempool3
    = mempool.Ok (inr (mempool_props.txsOf
                         (take n [([x01], txOf [x01] 100); ([x02], txOf [x02] 200);
                                  ([x03], txOf [x03] 300)])))
    /\ mempool_props.totalSize
         (take n [([x01], txOf [x01] 100); ([x02], txOf [x02] 200);
                  ([x03], txOf [x03] 300)]) <= 300
    /\ ((3 <= n)%nat
        \/ 300 < mempool_props.totalSize
                   (take (S n) [([x01], txOf [x01] 100); ([x02], txOf [x02] 200);
                                ([x03], txOf [x03] 300)])).
Proof.
  refine (mempool_facts.size_request_returns_longest_affordable_prefix envPool
            [x2c; x01; x00; x00] 300 _ mempool3 eq_refl _ eq_refl _).
  - lia.
  - repeat constructor; cbn; lia.
Defined.

(** A filter of one byte returns the three transactions. *)
Lemma filter_of_another_length_returns_the_whole_pool_witness :
  mempool.processGetMempoolTxsRequest envPool (mempool.ParamsBuffer [x01]) mempool3
  = mempool.Ok (inr [[x01]; [x02]; [x03]]).
Proof.
  refine (mempool_facts.filter_of_another_length_returns_the_whole_pool envPool
            [x01] mempool3 _).
  cbn. lia.
Defined.

(** The block takes the first and the third transaction out of the pool. *)
Lemma accepted_transactions_leave_the_pool_witness :
  fst (mempool.onBlock envPool blockOf13 mempool3) = mempool.Ok tt
  /\ mempool.latestBlockTimestamp (snd (mempool.onBlock envPool blockOf13 mempool3)) = 20
  /\ Forall (fun c =>
       mempool.Contains poolList
         (mempool.verifiedPool (snd (mempool.onBlock envPool blockOf13 mempool3)))
         (mempool_props.hashOf envPool c) = false) [[x01]; [x03]]
  /\ mempool.trace (snd (mempool.onBlock envPool blockOf13 mempool3))
     = [mempool.CallDelete [x01]; mempool.CallDelete [x03]].
Proof.
  refine (mempool_facts.accepted_transactions_leave_the_pool envPool blockOf13 mempool3
            poolList_laws _).
  repeat constructor.
Defined.

End scenario_pool_facts.

(** * The connection manager, run *)

Module scenario_conn_facts.
Import scenario_conn.

(** The peer is offline: six dials, then [OnFail]. *)
Lemma unreachable_peer_is_dialled_six_times_then_dropped_witness :
  exists c1 c2,
    connmgr.NewRequest cfgOffline idle = (connmgr.Ok tt, c1)
    /\ (forall fuel, (5 <= fuel)%nat ->
          connmgr.runGoroutines cfgOffline fuel c1 = (connmgr.Ok tt, c2))
    /\ connmgr.goroutines c2 = []
    /\ connmgr.PendingList c2 = delete peer (connmgr.PendingList idle)
    /\ connmgr.ConnectedList c2 = connmgr.ConnectedList idle
    /\ connmgr.trace c2
       = replicate 6 (connmgr.CallDial peer) ++ [connmgr.CallOnFail peer].
Proof.
  refine (connmgr_facts.unreachable_peer_is_dialled_six_times_then_dropped cfgOffline
            idle peer eq_refl _ eq_refl).
  intros tr. now exists "i/o timeout"%string.
Defined.

(** The peer is connected and disconnected: it is dialled again without
    delay. *)
Lemma disconnected_peer_is_redialled_at_once_witness :
  exists c1 c2,
    connmgr.Connect cfgOnline 1 oneRequest = (connmgr.Ok None, c1)
    /\ connmgr.ConnectedList c1 !! peer = Some 1%positive
    /\ connmgr.Disconnect cfgOnline peer c1 = (connmgr.Ok tt, c2)
    /\ connmgr_props.listed peer c2 = None
    /\ connmgr.heap c2 !! 1%positive = Some (connmgr.mkRequest peer 0 None true true)
    /\ connmgr.heap c2 !! fresh (dom (connmgr.heap c1))
       = Some (connmgr.mkRequest peer 0 (Some 7) true true)
    /\ connmgr.trace c2
       = connmgr.trace c1
           ++ [connmgr.CallClose 7; connmgr.AfterFunc 0 (fresh (dom (connmgr.heap c1)))].
Proof.
  exact (connmgr_facts.disconnected_peer_is_redialled_at_once cfgOnline oneRequest 1
           (connmgr.mkRequest peer 0 None false true) 7 eq_refl eq_refl).
Defined.

(** No peer is listed: [Disconnect] panics. *)
Lemma Disconnect_panics_without_a_connection_witness :
  fst (connmgr.Disconnect cfgOnline peer idle) = connmgr.Panic.
Proof.
  refine (connmgr_facts.Disconnect_panics_without_a_connection cfgOnline idle peer _).
  intros p r H. discriminate H.
Defined.

End scenario_conn_facts.

(** * The map of duplicates, run *)

Module scenario_dupe_facts.
Import scenario_dupe.

(** The cleanup at time 1005 drops the buffer added at 1004 as well. *)
Lemma cache_expiry_is_fixed_by_first_add_witness :
  (exists f, dupemap.msgFilter twoAdds !! 3 = Some (dupemap.mkCache f (dupemap.int64 (1000 + 5))))
  /\ forall b,
       dupemap.HasAt listFilter (dupemap.CleanExpired [(3, 1005)] twoAdds) b 3 = false.
Proof.
  refine (dupemap_facts.cache_expiry_is_fixed_by_first_add listFilter fresh5 3 [x01] 1000
            [([x02], 1004)] [(3, 1005)] 1005 eq_refl _ eq_refl _).
  - repeat constructor. set_solver.
  - vm_compute. discriminate.
Defined.

(** The cleanup at time 1004 keeps the cache of height 3. *)
Lemma CleanExpired_drops_exactly_the_expired_witness :
  dupemap.msgFilter (dupemap.CleanExpired [(3, 1004)] twoAdds) !! 3
  = match dupemap.msgFilter twoAdds !! 3, dupemap_props.visitedAt [(3, 1004)] 3 with
    | Some c, Some now => if dupemap.TTL c <=? now then None else Some c
    | _, _ => None
    end.
Proof.
  refine (dupemap_facts.CleanExpired_drops_exactly_the_expired [(3, 1004)] twoAdds _ _ 3).
  - repeat constructor. set_solver.
  - intros h [c Hc]. destruct (decide (h = 3)) as [->|Hne]; [now exists 1004|].
    exfalso. revert Hc. unfold twoAdds, dupemap_props.addAll. cbn.
    rewrite lookup_insert_ne by congruence. rewrite lookup_insert_ne by congruence.
    now rewrite lookup_empty.
Defined.

End scenario_dupe_facts.

(** * The connector, run *)

Module scenario_peer_facts.
Import scenario_peer.

(** With a limit of one connection and one peer registered, a second peer is
    connected. *)
Lemma connections_may_exceed_the_limit_by_one_witness :
  fst (peer.ProcessNewAddress envOne "10.0.0.9" (peer.PlAddr "10.0.0.10") onePeer)
  = peer.Ok None
  /\ peer.GetConnectionsCount
       (snd (peer.ProcessNewAddress envOne "10.0.0.9" (peer.PlAddr "10.0.0.10") onePeer))
     = 2.
Proof.
  refine (proj1 (proj2 (peer_facts.connections_may_exceed_the_limit_by_one envOne
                          "10.0.0.9" (peer.PlAddr "10.0.0.10") onePeer))
            "10.0.0.10"%string 9 eq_refl _ eq_refl eq_refl _).
  - unfold peer.GetConnectionsCount, onePeer. cbn. now rewrite size_singleton.
  - cbn. intros H. apply elem_of_singleton in H. discriminate H.
Defined.

End scenario_peer_facts.

(** * The raw session, run *)

Module scenario_sam_facts.
Import sam3 scenario_sam.

Lemma session_words :
  sam3_props.word (ID session) /\ sam3_props.word destination
  /\ sam3_props.word (FromPort session) /\ sam3_props.word (ToPort session)
  /\ sam3_props.word (Protocol session).
Proof. repeat split; sam3_facts.solve_notin. Qed.

(** Three bytes of data, one of them a line feed, come back as they were
    written. *)
Lemma written_datagram_is_read_back_witness :
  Read session (inr (header session destination ++ [x01; x0a; x02], IP (RUDPAddr session)))
  = Ok (inr ([x01; x0a; x02], FromPort session, ToPort session)).
Proof.
  destruct session_words as (Wi & Wa & Wf & Wt & Wp).
  refine (sam3_facts.written_datagram_is_read_back session destination [x01; x0a; x02]
            Wi Wa Wf Wt Wp _ _ _ _ _).
  - split; reflexivity.
  - split; reflexivity.
  - reflexivity.
  - split; reflexivity.
  - apply Nat.leb_le. vm_compute. reflexivity.
Defined.

(** A datagram of two bytes without line feed. *)
Lemma Read_panics_without_line_feed_witness :
  Read session (inr ([x01; x02], IP (RUDPAddr session))) = Panic.
Proof.
  refine (sam3_facts.Read_panics_without_line_feed session [x01; x02] _).
  sam3_facts.solve_notin.
Defined.

(** The session of the example is the one [NewRawSession] creates. *)
Lemma session_ports_are_validated_witness :
  ID session = str "sess"
  /\ sam3_props.validPort envSam (str "7655") (FromPort session)
  /\ sam3_props.validPort envSam (str "0") (ToPort session)
  /\ sam3_props.validProtocol envSam (Protocol session)
  /\ checkOptions envSam [str "PORT=9000"; str "PROTOCOL=17"]
       (mkPorts (str "7655") (str "0") (str "18"))
     = Continue (mkPorts (FromPort session) (ToPort session) (Protocol session)).
Proof.
  refine (sam3_facts.session_ports_are_validated envSam (str "sess") (str "priv")
            [str "PORT=9000"; str "PROTOCOL=17"] [] session
            [CallListenUDP bridge;
             CallSendToBridge
               (str "SESSION CREATE STYLE=RAW ID=sess DESTINATION=priv PORT=9000 PROTOCOL=17"
                  ++ [x0a])] _).
  vm_compute. reflexivity.
Defined.

(** The second option names a port and gives none. *)
Lemma option_without_value_panics_witness :
  NewRawSession envSam (str "sess") (str "priv")
    ([str "PROTOCOL=17"] ++ str "PORT" :: [str "FROM_PORT=1"]) []
  = (Panic, []).
Proof.
  refine (sam3_facts.option_without_value_panics envSam (str "sess") (str "priv")
            [str "PROTOCOL=17"] [str "FROM_PORT=1"] [] (str "PORT")
            (mkPorts (str "7655") (str "0") (str "17")) _ _ eq_refl eq_refl _ _).
  - vm_compute. reflexivity.
  - split; [sam3_facts.solve_notin|]. apply elem_of_cons. now left.
Defined.

End scenario_sam_facts.

